(** * Parameterized selector cache (selectorUtils.ts): model and properties

    A shallow embedding of [createParameterizedSelector], of its cache-key
    derivation [getCacheKeyForParams] and of [createPaginationSelector],
    followed by the properties of the cache that the design document states.

    Conventions of the embedding.
    - JavaScript values that can occur in an argument tuple are the
      inductive type [Value]; numbers are the integer-valued doubles that
      print in plain decimal notation, together with [-0], [NaN] and the two
      infinities.  Strings are sequences of code units below 256.
    - The entry store [selectorCache] (a JS [Map]) is a [gmap string _];
      [keyUsage] (a JS array) is a [list string].
    - The clock readings [Date.now()] and [performance.now()] are inputs of
      every invocation; they are integers on an exact scale.
    - The wrapped selector may read and change the outside world and may
      throw: it is a function into [(Exn + Result) * World]. *)

From Stdlib Require Import ZArith Ascii String List Sorted Lia.
From stdpp Require Import base option list gmap strings pretty fin_maps.

Set Warnings "-register-all,-clear-no-such-hyp".

Local Open Scope Z_scope.

(** ** JavaScript values *)

Module JS.

Inductive JSNumber :=
| NumInt (z : Z)
| NumNegZero
| NumNaN
| NumPosInf
| NumNegInf.

(** [VObject] lists the own enumerable string-keyed properties in the order
  of [Object.keys]. [VCyclic] is an object from which the traversal of
  [JSON.stringify] reaches an object that is already being serialized; only
  its own key names matter. [VDate None] is the invalid date. *)
Inductive Value :=
| VUndefined
| VNull
| VBool (b : bool)
| VNum (n : JSNumber)
| VStr (s : string)
| VBigInt (z : Z)
| VSymbol (description : string)
| VFunction (name source : string)
| VArray (items : list Value)
| VObject (props : list (string * Value))
| VCyclic (keys : list string)
| VMap (entries : list (Value * Value))
| VSet (values : list Value)
| VDate (iso : option string)
| VRegExp (text : string)
| VError (name message : string)
| VTypedArray (ctor : string) (elems : list JSNumber).

Definition dquote : ascii := "034"%char.
Definition backslash : ascii := "092"%char.

(** [Array.prototype.join] on strings. *)
Fixpoint join (sep : string) (l : list string) : string :=
match l with
| [] => ""
| [s] => s
| s :: rest => s +:+ sep +:+ join sep rest
end.

(** [String.prototype.slice(0, n)]. *)
Fixpoint slice0 (n : nat) (s : string) : string :=
match n, s with
| S n', String c s' => String c (slice0 n' s')
| _, _ => ""
end.

(** Number::toString, and what [JSON.stringify] prints for a number. *)
Definition Number_toString (n : JSNumber) : string :=
match n with
| NumInt z => pretty z
| NumNegZero => "0"
| NumNaN => "NaN"
| NumPosInf => "Infinity"
| NumNegInf => "-Infinity"
end.

Definition isFinite (n : JSNumber) : bool :=
match n with
| NumInt _ | NumNegZero => true
| _ => false
end.

Definition hexDigit (n : N) : ascii :=
match n with
| 0 => "0" | 1 => "1" | 2 => "2" | 3 => "3" | 4 => "4" | 5 => "5"
| 6 => "6" | 7 => "7" | 8 => "8" | 9 => "9" | 10 => "a" | 11 => "b"
| 12 => "c" | 13 => "d" | 14 => "e" | _ => "f"
end%N%char.

(** QuoteJSONString, one code unit. *)
Definition escapeChar (c : ascii) : string :=
let n := N_of_ascii c in
if (n =? 34)%N then String backslash (String dquote "")
else if (n =? 92)%N then String backslash (String backslash "")
else if (n =? 8)%N then String backslash "b"
else if (n =? 12)%N then String backslash "f"
else if (n =? 10)%N then String backslash "n"
else if (n =? 13)%N then String backslash "r"
else if (n =? 9)%N then String backslash "t"
else if (n <? 32)%N then
  String backslash ("u00" +:+ String (hexDigit (n / 16)) (String (hexDigit (n mod 16)) ""))
else String c "".

Fixpoint escapeString (s : string) : string :=
match s with
| "" => ""
| String c s' => escapeChar c +:+ escapeString s'
end.

Definition QuoteJSONString (s : string) : string :=
String dquote (escapeString s +:+ String dquote "").

(** Outcome of serializing one property value: an exception, no text at all
  ([undefined], symbols), or the text. *)
Inductive Ser :=
| Throws
| Omitted
| Text (s : string).

(** Elements of an array: a missing text prints as [null]. *)
Fixpoint arrayElements (l : list Ser) : option (list string) :=
match l with
| [] => Some []
| Throws :: _ => None
| Omitted :: rest => cons "null" <$> arrayElements rest
| Text s :: rest => cons s <$> arrayElements rest
end.

Definition SerializeJSONArray (l : list Ser) : Ser :=
match arrayElements l with
| Some parts => Text ("[" +:+ join "," parts +:+ "]")
| None => Throws
end.

(** Members of an object: a property without text is left out. *)
Fixpoint objectMembers (l : list (string * Ser)) : option (list string) :=
match l with
| [] => Some []
| (_, Throws) :: _ => None
| (_, Omitted) :: rest => objectMembers rest
| (k, Text s) :: rest => cons (QuoteJSONString k +:+ ":" +:+ s) <$> objectMembers rest
end.

Definition SerializeJSONObject (l : list (string * Ser)) : Ser :=
match objectMembers l with
| Some parts => Text ("{" +:+ join "," parts +:+ "}")
| None => Throws
end.

Definition functionName (name : string) : string :=
if decide (name = "") then "anonymous" else name.

(** The replacer that [getCacheKeyForParams] hands to [JSON.stringify]
  (one value, not recursive). A [Date] never reaches its [instanceof Date]
  test: [JSON.stringify] calls [toJSON] first. *)
Definition replacer (v : Value) : Value :=
match v with
| VFunction name source =>
    VStr ("__fn_" +:+ functionName name +:+ "_" +:+ slice0 100 source)
| VMap entries =>
    VArray (VStr "__Map" :: map (fun e => VArray [e.1; e.2]) entries)
| VSet values => VArray (VStr "__Set" :: values)
| VRegExp text => VArray [VStr "__RegExp"; VStr text]
| VError name message => VArray [VStr "__Error"; VStr name; VStr message]
| VTypedArray ctor elems =>
    VArray [VStr "__TypedArray"; VStr ctor; VArray (map VNum elems)]
| _ => v
end.

Definition toJSON (v : Value) : Value :=
match v with
| VDate (Some iso) => VStr iso
| VDate None => VNull
| _ => v
end.

Definition SerializeNumber (n : JSNumber) : Ser :=
Text (if isFinite n then Number_toString n else "null").

(** SerializeJSONProperty with the replacer above applied at every value:
  [toJSON], then the replacer, then the serialization of what the replacer
  returned. The cases of the special objects print the array the replacer
  builds for them (lemma [SerializeJSONProperty_replacer] below). *)
Fixpoint SerializeJSONProperty (v : Value) : Ser :=
match v with
| VUndefined => Omitted
| VSymbol _ => Omitted
| VNull => Text "null"
| VBool b => Text (if b then "true" else "false")
| VNum n => SerializeNumber n
| VStr s => Text (QuoteJSONString s)
| VBigInt _ => Throws
| VCyclic _ => Throws
| VFunction name source =>
    Text (QuoteJSONString ("__fn_" +:+ functionName name +:+ "_" +:+ slice0 100 source))
| VArray items => SerializeJSONArray (map SerializeJSONProperty items)
| VObject props =>
    SerializeJSONObject (map (fun p => (p.1, SerializeJSONProperty p.2)) props)
| VMap entries =>
    SerializeJSONArray
      (Text (QuoteJSONString "__Map")
         :: map (fun e => SerializeJSONArray
                            [SerializeJSONProperty e.1; SerializeJSONProperty e.2])
                entries)
| VSet values =>
    SerializeJSONArray
      (Text (QuoteJSONString "__Set") :: map SerializeJSONProperty values)
| VDate (Some iso) => Text (QuoteJSONString iso)
| VDate None => Text "null"
| VRegExp text =>
    SerializeJSONArray [Text (QuoteJSONString "__RegExp"); Text (QuoteJSONString text)]
| VError name message =>
    SerializeJSONArray
      [Text (QuoteJSONString "__Error"); Text (QuoteJSONString name);
       Text (QuoteJSONString message)]
| VTypedArray ctor elems =>
    SerializeJSONArray
      [Text (QuoteJSONString "__TypedArray"); Text (QuoteJSONString ctor);
       SerializeJSONArray (map SerializeNumber elems)]
end.

(** [JSON.stringify(params, replacer)] for the argument array. *)
Definition JSON_stringify (params : list Value) : Ser :=
SerializeJSONProperty (VArray params).

(** [String(value)] for the values that are neither objects nor functions. *)
Definition String_of (v : Value) : string :=
match v with
| VUndefined => "undefined"
| VNull => "null"
| VBool b => if b then "true" else "false"
| VNum n => Number_toString n
| VStr s => s
| VBigInt z => pretty z
| VSymbol d => "Symbol(" +:+ d +:+ ")"
| _ => ""
end.

(** [Object.keys(value)] for the objects. *)
Definition indexKeys {A} (l : list A) : list string :=
map (fun i : nat => pretty i) (seq 0 (length l)).

Definition Object_keys (v : Value) : list string :=
match v with
| VArray items => indexKeys items
| VObject props => map fst props
| VCyclic keys => keys
| VTypedArray _ elems => indexKeys elems
| _ => []
end.

Definition isFunction (v : Value) : bool :=
match v with VFunction _ _ => true | _ => false end.

Definition isObject (v : Value) : bool :=
match v with
| VArray _ | VObject _ | VCyclic _ | VMap _ | VSet _ | VDate _ | VRegExp _
| VError _ _ | VTypedArray _ _ => true
| _ => false
end.

(** The per-argument encoder of the [catch] branch. *)
Definition fallbackParam (param : Value) : string :=
match param with
| VNull => "null"
| VUndefined => "undefined"
| VFunction name _ => "fn_" +:+ functionName name
| _ =>
    if isObject param then "obj_" +:+ join "_" (Object_keys param)
    else String_of param
end.

Definition fallbackKey (params : list Value) : string :=
join "|" (map fallbackParam params).

Definition getCacheKeyForParams (params : list Value) : string :=
match JSON_stringify params with
| Text s => s
| _ => fallbackKey params
end.

(** ** [JSON.parse]

  Two passes, both by recursion on their input: a lexer from code units
  to tokens and a stack machine over the tokens. Number literals are the
  integer ones (a fraction or an exponent is outside the number model and
  is rejected); a [\u] escape denotes a code unit below 256; the
  properties of an object are kept in textual order. [None] is the
  [SyntaxError]. *)

Inductive Token :=
| TLBracket | TRBracket | TLBrace | TRBrace | TComma | TColon
| TString (s : string)
| TNumber (n : JSNumber)
| TLiteral (v : Value).

Inductive LexState :=
| LIdle
| LString (acc : string)
| LEscape (acc : string)
| LUnicode (acc : string) (remaining : nat) (code : N)
| LMinus
| LZero (neg : bool)
| LDigits (neg : bool) (n : N)
| LWord (expect : string) (v : Value).

Definition isWhitespace (c : ascii) : bool :=
let n := N_of_ascii c in
(n =? 32)%N || (n =? 9)%N || (n =? 10)%N || (n =? 13)%N.

Definition digitValue (c : ascii) : option N :=
let n := N_of_ascii c in
if (48 <=? n)%N && (n <=? 57)%N then Some (n - 48)%N else None.

Definition hexValue (c : ascii) : option N :=
let n := N_of_ascii c in
if (48 <=? n)%N && (n <=? 57)%N then Some (n - 48)%N
else if (97 <=? n)%N && (n <=? 102)%N then Some (n - 87)%N
else if (65 <=? n)%N && (n <=? 70)%N then Some (n - 55)%N
else None.

Definition snoc (s : string) (c : ascii) : string := s +:+ String c "".

Definition numberToken (neg : bool) (n : N) : Token :=
TNumber (if neg then (if (n =? 0)%N then NumNegZero else NumInt (- Z.of_N n))
         else NumInt (Z.of_N n)).

(** One code unit read outside of any token. *)
Definition lexIdle (c : ascii) : option (LexState * list Token) :=
if isWhitespace c then Some (LIdle, [])
else if decide (c = "["%char) then Some (LIdle, [TLBracket])
else if decide (c = "]"%char) then Some (LIdle, [TRBracket])
else if decide (c = "{"%char) then Some (LIdle, [TLBrace])
else if decide (c = "}"%char) then Some (LIdle, [TRBrace])
else if decide (c = ","%char) then Some (LIdle, [TComma])
else if decide (c = ":"%char) then Some (LIdle, [TColon])
else if decide (c = dquote) then Some (LString "", [])
else if decide (c = "-"%char) then Some (LMinus, [])
else if decide (c = "n"%char) then Some (LWord "ull" VNull, [])
else if decide (c = "t"%char) then Some (LWord "rue" (VBool true), [])
else if decide (c = "f"%char) then Some (LWord "alse" (VBool false), [])
else match digitValue c with
     | Some 0%N => Some (LZero false, [])
     | Some d => Some (LDigits false d, [])
     | None => None
     end.

(** The code unit that ends a number literal is read again as the start of
  what follows; a fraction or an exponent is rejected. *)
Definition lexAfterNumber (t : Token) (c : ascii) : option (LexState * list Token) :=
if decide (c = "."%char) then None
else if decide (c = "e"%char) then None
else if decide (c = "E"%char) then None
else match digitValue c with
     | Some _ => None
     | None => prod_map id (cons t) <$> lexIdle c
     end.

Definition lexStep (st : LexState) (c : ascii) : option (LexState * list Token) :=
match st with
| LIdle => lexIdle c
| LString acc =>
    if decide (c = dquote) then Some (LIdle, [TString acc])
    else if decide (c = backslash) then Some (LEscape acc, [])
    else if (N_of_ascii c <? 32)%N then None
    else Some (LString (snoc acc c), [])
| LEscape acc =>
    if decide (c = dquote) then Some (LString (snoc acc dquote), [])
    else if decide (c = backslash) then Some (LString (snoc acc backslash), [])
    else if decide (c = "/"%char) then Some (LString (snoc acc "/"), [])
    else if decide (c = "b"%char) then Some (LString (snoc acc "008"), [])
    else if decide (c = "f"%char) then Some (LString (snoc acc "012"), [])
    else if decide (c = "n"%char) then Some (LString (snoc acc "010"), [])
    else if decide (c = "r"%char) then Some (LString (snoc acc "013"), [])
    else if decide (c = "t"%char) then Some (LString (snoc acc "009"), [])
    else if decide (c = "u"%char) then Some (LUnicode acc 4 0, [])
    else None
| LUnicode acc remaining code =>
    match hexValue c with
    | None => None
    | Some h =>
        let code := (16 * code + h)%N in
        match remaining with
        | 1%nat =>
            if (code <? 256)%N then Some (LString (snoc acc (ascii_of_N code)), [])
            else None
        | _ => Some (LUnicode acc (pred remaining) code, [])
        end
    end
| LMinus =>
    match digitValue c with
    | Some 0%N => Some (LZero true, [])
    | Some d => Some (LDigits true d, [])
    | None => None
    end
| LZero neg => lexAfterNumber (numberToken neg 0) c
| LDigits neg n =>
    match digitValue c with
    | Some d => Some (LDigits neg (10 * n + d), [])
    | None => lexAfterNumber (numberToken neg n) c
    end
| LWord expect v =>
    match expect with
    | String e "" => if decide (c = e) then Some (LIdle, [TLiteral v]) else None
    | String e rest => if decide (c = e) then Some (LWord rest v, []) else None
    | "" => None
    end
end.

Definition lexEnd (st : LexState) : option (list Token) :=
match st with
| LIdle => Some []
| LZero neg => Some [numberToken neg 0]
| LDigits neg n => Some [numberToken neg n]
| _ => None
end.

Fixpoint lex (st : LexState) (s : string) : option (list Token) :=
match s with
| "" => lexEnd st
| String c rest =>
    match lexStep st c with
    | Some (st', out) => app out <$> lex st' rest
    | None => None
    end
end.

(** Containers that wait for the value being read. *)
Inductive Frame :=
| FArray (acc : list Value)
| FObject (acc : list (string * Value)) (key : string).

Inductive ParseState :=
| PStart (stack : list Frame)
| PArrayFirst (stack : list Frame)
| PArrayAfter (acc : list Value) (stack : list Frame)
| PObjectFirst (stack : list Frame)
| PObjectKey (acc : list (string * Value)) (stack : list Frame)
| PObjectColon (acc : list (string * Value)) (key : string) (stack : list Frame)
| PObjectAfter (acc : list (string * Value)) (stack : list Frame)
| PEnd (v : Value).

(** A repeated key keeps its place and takes the later value. *)
Fixpoint setProp (k : string) (v : Value) (props : list (string * Value))
: list (string * Value) :=
match props with
| [] => [(k, v)]
| (k', v') :: rest =>
    if decide (k' = k) then (k, v) :: rest else (k', v') :: setProp k v rest
end.

Definition complete (v : Value) (stack : list Frame) : ParseState :=
match stack with
| [] => PEnd v
| FArray acc :: stack' => PArrayAfter (acc ++ [v]) stack'
| FObject acc key :: stack' => PObjectAfter (setProp key v acc) stack'
end.

Definition parseStart (stack : list Frame) (t : Token) : option ParseState :=
match t with
| TString s => Some (complete (VStr s) stack)
| TNumber n => Some (complete (VNum n) stack)
| TLiteral v => Some (complete v stack)
| TLBracket => Some (PArrayFirst stack)
| TLBrace => Some (PObjectFirst stack)
| _ => None
end.

Definition parseStep (st : ParseState) (t : Token) : option ParseState :=
match st, t with
| PStart stack, _ => parseStart stack t
| PArrayFirst stack, TRBracket => Some (complete (VArray []) stack)
| PArrayFirst stack, _ => parseStart (FArray [] :: stack) t
| PArrayAfter acc stack, TComma => Some (PStart (FArray acc :: stack))
| PArrayAfter acc stack, TRBracket => Some (complete (VArray acc) stack)
| PObjectFirst stack, TRBrace => Some (complete (VObject []) stack)
| PObjectFirst stack, TString k => Some (PObjectColon [] k stack)
| PObjectKey acc stack, TString k => Some (PObjectColon acc k stack)
| PObjectColon acc k stack, TColon => Some (PStart (FObject acc k :: stack))
| PObjectAfter acc stack, TComma => Some (PObjectKey acc stack)
| PObjectAfter acc stack, TRBrace => Some (complete (VObject acc) stack)
| _, _ => None
end.

Fixpoint parseTokens (st : ParseState) (ts : list Token) : option Value :=
match ts with
| [] => match st with PEnd v => Some v | _ => None end
| t :: rest =>
    match parseStep st t with
    | Some st' => parseTokens st' rest
    | None => None
    end
end.

Definition JSON_parse (text : string) : option Value :=
lex LIdle text ≫= parseTokens (PStart []).

End JS.

(** ** The parameterized selector factory *)

Import JS.

(** What the factory sends to the console and to the error reporter. *)
Inductive Effect :=
  | LogMiss (label cacheKey : string) (cacheSize : nat) (isExpired : bool)
  | LogHit (label cacheKey : string) (hits cacheSize : nat)
  | SentryCapture (selectorLabel : option string).

(** Modelled from the spec: the single-state memoizer built by
    [createSelector] of the Redux toolkit, a dependency that is not part of
    the source tree. It closes over one argument tuple, remembers the last
    state it was called with and the result it returned for it, recomputes
    when the state is another one, and keeps the former result when
    [resultEqualityCheck] accepts the recomputed one. A computation that
    throws leaves it as it was. *)
Record MemoizedSelector (State Params Result : Type) := {
  boundParams : Params;
  memo : option (State * Result)
}.
Arguments boundParams {State Params Result} _.
Arguments memo {State Params Result} _.

Record CacheEntry (State Params Result : Type) := {
  selector : MemoizedSelector State Params Result;
  lastUsed : Z;
  created : Z;
  hits : nat;
  misses : nat;
  executionTime : Z
}.
Arguments selector {State Params Result} _.
Arguments lastUsed {State Params Result} _.
Arguments created {State Params Result} _.
Arguments hits {State Params Result} _.
Arguments misses {State Params Result} _.
Arguments executionTime {State Params Result} _.

(** The variables that [createParameterizedSelector] closes over, and the
    trace of what it logged and reported. *)
Record Factory (State Params Result : Type) := {
  selectorCache : gmap string (CacheEntry State Params Result);
  keyUsage : list string;
  totalHits : nat;
  totalMisses : nat;
  totalExecutionTime : Z;
  effects : list Effect
}.
Arguments selectorCache {State Params Result} _.
Arguments keyUsage {State Params Result} _.
Arguments totalHits {State Params Result} _.
Arguments totalMisses {State Params Result} _.
Arguments totalExecutionTime {State Params Result} _.
Arguments effects {State Params Result} _.

Record ParameterizedSelectorOptions (Result : Type) := {
  maxSize : option Z;
  equalityCheck : option (Result → Result → bool);
  debugLabel : option string;
  trackPerformance : option bool;
  logMisses : option bool;
  logHits : option bool;
  expireAfter : option Z
}.
Arguments maxSize {Result} _.
Arguments equalityCheck {Result} _.
Arguments debugLabel {Result} _.
Arguments trackPerformance {Result} _.
Arguments logMisses {Result} _.
Arguments logHits {Result} _.
Arguments expireAfter {Result} _.

(** One invocation [factorySelector(state, ...params)] with the readings
    of the clocks during it: [Date.now()] inside [getOrCreateCacheEntry],
    [performance.now()] inside [computeResult]. [perfStart] is what
    [performance.now()] shows when [computeResult] is entered; the source
    does not read it. *)
Record Invocation (State Params : Type) := {
  state : State;
  params : Params;
  now : Z;
  perfStart : Z;
  perfNow : Z
}.
Arguments state {State Params} _.
Arguments params {State Params} _.
Arguments now {State Params} _.
Arguments perfStart {State Params} _.
Arguments perfNow {State Params} _.

(** The statistics object; the two ratios are kept as numerator and
    denominator. *)
Record EntryStats := {
  es_key : string;
  es_hits : nat;
  es_misses : nat;
  es_lastUsed : Z;
  es_created : Z;
  es_executionTime : Z;
  es_age : Z
}.

Record Stats := {
  cacheSize : nat;
  st_maxSize : option Z;
  st_totalHits : nat;
  st_totalMisses : nat;
  hitRate : nat * nat;
  st_totalExecutionTime : Z;
  averageExecutionTime : Z * nat;
  entries : list EntryStats
}.

(** JavaScript truthiness of an optional flag and of an optional number. *)
Definition truthyFlag (b : option bool) : bool := default false b.
Definition truthyNumber (n : option Z) : bool :=
  match n with Some z => negb (z =? 0) | None => false end.

(** [a > b] where [b] may be [undefined]. *)
Definition greaterThan (a : Z) (b : option Z) : bool :=
  match b with Some z => z <? a | None => false end.

Section ParameterizedSelector.
Context {State Params Result Exn World : Type} `{!EqDecision State}.

(** The argument tuple as the run time sees it. *)
Variable toArgs : Params → list Value.
(** The wrapped selector. *)
Variable selectorFn : State → Params → World → (Exn + Result) * World.
(** [===] on results. *)
Variable strictEquals : Result → Result → bool.

Local Abbreviation Entry := (CacheEntry State Params Result).
Local Abbreviation Cache := (Factory State Params Result).
Local Abbreviation Options := (ParameterizedSelectorOptions Result).
Local Abbreviation Call := (Invocation State Params).

Definition DEFAULT_OPTIONS : Options :=
  {| maxSize := Some 10;
     equalityCheck := Some strictEquals;
     debugLabel := None;
     trackPerformance := Some false;
     logMisses := Some false;
     logHits := Some false;
     expireAfter := None |}.

(** [{ ...defaults, ...options }]: a property of [options] wins. *)
Definition spread (defaults options : Options) : Options :=
  {| maxSize := maxSize options ∪ maxSize defaults;
     equalityCheck := equalityCheck options ∪ equalityCheck defaults;
     debugLabel := debugLabel options ∪ debugLabel defaults;
     trackPerformance := trackPerformance options ∪ trackPerformance defaults;
     logMisses := logMisses options ∪ logMisses defaults;
     logHits := logHits options ∪ logHits defaults;
     expireAfter := expireAfter options ∪ expireAfter defaults |}.

(** The state of a factory right after [createParameterizedSelector]. *)
Definition emptyFactory : Cache :=
  {| selectorCache := ∅; keyUsage := []; totalHits := 0; totalMisses := 0;
     totalExecutionTime := 0; effects := [] |}.

(** The destructured constants of the closure. *)
Variable cfg : Options.

Definition createSelector (ps : Params) : MemoizedSelector State Params Result :=
  {| boundParams := ps; memo := None |}.

Definition callSelector (m : MemoizedSelector State Params Result) (s : State) (w : World)
  : (Exn + Result) * MemoizedSelector State Params Result * World :=
  let recompute (previous : option Result) :=
    match selectorFn s (boundParams m) w with
    | (inl e, w') => (inl e, m, w')
    | (inr r, w') =>
        let r' :=
          match previous, equalityCheck cfg with
          | Some old, Some eq => if eq old r then old else r
          | _, _ => r
          end in
        (inr r', {| boundParams := boundParams m; memo := Some (s, r') |}, w')
    end in
  match memo m with
  | Some (s0, r0) => if decide (s0 = s) then (inr r0, m, w) else recompute (Some r0)
  | None => recompute None
  end.

(** [keyUsage.indexOf(cacheKey)] *)
Definition indexOf (cacheKey : string) (usage : list string) : option nat :=
  fst <$> list_find (λ k, k = cacheKey) usage.

(** The LRU bookkeeping at the head of [getOrCreateCacheEntry] and in
    [invalidateCache]: [splice(keyIndex, 1)] when the key is listed. *)
Definition spliceKey (cacheKey : string) (usage : list string) : list string :=
  match indexOf cacheKey usage with
  | Some keyIndex => delete keyIndex usage
  | None => usage
  end.

Definition label : string := default "ParameterizedSelector" (debugLabel cfg).

Definition sentryReport (args : list Value) : list Effect :=
  match JSON_stringify args with
  | Text _ => []
  | _ => [SentryCapture (debugLabel cfg)]
  end.

Definition newEntry (ps : Params) (t : Z) : Entry :=
  {| selector := createSelector ps; lastUsed := t; created := t;
     hits := 0; misses := 1; executionTime := 0 |}.

Definition hitEntry (e : Entry) (t : Z) : Entry :=
  {| selector := selector e; lastUsed := t; created := created e;
     hits := S (hits e); misses := misses e; executionTime := executionTime e |}.

(** [keyUsage.shift()] and the deletion of the key it returns, when that
    key is truthy. *)
Definition evictOldest (cache : gmap string Entry) (usage : list string)
  : gmap string Entry * list string :=
  match usage with
  | [] => (cache, [])
  | oldestKey :: rest =>
      (if decide (oldestKey = "") then cache else delete oldestKey cache, rest)
  end.

(** [expireAfter && (now - cacheEntry.created > expireAfter)] *)
Definition expired (e : Entry) (t : Z) : bool :=
  truthyNumber (expireAfter cfg) && greaterThan (t - created e) (expireAfter cfg).

(** Returns the key and the entry object; when the key is still in
    [selectorCache] afterwards, the entry stored there is that object. *)
Definition getOrCreateCacheEntry (ps : Params) (t : Z) (f : Cache)
  : string * Entry * Cache :=
  let cacheKey := getCacheKeyForParams (toArgs ps) in
  let reported := effects f ++ sentryReport (toArgs ps) in
  let usage := spliceKey cacheKey (keyUsage f) ++ [cacheKey] in
  let found := selectorCache f !! cacheKey in
  let isExpired :=
    match found with
    | Some e => expired e t
    | None => false
    end in
  let cache := if isExpired then delete cacheKey (selectorCache f) else selectorCache f in
  match (if isExpired then None else found) with
  | None =>
      let cacheEntry := newEntry ps t in
      let cache := <[cacheKey := cacheEntry]> cache in
      let '(cache, usage) :=
        if greaterThan (Z.of_nat (size cache)) (maxSize cfg)
        then evictOldest cache usage
        else (cache, usage) in
      let logged :=
        if truthyFlag (logMisses cfg)
        then [LogMiss label cacheKey (size cache) isExpired] else [] in
      (cacheKey, cacheEntry,
       {| selectorCache := cache; keyUsage := usage;
          totalHits := totalHits f; totalMisses := S (totalMisses f);
          totalExecutionTime := totalExecutionTime f;
          effects := reported ++ logged |})
  | Some e =>
      let cacheEntry := hitEntry e t in
      let cache := <[cacheKey := cacheEntry]> cache in
      let logged :=
        if truthyFlag (logHits cfg)
        then [LogHit label cacheKey (hits cacheEntry) (size cache)] else [] in
      (cacheKey, cacheEntry,
       {| selectorCache := cache; keyUsage := usage;
          totalHits := S (totalHits f); totalMisses := totalMisses f;
          totalExecutionTime := totalExecutionTime f;
          effects := reported ++ logged |})
  end.

(** The entry object is mutated in place: the store sees the change when
    it still holds the object under [cacheKey]. *)
Definition writeBack (cacheKey : string) (e : Entry) (cache : gmap string Entry)
  : gmap string Entry :=
  match cache !! cacheKey with
  | Some _ => <[cacheKey := e]> cache
  | None => cache
  end.

Definition computeResult (s : State) (cacheKey : string) (cacheEntry : Entry)
    (perf : Z) (f : Cache) (w : World) : (Exn + Result) * Cache * World :=
  match callSelector (selector cacheEntry) s w with
  | (inl e, _, w') => (inl e, f, w')
  | (inr result, sel', w') =>
      let elapsed :=
        if truthyFlag (trackPerformance cfg)
        then perf - executionTime cacheEntry else 0 in
      let cacheEntry' :=
        {| selector := sel'; lastUsed := lastUsed cacheEntry;
           created := created cacheEntry; hits := hits cacheEntry;
           misses := misses cacheEntry;
           executionTime := executionTime cacheEntry + elapsed |} in
      (inr result,
       {| selectorCache := writeBack cacheKey cacheEntry' (selectorCache f);
          keyUsage := keyUsage f; totalHits := totalHits f;
          totalMisses := totalMisses f;
          totalExecutionTime := totalExecutionTime f + elapsed;
          effects := effects f |},
       w')
  end.

Definition factorySelector (c : Call) (f : Cache) (w : World)
  : (Exn + Result) * Cache * World :=
  let '(cacheKey, cacheEntry, f') := getOrCreateCacheEntry (params c) (now c) f in
  computeResult (state c) cacheKey cacheEntry (perfNow c) f' w.

Definition clearCache (f : Cache) : Cache :=
  {| selectorCache := ∅; keyUsage := [];
     totalHits := totalHits f; totalMisses := totalMisses f;
     totalExecutionTime := totalExecutionTime f; effects := effects f |}.

Definition getStats (t : Z) (f : Cache) : Stats :=
  {| cacheSize := size (selectorCache f);
     st_maxSize := maxSize cfg;
     st_totalHits := totalHits f;
     st_totalMisses := totalMisses f;
     hitRate := (totalHits f, Nat.max 1 (totalHits f + totalMisses f));
     st_totalExecutionTime := totalExecutionTime f;
     averageExecutionTime :=
       (totalExecutionTime f, Nat.max 1 (totalHits f + totalMisses f));
     entries :=
       map (λ ke, {| es_key := ke.1; es_hits := hits ke.2; es_misses := misses ke.2;
                     es_lastUsed := lastUsed ke.2; es_created := created ke.2;
                     es_executionTime := executionTime ke.2;
                     es_age := t - created ke.2 |})
           (map_to_list (selectorCache f)) |}.

(** The test of one stored key in [invalidateCache]: [JSON.parse] and the
    predicate run inside one [try]; an exception of either skips the key.
    A predicate is a function of the decoded value that may throw. *)
Definition matches (predicate : Value → option bool) (key : string) : bool :=
  match JSON_parse key with
  | Some decoded => default false (predicate decoded)
  | None => false
  end.

Definition removeKey (key : string) (f : Cache) : Cache :=
  {| selectorCache := delete key (selectorCache f);
     keyUsage := spliceKey key (keyUsage f);
     totalHits := totalHits f; totalMisses := totalMisses f;
     totalExecutionTime := totalExecutionTime f; effects := effects f |}.

Definition keysToRemove (predicate : Value → option bool) (f : Cache) : list string :=
  filter (λ key, matches predicate key = true) (map_to_list (selectorCache f)).*1.

(** Returns the number of removed keys, or nothing without a predicate. *)
Definition invalidateCache (predicate : option (Value → option bool)) (f : Cache)
  : option nat * Cache :=
  match predicate with
  | None => (None, clearCache f)
  | Some p =>
      let keys := keysToRemove p f in
      (Some (length keys), foldl (λ f key, removeKey key f) f keys)
  end.

(** What a client can do with a factory, and a sequence of it. *)
Inductive Operation :=
  | Invoke (c : Call)
  | ClearCache
  | InvalidateCache (predicate : option (Value → option bool)).

Definition perform (fw : Cache * World) (op : Operation) : Cache * World :=
  match op with
  | Invoke c => let '(_, f', w') := factorySelector c fw.1 fw.2 in (f', w')
  | ClearCache => (clearCache fw.1, fw.2)
  | InvalidateCache predicate => ((invalidateCache predicate fw.1).2, fw.2)
  end.

Definition performAll (ops : list Operation) (fw : Cache * World) : Cache * World :=
  foldl perform fw ops.

End ParameterizedSelector.

(** ** The pagination selector *)

Record Pagination := {
  totalItems : Z;
  totalPages : Z;
  currentPage : Z;
  pageSize : Z;
  hasNextPage : bool;
  hasPreviousPage : bool
}.

Record Page (T : Type) := {
  items : list T;
  pagination : Pagination
}.
Arguments items {T} _.
Arguments pagination {T} _.

(** [Math.ceil(a / b)] on integers, for a divisor that is not zero. *)
Definition Math_ceil_div (a b : Z) : Z := - ((- a) / b).

(** [Array.prototype.slice(start, end)] with integer bounds. *)
Definition Array_slice {T} (array : list T) (first final : Z) : list T :=
  let len := Z.of_nat (length array) in
  let k := if first <? 0 then Z.max (len + first) 0 else Z.min first len in
  let e := if final <? 0 then Z.max (len + final) 0 else Z.min final len in
  take (Z.to_nat (e - k)) (drop (Z.to_nat k) array).

(** The body of the selector that [createPaginationSelector] wraps, for an
    integer [page] and an integer [pageSize] other than zero. *)
Definition paginate {T} (array : list T) (page size : Z) : Page T :=
  let totalItems := Z.of_nat (length array) in
  let totalPages := Math_ceil_div totalItems size in
  let normalizedPage := Z.max 0 (Z.min page (totalPages - 1)) in
  let first := normalizedPage * size in
  let final := first + size in
  {| items := Array_slice array first final;
     pagination :=
       {| totalItems := totalItems;
          totalPages := totalPages;
          currentPage := normalizedPage;
          pageSize := size;
          hasNextPage := normalizedPage <? totalPages - 1;
          hasPreviousPage := 0 <? normalizedPage |} |}.

Section PaginationSelector.
Context {State T Exn World : Type}.
Variable arraySelector : State → list T.





End PaginationSelector.

(** ** The fixture of the test suite (selectorUtils.test.ts)

    [mockState.items], the selector of the invalidation test
    [(state, id) => state.items.find(item => item.id === id)] and its
    predicate [(params) => params[0] > 1], read on the decoded tuples of
    numeric arguments. The remaining fields of [mockState] are not read by
    the selectors under test. *)
Module TestFixture.

Definition Item : Type := Z * string.
Definition TestState : Type := list Item.

Definition mockState : TestState := [(1, "one"); (2, "two"); (3, "three")].

Definition findItem (s : TestState) (ps : list Value) (w : unit)
  : (unit + option Item) * unit :=
  (inr match ps with
       | VNum (NumInt id) :: _ => List.find (λ item, item.1 =? id) s
       | _ => None
       end, w).

Definition firstParamAboveOne (decoded : Value) : option bool :=
  match decoded with
  | VNull | VUndefined => None
  | VArray (VNum (NumInt z) :: _) => Some (1 <? z)
  | VArray (VNum NumPosInf :: _) => Some true
  | _ => Some false
  end.

Definition strictEquals (a b : option Item) : bool := bool_decide (a = b).

Definition noOptions : ParameterizedSelectorOptions (option Item) :=
  {| maxSize := None; equalityCheck := None; debugLabel := None;
     trackPerformance := None; logMisses := None; logHits := None;
     expireAfter := None |}.

(** [createParameterizedSelector(selector, options)] *)
Definition configure (options : ParameterizedSelectorOptions (option Item))
  : ParameterizedSelectorOptions (option Item) :=
  spread (DEFAULT_OPTIONS strictEquals) options.

Definition withMaxSize (m : Z) : ParameterizedSelectorOptions (option Item) :=
  {| maxSize := Some m; equalityCheck := None; debugLabel := None;
     trackPerformance := None; logMisses := None; logHits := None;
     expireAfter := None |}.

Definition withExpireAfter (T : Z) : ParameterizedSelectorOptions (option Item) :=
  {| maxSize := None; equalityCheck := None; debugLabel := None;
     trackPerformance := None; logMisses := None; logHits := None;
     expireAfter := Some T |}.

Definition withPerformance : ParameterizedSelectorOptions (option Item) :=
  {| maxSize := None; equalityCheck := None; debugLabel := None;
     trackPerformance := Some true; logMisses := None; logHits := None;
     expireAfter := None |}.

(** [selector(mockState, id)] at clock reading [t]. *)
Definition select (id : Z) (t : Z) : Invocation TestState (list Value) :=
  {| state := mockState; params := [VNum (NumInt id)]; now := t;
     perfStart := t; perfNow := t |}.

(** A selector that throws. *)
Definition failing (s : TestState) (ps : list Value) (w : unit)
  : (unit + option Item) * unit := (inl tt, w).

(** The selector of the invalidation test as a function of the state and
    of the arguments alone. *)
Definition findItemPure (s : TestState) (ps : list Value) : unit + option Item :=
  inr match ps with
      | VNum (NumInt id) :: _ => List.find (λ item, item.1 =? id) s
      | _ => None
      end.

End TestFixture.

(** ** Vocabulary of the properties *)

(** The store is consistent: the LRU list has no duplicates, lists exactly
    the keys of the mapping, and no key is the empty string. *)
Definition consistent {E} (cache : gmap string E) (usage : list string) : Prop :=
  NoDup usage ∧ (∀ k, k ∈ usage ↔ is_Some (cache !! k)) ∧ "" ∉ usage.

Definition StoreInv {State Params Result} (f : Factory State Params Result) : Prop :=
  consistent (selectorCache f) (keyUsage f).

(** The size of the store does not exceed the configured [maxSize]. *)
Definition withinCapacity {State Params Result}
    (cfg : ParameterizedSelectorOptions Result) (f : Factory State Params Result) : Prop :=
  ∃ m, maxSize cfg = Some m ∧ Z.of_nat (size (selectorCache f)) ≤ m.

(** The miss branch of [getOrCreateCacheEntry] runs for a key that is absent
    or whose entry has expired. *)
Definition missing {State Params Result}
    (cfg : ParameterizedSelectorOptions Result) (f : Factory State Params Result)
    (cacheKey : string) (t : Z) : Prop :=
  match selectorCache f !! cacheKey with
  | Some e => expired cfg e t = true
  | None => True
  end.


(** A selector that neither reads nor changes the world: a function of the
    state and of the arguments that returns or throws. *)
Definition pureSelector {State Params Result Exn World : Type}
    (sel : State → Params → Exn + Result)
  : State → Params → World → (Exn + Result) * World :=
  λ s ps w, (sel s ps, w).

(** What a memoizer remembers is what the selector returns for the
    remembered state and the bound arguments. *)
Definition memoSound {State Params Result Exn : Type}
    (sel : State → Params → Exn + Result)
    (m : MemoizedSelector State Params Result) : Prop :=
  ∀ s r, memo m = Some (s, r) → sel s (boundParams m) = inr r.

(** Every stored entry was created for arguments whose key is the key it is
    stored under, has one miss, and has a sound memoizer. *)
Definition entriesSound {State Params Result Exn : Type}
    (toArgs : Params → list Value) (sel : State → Params → Exn + Result)
    (f : Factory State Params Result) : Prop :=
  ∀ k e, selectorCache f !! k = Some e →
    getCacheKeyForParams (toArgs (boundParams (selector e))) = k
    ∧ misses e = 1%nat
    ∧ memoSound sel (selector e).

(** The calls of the selector among a sequence of operations. *)
Definition invocations {State Params : Type} (ops : list (@Operation State Params))
  : list (Invocation State Params) :=
  omap (λ op, match op with Invoke c => Some c | _ => None end) ops.

(** Every stored entry was created for arguments whose key is the key it is
    stored under, has exactly one miss, and no more hits than the factory. *)
Definition entriesKeyed {State Params Result : Type}
    (toArgs : Params → list Value) (f : Factory State Params Result) : Prop :=
  ∀ k e, selectorCache f !! k = Some e →
    getCacheKeyForParams (toArgs (boundParams (selector e))) = k
    ∧ misses e = 1%nat
    ∧ (hits e ≤ totalHits f)%nat.

(** ** Vocabulary of the key encoding *)

(** The arguments that [JSON.stringify] writes and [JSON.parse] reads back
    unchanged: [null], the booleans, the strings and the integer numbers. *)
Definition exactPrimitive (v : Value) : bool :=
  match v with
  | VNull | VBool _ | VStr _ | VNum (NumInt _) => true
  | _ => false
  end.

(** The text of one element of a serialized array. *)
Definition elementText (v : Value) : string :=
  match SerializeJSONProperty v with
  | Text s => s
  | _ => "null"
  end.

(** The token of an exact primitive, and the tokens of the elements of an
    array of them. *)
Definition tokenOf (v : Value) : Token :=
  match v with
  | VStr s => TString s
  | VNum n => TNumber n
  | _ => TLiteral v
  end.

Fixpoint elementTokens (l : list Value) : list Token :=
  match l with
  | [] => []
  | [v] => [tokenOf v]
  | v :: rest => tokenOf v :: TComma :: elementTokens rest
  end.

(** What [JSON.stringify] makes of an argument that it cannot represent:
    [undefined], a symbol, [NaN] and the infinities become [null], and
    [-0] becomes [0]. *)
Definition asSerialized (v : Value) : Value :=
  match v with
  | VUndefined | VSymbol _ => VNull
  | VNum NumNaN | VNum NumPosInf | VNum NumNegInf => VNull
  | VNum NumNegZero => VNum (NumInt 0)
  | _ => v
  end.

(** In an array of primitives a number literal ends at the comma or at the
    closing bracket. *)
Definition delimiter (d : ascii) : Prop := d = ","%char ∨ d = "]"%char.

(** ** dateUtils.ts

    Timestamps are whole numbers of milliseconds. The formatting functions
    that go through the locale of the host ([toLocaleDateString],
    [toISOString], date-fns) are not modelled. *)
Module DateUtils.

(** [TIME_UNITS], in seconds. *)
Definition SECOND : Z := 1.
Definition MINUTE : Z := 60.
Definition HOUR : Z := 3600.
Definition DAY : Z := 86400.
Definition MONTH : Z := 2592000.
Definition YEAR : Z := 31536000.

(** [Result<T>]: the value, or the message of the error that was caught. *)
Inductive Result (T : Type) :=
  | Success (value : T)
  | Failure (message : string).
Arguments Success {T} _.
Arguments Failure {T} _.

(** [withErrorHandling(operation, fallback)]: the operation has returned a
    value or has thrown an [Error] with a message. The fallback is not
    used by the source. *)
Definition withErrorHandling {T} (operation : string + T) (fallback : T) : Result T :=
  match operation with
  | inr result => Success result
  | inl message => Failure message
  end.

(** [isTimestamp(value)] *)
Definition isTimestamp (value : Value) : bool :=
  match value with
  | VNum n => isFinite n
  | _ => false
  end.

(** [toTimestamp(value)]: [None] is the thrown error. *)
Definition toTimestamp (value : JSNumber) : option JSNumber :=
  if isFinite value then Some value else None.

(** The units of [formatRelativeTime], largest first. *)
Definition units : list (Z * string) :=
  [(YEAR, "year"); (MONTH, "month"); (DAY, "day");
   (HOUR, "hour"); (MINUTE, "minute"); (SECOND, "second")].

(** The loop of [formatRelativeTime] over the remaining units. *)
Fixpoint formatRelativeTime_from (remaining : list (Z * string)) (diffInSeconds : Z)
  : string :=
  match remaining with
  | [] => "just now"
  | (value, label) :: rest =>
      if value <=? diffInSeconds then
        let count := diffInSeconds / value in
        pretty count +:+ " " +:+ label +:+ (if count =? 1 then "" else "s") +:+ " ago"
      else formatRelativeTime_from rest diffInSeconds
  end.

Definition formatRelativeTime (diffInSeconds : Z) : string :=
  formatRelativeTime_from units diffInSeconds.

(** [validateTimestamp]: [new Date(timestamp)] is a valid date when the
    time value is within 8.64e15 milliseconds of the epoch. *)
Definition validateTimestamp (timestamp : Z) : bool :=
  Z.abs timestamp <=? 8640000000000000.


(** [dateUtils.relativeTime(timestamp)], with the reading of [Date.now()]. *)
Definition relativeTime (now timestamp : Z) : string :=
  let result :=
    withErrorHandling
      (if negb (validateTimestamp timestamp) then inl "Invalid timestamp"
       else inr (formatRelativeTime ((now - timestamp) / 1000)))
      "Invalid Time" in
  match result with
  | Success value => value
  | Failure message => message
  end.



End DateUtils.

(** The primitive arguments other than BigInt. *)
Definition plainPrimitive (v : Value) : bool :=
  match v with
  | VUndefined | VNull | VBool _ | VNum _ | VStr _ | VSymbol _ => true
  | _ => false
  end.


(** Two factories hold the same store and the same counters; what they
    logged or reported may differ. *)
Definition sameStore {State Params Result : Type}
    (f1 f2 : Factory State Params Result) : Prop :=
  selectorCache f1 = selectorCache f2 ∧ keyUsage f1 = keyUsage f2
  ∧ totalHits f1 = totalHits f2 ∧ totalMisses f1 = totalMisses f2
  ∧ totalExecutionTime f1 = totalExecutionTime f2.

(** Two configurations differ at most in [debugLabel], [logMisses] and
    [logHits]. *)
Definition sameBehaviour {Result : Type}
    (cfg1 cfg2 : ParameterizedSelectorOptions Result) : Prop :=
  maxSize cfg1 = maxSize cfg2 ∧ equalityCheck cfg1 = equalityCheck cfg2
  ∧ trackPerformance cfg1 = trackPerformance cfg2
  ∧ expireAfter cfg1 = expireAfter cfg2.

(** ** The tracked selector *)

(** [createTrackedSelector] hands its combiner, wrapped, to [createSelector].
    The memoizing library decides when the wrapper runs; when it does, it
    passes the values of the [dependencies] at the state of the call. The
    model is the closure of [createTrackedSelector], the wrapper, and the
    two methods; a run of the wrapper is an operation. *)
Module TrackedSelector.

Record Options := {
  debugLabel : option string;
  trackPerformance : option bool;
  trackDependencyChanges : option bool;
}.

(** [console.warn] of a slow execution. *)
Inductive Warning :=
  | SlowExecution (label : string) (executionTime : Z).

Record Closure (Dep : Type) := {
  lastDeps : option (list Dep);
  changedDeps : list Z;
  executionCount : nat;
  totalExecutionTime : Z;
  warnings : list Warning;
}.
Arguments lastDeps {Dep} _.
Arguments changedDeps {Dep} _.
Arguments executionCount {Dep} _.
Arguments totalExecutionTime {Dep} _.
Arguments warnings {Dep} _.

(** [averageExecutionTime] is the quotient of the two components. *)
Record Stats := {
  st_executionCount : nat;
  st_totalExecutionTime : Z;
  averageExecutionTime : Z * nat;
  lastChangedDependencies : list Z;
  dependencyCount : nat;
}.

(** A string is truthy when it is not empty. *)
Definition truthyString (s : option string) : option string :=
  match s with
  | Some label => if decide (label = "") then None else Some label
  | None => None
  end.

Section Tracked.
Context {State Dep Result Exn World : Type}.

(** [===] on dependency values, and [undefined]. *)
Variable strictEquals : Dep → Dep → bool.
Variable undefined : Dep.

Variable dependencies : list (State → Dep).
Variable combiner : list Dep → World → (Exn + Result) * World.
Variable options : Options.

Definition initial : Closure Dep :=
  {| lastDeps := None; changedDeps := []; executionCount := 0;
     totalExecutionTime := 0; warnings := [] |}.

(** [deps.map((dep, i) => dep !== lastDeps[i] ? i : -1).filter(i => i !== -1)] *)
Definition changedPositions (deps last : list Dep) : list Z :=
  filter (λ i, i ≠ -1)
    (imap (λ i dep, if strictEquals dep (nth i last undefined) then -1 else Z.of_nat i)
       deps).

(** The function handed to [createSelector]; [startReading] and
    [endReading] are what [performance.now()] returns before and after the
    combiner, when it is asked. *)
Definition resultFunc (deps : list Dep) (startReading endReading : Z)
    (t : Closure Dep) (w : World) : (Exn + Result) * Closure Dep * World :=
  let startTime := if truthyFlag (trackPerformance options) then startReading else 0 in
  let changed :=
    match lastDeps t with
    | Some last =>
        if truthyFlag (trackDependencyChanges options)
        then changedPositions deps last else changedDeps t
    | None => changedDeps t
    end in
  match combiner deps w with
  | (inl e, w') =>
      (inl e,
       {| lastDeps := Some deps; changedDeps := changed;
          executionCount := S (executionCount t);
          totalExecutionTime := totalExecutionTime t; warnings := warnings t |},
       w')
  | (inr result, w') =>
      let executionTime := endReading - startTime in
      let tracked := truthyFlag (trackPerformance options) in
      let warned :=
        match truthyString (debugLabel options) with
        | Some label =>
            if tracked && (5 <? executionTime)
            then [SlowExecution label executionTime] else []
        | None => []
        end in
      (inr result,
       {| lastDeps := Some deps; changedDeps := changed;
          executionCount := S (executionCount t);
          totalExecutionTime :=
            if tracked then totalExecutionTime t + executionTime
            else totalExecutionTime t;
          warnings := warnings t ++ warned |},
       w')
  end.

Definition getStats (t : Closure Dep) : Stats :=
  {| st_executionCount := executionCount t;
     st_totalExecutionTime := totalExecutionTime t;
     averageExecutionTime := (totalExecutionTime t, Nat.max 1 (executionCount t));
     lastChangedDependencies := changedDeps t;
     dependencyCount := length dependencies |}.

Definition resetStats (t : Closure Dep) : Closure Dep :=
  {| lastDeps := lastDeps t; changedDeps := []; executionCount := 0;
     totalExecutionTime := 0; warnings := warnings t |}.

(** What happens to the closure: the library runs the wrapper for a state,
    or a client resets the statistics. *)
Inductive Operation :=
  | Run (s : State) (startReading endReading : Z)
  | ResetStats.

Definition perform (tw : Closure Dep * World) (op : Operation) : Closure Dep * World :=
  match op with
  | Run s startReading endReading =>
      let deps := (λ dependency, dependency s) <$> dependencies in
      let '(_, t', w') := resultFunc deps startReading endReading tw.1 tw.2 in
      (t', w')
  | ResetStats => (resetStats tw.1, tw.2)
  end.

Definition performAll (ops : list Operation) (tw : Closure Dep * World)
  : Closure Dep * World :=
  foldl perform tw ops.

(** The runs since the last [resetStats]. *)
Definition sinceReset (ops : list Operation) : list (State * Z * Z) :=
  foldl (λ runs op,
           match op with
           | Run s startReading endReading => runs ++ [(s, startReading, endReading)]
           | ResetStats => []
           end) [] ops.

(** The state of the last run, if any. *)
Definition lastRun (ops : list Operation) : option State :=
  last (omap (λ op, match op with Run s _ _ => Some s | ResetStats => None end) ops).

End Tracked.

(** The sum of [endReading - startReading] over runs. *)
Definition durations {State : Type} (runs : list (State * Z * Z)) : Z :=
  foldr (λ run total, (run.2 - run.1.2) + total) 0 runs.

End TrackedSelector.

(** * Properties *)

Local Arguments String.append : simpl nomatch.

(** ** Properties of the LRU list *)

Section KeyUsage.
Implicit Types (k x : string) (l : list string).

Lemma spliceKey_cons k x l :
  spliceKey k (x :: l) = if decide (x = k) then l else x :: spliceKey k l.
Proof.
  unfold spliceKey, indexOf. simpl.
  destruct (decide (x = k)) as [->|Hne]; simpl; [done|].
  destruct (list_find (λ k0, k0 = k) l) as [[i y]|]; done.
Qed.

Lemma spliceKey_nil k : spliceKey k [] = [].
Proof. done. Qed.

Lemma spliceKey_absent k l : k ∉ l → spliceKey k l = l.
Proof.
  induction l as [|x l IH]; [done|].
  rewrite not_elem_of_cons, spliceKey_cons. intros [Hne Hl].
  rewrite decide_False by done. by rewrite IH.
Qed.

Lemma spliceKey_filter k l :
  NoDup l → spliceKey k l = filter (λ x, x ≠ k) l.
Proof.
  induction 1 as [|x l Hx Hl IH]; [done|].
  rewrite spliceKey_cons. destruct (decide (x = k)) as [->|Hne].
  - rewrite filter_cons_False by (intros H; by apply H).
    rewrite <- (spliceKey_absent k l) at 1 by done. done.
  - rewrite filter_cons_True by done. by rewrite IH.
Qed.

Lemma elem_of_spliceKey k x l :
  NoDup l → x ∈ spliceKey k l ↔ x ∈ l ∧ x ≠ k.
Proof. intros Hl. rewrite spliceKey_filter by done. rewrite list_elem_of_filter. tauto. Qed.

Lemma NoDup_spliceKey k l : NoDup l → NoDup (spliceKey k l).
Proof. intros Hl. rewrite spliceKey_filter by done. by apply NoDup_filter. Qed.

Lemma NoDup_touch k l : NoDup l → NoDup (spliceKey k l ++ [k]).
Proof.
  intros Hl. apply NoDup_app. split_and!.
  - by apply NoDup_spliceKey.
  - intros x Hx%elem_of_spliceKey; [|done]. rewrite list_elem_of_singleton. tauto.
  - apply NoDup_singleton.
Qed.

Lemma elem_of_touch k x l :
  NoDup l → x ∈ spliceKey k l ++ [k] ↔ x ∈ l ∨ x = k.
Proof.
  intros Hl. rewrite elem_of_app, elem_of_spliceKey, list_elem_of_singleton by done.
  destruct (decide (x = k)); tauto.
Qed.
Lemma filter_all {A} (P : A → Prop) `{!∀ a, Decision (P a)} (xs : list A) :
  (∀ a, a ∈ xs → P a) → filter P xs = xs.
Proof.
  induction xs as [|b xs IH]; intros Hall; [done|].
  rewrite filter_cons_True by (apply Hall; left).
  f_equal. apply IH. intros y Hy. apply Hall. by right.
Qed.
End KeyUsage.

(** ** Shape of the cache keys *)

Section KeyShape.

Lemma pretty_N_go_nonempty x s : s ≠ "" → pretty_N_go x s ≠ "".
Proof.
  revert s. induction (N.lt_wf_0 x) as [x _ IH]; intros s Hs.
  assert (x = 0 ∨ 0 < x)%N as [->|Hx] by lia.
  - by rewrite pretty_N_go_0.
  - rewrite pretty_N_go_step by done. apply IH; [by apply N.div_lt|done].
Qed.

Lemma pretty_N_nonempty (x : N) : pretty x ≠ "".
Proof.
  unfold pretty, pretty_N. case_decide; [done|].
  rewrite pretty_N_go_step by lia. by apply pretty_N_go_nonempty.
Qed.

Lemma pretty_Z_nonempty (z : Z) : pretty z ≠ "".
Proof.
  destruct z as [|p|p]; [done| |done].
  apply (pretty_N_nonempty (N.pos p)).
Qed.

Lemma Number_toString_nonempty n : Number_toString n ≠ "".
Proof. destruct n; simpl; try done. apply pretty_Z_nonempty. Qed.

Lemma append_nonempty_l s1 s2 : s1 ≠ "" → s1 +:+ s2 ≠ "".
Proof. by destruct s1. Qed.

Lemma join_two_nonempty sep s1 s2 l : sep ≠ "" → join sep (s1 :: s2 :: l) ≠ "".
Proof.
  intros Hsep. change (join sep (s1 :: s2 :: l)) with (s1 +:+ sep +:+ join sep (s2 :: l)).
  destruct s1; [|done]. simpl. by apply append_nonempty_l.
Qed.

(** A single argument on which [JSON.stringify] throws has a fallback
    text that is not empty. *)
Lemma fallbackParam_nonempty v :
  SerializeJSONProperty v = Throws → fallbackParam v ≠ "".
Proof.
  destruct v; simpl; try done.
  intros _. apply pretty_Z_nonempty.
Qed.

Lemma SerializeJSONArray_Text l s :
  SerializeJSONArray l = Text s → ∃ body, s = String "[" body.
Proof.
  unfold SerializeJSONArray. destruct (arrayElements l); [|done].
  intros [= <-]. by eexists.
Qed.

Lemma SerializeJSONArray_not_Omitted l : SerializeJSONArray l ≠ Omitted.
Proof. unfold SerializeJSONArray. by destruct (arrayElements l). Qed.

Lemma SerializeJSONArray_Throws l :
  SerializeJSONArray l = Throws → Throws ∈ l.
Proof.
  unfold SerializeJSONArray. induction l as [|[| |s] l IH]; simpl.
  - done.
  - intros _. left.
  - destruct (arrayElements l); simpl; [done|]. intros _. right. by apply IH.
  - destruct (arrayElements l); simpl; [done|]. intros _. right. by apply IH.
Qed.

Theorem getCacheKeyForParams_nonempty args : getCacheKeyForParams args ≠ "".
Proof.
  unfold getCacheKeyForParams, JSON_stringify. simpl.
  destruct (SerializeJSONArray (map SerializeJSONProperty args)) as [| |s] eqn:E.
  - apply SerializeJSONArray_Throws in E.
    apply list_elem_of_fmap in E as (v & Hv & Hin).
    unfold fallbackKey. destruct args as [|v1 [|v2 args]].
    + by apply elem_of_nil in Hin.
    + apply list_elem_of_singleton in Hin as ->. simpl.
      by apply fallbackParam_nonempty.
    + by apply join_two_nonempty.
  - by apply SerializeJSONArray_not_Omitted in E.
  - apply SerializeJSONArray_Text in E as [body ->]. done.
Qed.
End KeyShape.

(** ** The entry store *)

Section CacheProperties.
Context {State Params Result Exn World : Type} `{!EqDecision State}.
Variable toArgs : Params → list Value.
Variable selectorFn : State → Params → World → (Exn + Result) * World.
Variable cfg : ParameterizedSelectorOptions Result.

Local Abbreviation Entry := (CacheEntry State Params Result).
Local Abbreviation Cache := (Factory State Params Result).
Local Abbreviation keyOf ps := (getCacheKeyForParams (toArgs ps)).
Local Abbreviation lookupOrCreate := (getOrCreateCacheEntry toArgs cfg).

Local Ltac case_evict :=
  repeat match goal with
  | |- context [greaterThan ?a ?b] => destruct (greaterThan a b)
  | |- context [evictOldest ?a ?b] => destruct (evictOldest a b)
  end.

Implicit Types (f : Cache) (e : Entry) (ps : Params) (t : Z) (k : string).

(** *** [getOrCreateCacheEntry], case by case *)

Lemma getOrCreate_key ps t f : (lookupOrCreate ps t f).1.1 = keyOf ps.
Proof.
  unfold getOrCreateCacheEntry.
  destruct (selectorCache f !! keyOf ps) as [e|]; simpl.
  - destruct (expired cfg e t); simpl; [|done].
    by case_evict.
  - by case_evict.
Qed.

Lemma getOrCreate_hit ps t f e :
  selectorCache f !! keyOf ps = Some e → expired cfg e t = false →
  let r := lookupOrCreate ps t f in
  r.1.2 = hitEntry e t
  ∧ selectorCache r.2 = <[keyOf ps := hitEntry e t]> (selectorCache f)
  ∧ keyUsage r.2 = spliceKey (keyOf ps) (keyUsage f) ++ [keyOf ps]
  ∧ totalHits r.2 = S (totalHits f)
  ∧ totalMisses r.2 = totalMisses f
  ∧ totalExecutionTime r.2 = totalExecutionTime f.
Proof.
  intros Hfound Hfresh. unfold getOrCreateCacheEntry.
  rewrite Hfound, Hfresh. simpl. done.
Qed.

Lemma getOrCreate_miss ps t f :
  missing cfg f (keyOf ps) t →
  let inserted := <[keyOf ps := newEntry ps t]> (selectorCache f) in
  let usage := spliceKey (keyOf ps) (keyUsage f) ++ [keyOf ps] in
  let after :=
    if greaterThan (Z.of_nat (size inserted)) (maxSize cfg)
    then evictOldest inserted usage else (inserted, usage) in
  let r := lookupOrCreate ps t f in
  r.1.2 = newEntry ps t
  ∧ selectorCache r.2 = after.1
  ∧ keyUsage r.2 = after.2
  ∧ totalHits r.2 = totalHits f
  ∧ totalMisses r.2 = S (totalMisses f)
  ∧ totalExecutionTime r.2 = totalExecutionTime f.
Proof.
  unfold missing, getOrCreateCacheEntry. intros Hmiss.
  destruct (selectorCache f !! keyOf ps) as [e|] eqn:Hfound; simpl.
  - rewrite Hmiss. simpl. rewrite insert_delete_eq.
    by case_evict.
  - by case_evict.
Qed.

Lemma hit_or_miss ps t f :
  (∃ e, selectorCache f !! keyOf ps = Some e ∧ expired cfg e t = false)
  ∨ missing cfg f (keyOf ps) t.
Proof.
  unfold missing. destruct (selectorCache f !! keyOf ps) as [e|]; [|by right].
  destruct (expired cfg e t) eqn:E; [by right|left; eauto].
Qed.

(** *** Consistency of mapping and LRU list *)

Lemma consistent_empty : consistent (∅ : gmap string Entry) [].
Proof.
  split_and!; [apply NoDup_nil_2| |apply not_elem_of_nil].
  intros k. rewrite lookup_empty, elem_of_nil. split; [done|by intros [? ?]].
Qed.

Lemma consistent_touch (cache : gmap string Entry) l k e :
  consistent cache l → k ≠ "" →
  consistent (<[k := e]> cache) (spliceKey k l ++ [k]).
Proof.
  intros (Hnd & Hkeys & Hne) Hk. split_and!.
  - by apply NoDup_touch.
  - intros k'. rewrite elem_of_touch, Hkeys, lookup_insert_is_Some by done.
    destruct (decide (k = k')); naive_solver.
  - rewrite elem_of_touch by done. naive_solver.
Qed.

Lemma consistent_update (cache : gmap string Entry) l k e :
  consistent cache l → is_Some (cache !! k) → consistent (<[k := e]> cache) l.
Proof.
  intros (Hnd & Hkeys & Hne) Hk. split_and!; [done| |done].
  intros k'. rewrite Hkeys, lookup_insert_is_Some.
  destruct (decide (k = k')); naive_solver.
Qed.

Lemma consistent_delete (cache : gmap string Entry) l k :
  consistent cache l → consistent (delete k cache) (spliceKey k l).
Proof.
  intros (Hnd & Hkeys & Hne). split_and!.
  - by apply NoDup_spliceKey.
  - intros k'. rewrite elem_of_spliceKey, Hkeys, lookup_delete_is_Some by done.
    naive_solver.
  - rewrite elem_of_spliceKey by done. naive_solver.
Qed.

Lemma consistent_evict (cache : gmap string Entry) l :
  consistent cache l →
  consistent (evictOldest cache l).1 (evictOldest cache l).2.
Proof.
  intros (Hnd & Hkeys & Hne). destruct l as [|oldest rest]; simpl; [done|].
  apply NoDup_cons in Hnd as [Hfresh Hnd].
  rewrite not_elem_of_cons in Hne. destruct Hne as [Hne1 Hne2].
  rewrite decide_False by done. split_and!; [done| |done].
  intros k. rewrite lookup_delete_is_Some, <- Hkeys, elem_of_cons.
  destruct (decide (oldest = k)); naive_solver.
Qed.

Lemma consistent_size (cache : gmap string Entry) l :
  consistent cache l → size cache = length l.
Proof.
  intros (Hnd & Hkeys & _).
  rewrite <- size_dom, <- (size_list_to_set (C := gset string) l) by done.
  f_equal. apply set_eq. intros k.
  by rewrite elem_of_dom, elem_of_list_to_set, Hkeys.
Qed.

(** The evicted key is the head of the LRU list, and it was stored. *)
Lemma evictOldest_head (cache : gmap string Entry) oldest rest :
  consistent cache (oldest :: rest) →
  evictOldest cache (oldest :: rest) = (delete oldest cache, rest)
  ∧ is_Some (cache !! oldest)
  ∧ size (delete oldest cache) = pred (size cache).
Proof.
  intros (Hnd & Hkeys & Hne). rewrite not_elem_of_cons in Hne.
  assert (is_Some (cache !! oldest)) as Hin by (apply Hkeys; left).
  simpl. rewrite decide_False by naive_solver. split_and!; [done..|].
  by apply map_size_delete_Some.
Qed.


(** *** One lookup keeps the store consistent and within capacity *)

Lemma touch_cons k l : ∃ oldest rest, spliceKey k l ++ [k] = oldest :: rest.
Proof. destruct (spliceKey k l); simpl; eauto. Qed.

Lemma getOrCreate_StoreInv ps t f :
  StoreInv f → StoreInv (lookupOrCreate ps t f).2.
Proof.
  unfold StoreInv. intros Hinv.
  pose proof (getCacheKeyForParams_nonempty (toArgs ps)) as Hkey.
  destruct (hit_or_miss ps t f) as [(e & Hfound & Hfresh)|Hmiss].
  - destruct (getOrCreate_hit ps t f e Hfound Hfresh) as (_ & -> & -> & _).
    by apply consistent_touch.
  - destruct (getOrCreate_miss ps t f Hmiss) as (_ & -> & -> & _).
    pose proof (consistent_touch _ _ _ (newEntry ps t) Hinv Hkey) as Hins.
    destruct (greaterThan _ (maxSize cfg)); [|done].
    by apply consistent_evict.
Qed.

Lemma getOrCreate_capacity ps t f :
  StoreInv f → withinCapacity cfg f → withinCapacity cfg (lookupOrCreate ps t f).2.
Proof.
  unfold StoreInv. intros Hinv (m & Hm & Hsize). exists m. split; [done|].
  pose proof (getCacheKeyForParams_nonempty (toArgs ps)) as Hkey.
  destruct (hit_or_miss ps t f) as [(e & Hfound & Hfresh)|Hmiss].
  - destruct (getOrCreate_hit ps t f e Hfound Hfresh) as (_ & -> & _).
    rewrite map_size_insert_Some by eauto. done.
  - destruct (getOrCreate_miss ps t f Hmiss) as (_ & -> & _).
    pose proof (consistent_touch _ _ _ (newEntry ps t) Hinv Hkey) as Hins.
    rewrite Hm. unfold greaterThan.
    destruct (Z.ltb_spec m (Z.of_nat (size (<[keyOf ps:=newEntry ps t]> (selectorCache f)))))
      as [Hover|Hfits]; [|done].
    destruct (touch_cons (keyOf ps) (keyUsage f)) as (oldest & rest & Heq).
    rewrite Heq in Hins |- *.
    destruct (evictOldest_head _ _ _ Hins) as (-> & _ & Hdel). simpl.
    rewrite Hdel. clear Hdel Hins Heq.
    revert Hover. rewrite map_size_insert. destruct (selectorCache f !! keyOf ps); unfold id; lia.
Qed.

(** What one lookup does to the set of stored keys: the key of the call
    is added, and when that makes the store exceed [maxSize] exactly one
    key, the head of the LRU list, is taken out. *)
Lemma getOrCreate_dom ps t f m :
  maxSize cfg = Some m → StoreInv f → Z.of_nat (size (selectorCache f)) ≤ m →
  let k := keyOf ps in
  let stored := dom (selectorCache f) in
  let stored' := dom (selectorCache (lookupOrCreate ps t f).2) in
  (k ∈ stored ∨ Z.of_nat (size (selectorCache f)) < m → stored' = {[k]} ∪ stored)
  ∧ (k ∉ stored → Z.of_nat (size (selectorCache f)) = m →
     ∃ oldest, head (spliceKey k (keyUsage f) ++ [k]) = Some oldest
               ∧ oldest ∈ {[k]} ∪ stored
               ∧ stored' = ({[k]} ∪ stored) ∖ {[oldest]}
               ∧ size stored' = size stored).
Proof.
  unfold StoreInv. intros Hm Hinv Hsize. cbv zeta.
  pose proof (getCacheKeyForParams_nonempty (toArgs ps)) as Hkey.
  destruct (hit_or_miss ps t f) as [(e & Hfound & Hfresh)|Hmiss].
  - destruct (getOrCreate_hit ps t f e Hfound Hfresh) as (_ & -> & _).
    rewrite dom_insert_L. split; [done|].
    intros Habsent. exfalso. apply Habsent, elem_of_dom. eauto.
  - destruct (getOrCreate_miss ps t f Hmiss) as (_ & -> & _).
    pose proof (consistent_touch _ _ _ (newEntry ps t) Hinv Hkey) as Hins.
    rewrite Hm. unfold greaterThan.
    pose proof (map_size_insert (keyOf ps) (newEntry ps t) (selectorCache f)) as Hsz.
    unfold id in Hsz.
    destruct (Z.ltb_spec m (Z.of_nat (size (<[keyOf ps:=newEntry ps t]> (selectorCache f)))))
      as [Hover|Hfits].
    + destruct (touch_cons (keyOf ps) (keyUsage f)) as (oldest & rest & Heq).
      rewrite Heq in Hins |- *.
      destruct (evictOldest_head _ _ _ Hins) as (-> & Hin & Hdel). simpl.
      rewrite dom_delete_L, dom_insert_L. split.
      * intros [Hk%elem_of_dom|Hlt]; exfalso.
        -- destruct Hk as [e He]. rewrite He in Hsz. lia.
        -- destruct (selectorCache f !! keyOf ps); lia.
      * intros Habsent Hfull. exists oldest. split_and!; [done| |done|].
        -- rewrite <- (dom_insert_L _ _ (newEntry ps t)). by apply elem_of_dom.
        -- rewrite <- (dom_insert_L _ _ (newEntry ps t)), <- dom_delete_L, !size_dom, Hdel, Hsz.
           apply not_elem_of_dom in Habsent. by rewrite Habsent.
    + simpl. rewrite dom_insert_L. split; [done|].
      intros Habsent%not_elem_of_dom Hfull. rewrite Habsent in Hsz. lia.
Qed.

(** *** [computeResult] only updates the entry it was given *)

Lemma dom_writeBack k e (cache : gmap string Entry) :
  dom (writeBack k e cache) = dom cache.
Proof.
  unfold writeBack. destruct (cache !! k) eqn:Hk; [|done].
  rewrite dom_insert_L. apply elem_of_dom_2 in Hk. set_solver.
Qed.

Lemma lookup_writeBack_ne k k' e (cache : gmap string Entry) :
  k ≠ k' → writeBack k e cache !! k' = cache !! k'.
Proof.
  intros Hne. unfold writeBack. destruct (cache !! k); [|done].
  by rewrite lookup_insert_ne.
Qed.

Lemma lookup_writeBack k e (cache : gmap string Entry) :
  writeBack k e cache !! k = (λ _, e) <$> cache !! k.
Proof.
  unfold writeBack. destruct (cache !! k) eqn:Hk; simpl; [|done].
  by rewrite lookup_insert_eq.
Qed.

Lemma consistent_writeBack k e (cache : gmap string Entry) l :
  consistent cache l → consistent (writeBack k e cache) l.
Proof.
  intros Hc. unfold writeBack. destruct (cache !! k) eqn:Hk; [|done].
  apply consistent_update; eauto.
Qed.

Lemma computeResult_store s k e perf f w :
  let r := computeResult selectorFn cfg s k e perf f w in
  dom (selectorCache r.1.2) = dom (selectorCache f)
  ∧ keyUsage r.1.2 = keyUsage f
  ∧ totalHits r.1.2 = totalHits f
  ∧ totalMisses r.1.2 = totalMisses f
  ∧ (StoreInv f → StoreInv r.1.2).
Proof.
  unfold computeResult, StoreInv.
  destruct (callSelector selectorFn cfg (selector e) s w) as [[[exn|result] sel'] w']; simpl.
  - done.
  - split_and!; [apply dom_writeBack|done..|apply consistent_writeBack].
Qed.


(** *** Invalidation *)

Lemma clearCache_StoreInv f : StoreInv (clearCache f).
Proof. apply consistent_empty. Qed.

Lemma removeKey_StoreInv k f : StoreInv f → StoreInv (removeKey k f).
Proof. apply consistent_delete. Qed.

Lemma removeKeys_StoreInv ks f :
  StoreInv f → StoreInv (foldl (λ f key, removeKey key f) f ks).
Proof.
  revert f. induction ks as [|k ks IH]; intros f Hf; simpl; [done|].
  by apply IH, removeKey_StoreInv.
Qed.

Lemma removeKeys_lookup ks f k :
  selectorCache (foldl (λ f key, removeKey key f) f ks) !! k
  = if decide (k ∈ ks) then None else selectorCache f !! k.
Proof.
  revert f. induction ks as [|k' ks IH]; intros f; simpl; [done|].
  rewrite IH. simpl. destruct (decide (k ∈ ks)) as [Hin|Hout].
  - rewrite decide_True by (by right). done.
  - destruct (decide (k = k')) as [->|Hne].
    + rewrite decide_True by left. apply lookup_delete_eq.
    + rewrite decide_False by (rewrite elem_of_cons; naive_solver).
      by apply lookup_delete_ne.
Qed.

Lemma removeKeys_usage ks f :
  NoDup (keyUsage f) →
  keyUsage (foldl (λ f key, removeKey key f) f ks)
  = filter (λ k, k ∉ ks) (keyUsage f).
Proof.
  revert f. induction ks as [|k' ks IH]; intros f Hnd; simpl.
  - symmetry. apply filter_all. intros k _. apply not_elem_of_nil.
  - rewrite IH by (by apply NoDup_spliceKey). simpl.
    rewrite spliceKey_filter, list_filter_filter by done.
    apply list_filter_iff. intros k. rewrite not_elem_of_cons. tauto.
Qed.

Lemma removeKeys_counters ks f :
  let f' := foldl (λ f key, removeKey key f) f ks in
  totalHits f' = totalHits f ∧ totalMisses f' = totalMisses f
  ∧ totalExecutionTime f' = totalExecutionTime f ∧ effects f' = effects f.
Proof.
  revert f. induction ks as [|k' ks IH]; intros f; simpl; [done|].
  destruct (IH (removeKey k' f)) as (-> & -> & -> & ->). done.
Qed.

Lemma removeKeys_size ks f :
  (size (selectorCache (foldl (λ f key, removeKey key f) f ks))
   ≤ size (selectorCache f))%nat.
Proof.
  revert f. induction ks as [|k' ks IH]; intros f; simpl; [done|].
  etrans; [apply IH|]. simpl. rewrite map_size_delete.
  destruct (selectorCache f !! k'); unfold id; lia.
Qed.

Lemma invalidateCache_StoreInv predicate f :
  StoreInv f → StoreInv (invalidateCache predicate f).2.
Proof.
  destruct predicate as [p|]; simpl; [apply removeKeys_StoreInv|].
  intros _. apply clearCache_StoreInv.
Qed.

Lemma invalidateCache_capacity predicate f :
  withinCapacity cfg f → withinCapacity cfg (invalidateCache predicate f).2.
Proof.
  intros (m & Hm & Hsize). exists m. split; [done|].
  destruct predicate as [p|]; simpl.
  - pose proof (removeKeys_size (keysToRemove p f) f). lia.
  - rewrite map_size_empty. lia.
Qed.

(** *** Every state that a sequence of operations reaches *)

Lemma factorySelector_store c f w :
  let lookedUp := lookupOrCreate (params c) (now c) f in
  let r := factorySelector toArgs selectorFn cfg c f w in
  dom (selectorCache r.1.2) = dom (selectorCache lookedUp.2)
  ∧ keyUsage r.1.2 = keyUsage lookedUp.2
  ∧ totalHits r.1.2 = totalHits lookedUp.2
  ∧ totalMisses r.1.2 = totalMisses lookedUp.2
  ∧ (StoreInv f → StoreInv r.1.2).
Proof.
  unfold factorySelector. cbv zeta.
  pose proof (getOrCreate_StoreInv (params c) (now c) f) as Hinv.
  destruct (lookupOrCreate (params c) (now c) f) as [[k e] f']. simpl in *.
  destruct (computeResult_store (state c) k e (perfNow c) f' w) as (? & ? & ? & ? & ?).
  split_and!; auto.
Qed.

Lemma factorySelector_capacity c f w :
  StoreInv f → withinCapacity cfg f →
  withinCapacity cfg (factorySelector toArgs selectorFn cfg c f w).1.2.
Proof.
  intros Hinv Hcap.
  destruct (factorySelector_store c f w) as (Hdom & _).
  destruct (getOrCreate_capacity (params c) (now c) f Hinv Hcap) as (m & Hm & Hsize).
  exists m. split; [done|]. by rewrite <- size_dom, Hdom, size_dom.
Qed.

Lemma perform_invariant fw op :
  StoreInv fw.1 ∧ withinCapacity cfg fw.1 →
  StoreInv (perform toArgs selectorFn cfg fw op).1
  ∧ withinCapacity cfg (perform toArgs selectorFn cfg fw op).1.
Proof.
  intros [Hinv Hcap]. destruct op as [c| |predicate]; simpl.
  - pose proof (factorySelector_store c fw.1 fw.2) as (_ & _ & _ & _ & Hinv').
    pose proof (factorySelector_capacity c fw.1 fw.2 Hinv Hcap) as Hcap'.
    destruct (factorySelector toArgs selectorFn cfg c fw.1 fw.2) as [[r f'] w'].
    simpl in *. auto.
  - split; [apply clearCache_StoreInv|].
    destruct Hcap as (m & Hm & Hsize). exists m. split; [done|].
    simpl. rewrite map_size_empty. lia.
  - split; [by apply invalidateCache_StoreInv|by apply invalidateCache_capacity].
Qed.

Lemma performAll_invariant ops fw :
  StoreInv fw.1 ∧ withinCapacity cfg fw.1 →
  StoreInv (performAll toArgs selectorFn cfg ops fw).1
  ∧ withinCapacity cfg (performAll toArgs selectorFn cfg ops fw).1.
Proof.
  unfold performAll. revert fw.
  induction ops as [|op ops IH]; intros fw Hfw; simpl; [done|].
  by apply IH, perform_invariant.
Qed.

Lemma emptyFactory_invariant m :
  maxSize cfg = Some m → 0 ≤ m →
  StoreInv (@emptyFactory State Params Result)
  ∧ withinCapacity cfg (@emptyFactory State Params Result).
Proof.
  intros Hm Hpos. split; [apply consistent_empty|].
  exists m. split; [done|]. simpl. rewrite map_size_empty. lia.
Qed.


(** *** The entry of the key of a call *)

Lemma callSelector_memo sel s w r sel' w' :
  callSelector selectorFn cfg sel s w = (inr r, sel', w') →
  memo sel' = Some (s, r) ∧ boundParams sel' = boundParams sel.
Proof.
  unfold callSelector. destruct (memo sel) as [[s0 r0]|] eqn:Hmemo.
  - destruct (decide (s0 = s)) as [->|Hne].
    + intros [= <- <- <-]. done.
    + destruct (selectorFn s (boundParams sel) w) as [[exn|r1] w1]; [done|].
      intros [= <- <- <-]. done.
  - destruct (selectorFn s (boundParams sel) w) as [[exn|r1] w1]; [done|].
    intros [= <- <- <-]. done.
Qed.

Lemma callSelector_cached sel s w r :
  memo sel = Some (s, r) → callSelector selectorFn cfg sel s w = (inr r, sel, w).
Proof. intros Hmemo. unfold callSelector. rewrite Hmemo. by rewrite decide_True. Qed.

Lemma callSelector_fresh_throws ps s w exn w' :
  selectorFn s ps w = (inl exn, w') →
  callSelector selectorFn cfg (createSelector ps) s w = (inl exn, createSelector ps, w').
Proof. intros Hthrow. unfold callSelector. simpl. by rewrite Hthrow. Qed.

(** When the key of a call is stored after the lookup, what is stored is
    the entry that the lookup returned. *)
Lemma getOrCreate_lookup_key ps t f e :
  selectorCache (lookupOrCreate ps t f).2 !! keyOf ps = Some e →
  e = (lookupOrCreate ps t f).1.2.
Proof.
  destruct (hit_or_miss ps t f) as [(e0 & Hfound & Hfresh)|Hmiss].
  - destruct (getOrCreate_hit ps t f e0 Hfound Hfresh) as (-> & -> & _).
    rewrite lookup_insert_eq. congruence.
  - destruct (getOrCreate_miss ps t f Hmiss) as (-> & -> & _).
    destruct (greaterThan _ (maxSize cfg)); simpl.
    + destruct (spliceKey (keyOf ps) (keyUsage f) ++ [keyOf ps]) as [|oldest rest]; simpl.
      * rewrite lookup_insert_eq. congruence.
      * destruct (decide (oldest = "")); [rewrite lookup_insert_eq; congruence|].
        intros [_ Hl]%lookup_delete_Some. rewrite lookup_insert_eq in Hl. congruence.
    + rewrite lookup_insert_eq. congruence.
Qed.

(** With room for at least one entry, the entry of the call is stored. *)
Lemma getOrCreate_stored ps t f m :
  maxSize cfg = Some m → 1 ≤ m → StoreInv f →
  selectorCache (lookupOrCreate ps t f).2 !! keyOf ps
  = Some (lookupOrCreate ps t f).1.2.
Proof.
  unfold StoreInv. intros Hm Hpos Hinv.
  pose proof (getCacheKeyForParams_nonempty (toArgs ps)) as Hkey.
  destruct (hit_or_miss ps t f) as [(e0 & Hfound & Hfresh)|Hmiss].
  - destruct (getOrCreate_hit ps t f e0 Hfound Hfresh) as (-> & -> & _).
    apply lookup_insert_eq.
  - destruct (getOrCreate_miss ps t f Hmiss) as (-> & -> & _).
    pose proof (consistent_touch _ _ _ (newEntry ps t) Hinv Hkey) as Hins.
    rewrite Hm. unfold greaterThan.
    destruct (Z.ltb_spec m (Z.of_nat (size (<[keyOf ps:=newEntry ps t]> (selectorCache f)))))
      as [Hover|Hfits]; simpl; [|apply lookup_insert_eq].
    rewrite (consistent_size _ _ Hins) in Hover.
    destruct (touch_cons (keyOf ps) (keyUsage f)) as (oldest & rest & Heq).
    rewrite Heq in Hins, Hover |- *.
    destruct (evictOldest_head _ _ _ Hins) as (-> & _ & _). simpl.
    rewrite lookup_delete_ne; [apply lookup_insert_eq|].
    intros ->. destruct Hins as (Hnd & _).
    destruct (spliceKey (keyOf ps) (keyUsage f)) as [|x xs]; simplify_eq/=; [lia|].
    apply NoDup_cons in Hnd as [Hfresh _].
    apply Hfresh, elem_of_app. right. left.
Qed.

(** [computeResult] changes, in the entry it was given, the memoizer and
    the accumulated execution time only. *)
Lemma computeResult_entry s k e perf f w e' :
  selectorCache f !! k = Some e →
  selectorCache (computeResult selectorFn cfg s k e perf f w).1.2 !! k = Some e' →
  lastUsed e' = lastUsed e ∧ created e' = created e
  ∧ hits e' = hits e ∧ misses e' = misses e.
Proof.
  intros Hk. unfold computeResult.
  destruct (callSelector selectorFn cfg (selector e) s w) as [[[exn|result] sel'] w']; simpl.
  - rewrite Hk. by intros [= <-].
  - rewrite lookup_writeBack, Hk. simpl. by intros [= <-].
Qed.

Lemma computeResult_lookup_ne s k e perf f w k' :
  k ≠ k' →
  selectorCache (computeResult selectorFn cfg s k e perf f w).1.2 !! k'
  = selectorCache f !! k'.
Proof.
  intros Hne. unfold computeResult.
  destruct (callSelector selectorFn cfg (selector e) s w) as [[[exn|result] sel'] w']; simpl.
  - done.
  - by apply lookup_writeBack_ne.
Qed.

(** The entry of the key after a complete call, when it is stored. *)
Lemma factorySelector_entry c f w e' :
  let lookedUp := lookupOrCreate (params c) (now c) f in
  selectorCache (factorySelector toArgs selectorFn cfg c f w).1.2
    !! keyOf (params c) = Some e' →
  lastUsed e' = lastUsed lookedUp.1.2 ∧ created e' = created lookedUp.1.2
  ∧ hits e' = hits lookedUp.1.2 ∧ misses e' = misses lookedUp.1.2.
Proof.
  cbv zeta. unfold factorySelector.
  pose proof (getOrCreate_key (params c) (now c) f) as Hkey.
  pose proof (getOrCreate_lookup_key (params c) (now c) f) as Hsame.
  destruct (lookupOrCreate (params c) (now c) f) as [[k e] f1]. simpl in *. subst k.
  intros He'.
  destruct (selectorCache f1 !! keyOf (params c)) as [e1|] eqn:Hstored.
  - rewrite (Hsame e1 eq_refl) in Hstored.
    by apply (computeResult_entry _ _ _ _ _ _ _ Hstored He').
  - exfalso.
    assert (keyOf (params c) ∈ dom (selectorCache
      (computeResult selectorFn cfg (state c) (keyOf (params c)) e (perfNow c) f1 w).1.2))
      as Hin by (apply elem_of_dom; eauto).
    destruct (computeResult_store (state c) (keyOf (params c)) e (perfNow c) f1 w)
      as (Hdom & _).
    rewrite Hdom in Hin. apply elem_of_dom in Hin as [? Hin]. congruence.
Qed.


(** *** Hits and misses of a complete call *)

Lemma factorySelector_hit c f w e :
  selectorCache f !! keyOf (params c) = Some e → expired cfg e (now c) = false →
  let r := factorySelector toArgs selectorFn cfg c f w in
  totalHits r.1.2 = S (totalHits f) ∧ totalMisses r.1.2 = totalMisses f
  ∧ (∃ e', selectorCache r.1.2 !! keyOf (params c) = Some e'
           ∧ hits e' = S (hits e) ∧ misses e' = misses e
           ∧ created e' = created e ∧ lastUsed e' = now c)
  ∧ (∀ res, memo (selector e) = Some (state c, res) → r.1.1 = inr res ∧ r.2 = w).
Proof.
  intros Hfound Hfresh r.
  destruct (factorySelector_store c f w) as (Hdom & _ & Hhits & Hmisses & _).
  pose proof (factorySelector_entry c f w) as Hentry. cbv zeta in Hentry.
  destruct (getOrCreate_hit (params c) (now c) f e Hfound Hfresh)
    as (He & Hcache & _ & Hh & Hm & _).
  fold r in Hdom, Hhits, Hmisses, Hentry.
  split_and!.
  - by rewrite Hhits, Hh.
  - by rewrite Hmisses, Hm.
  - assert (keyOf (params c) ∈ dom (selectorCache r.1.2)) as [e' He']%elem_of_dom.
    { rewrite Hdom, Hcache, dom_insert_L. set_solver. }
    exists e'. destruct (Hentry e' He') as (Hl & Hc & Hhi & Hmi).
    rewrite He in Hl, Hc, Hhi, Hmi. by split_and!.
  - intros res Hmemo. subst r. unfold factorySelector.
    pose proof (getOrCreate_key (params c) (now c) f) as Hkey.
    destruct (lookupOrCreate (params c) (now c) f) as [[k e1] f1]. simpl in *.
    subst e1. unfold computeResult. simpl.
    rewrite (callSelector_cached _ _ _ res) by done. done.
Qed.

Lemma factorySelector_miss c f w :
  missing cfg f (keyOf (params c)) (now c) →
  let r := factorySelector toArgs selectorFn cfg c f w in
  totalMisses r.1.2 = S (totalMisses f) ∧ totalHits r.1.2 = totalHits f
  ∧ (∀ e', selectorCache r.1.2 !! keyOf (params c) = Some e' →
           hits e' = 0%nat ∧ misses e' = 1%nat
           ∧ created e' = now c ∧ lastUsed e' = now c).
Proof.
  intros Hmiss r.
  destruct (factorySelector_store c f w) as (_ & _ & Hhits & Hmisses & _).
  pose proof (factorySelector_entry c f w) as Hentry. cbv zeta in Hentry.
  destruct (getOrCreate_miss (params c) (now c) f Hmiss)
    as (He & _ & _ & Hh & Hm & _).
  fold r in Hhits, Hmisses, Hentry.
  split_and!.
  - by rewrite Hmisses, Hm.
  - by rewrite Hhits, Hh.
  - intros e' He'. destruct (Hentry e' He') as (Hl & Hc & Hhi & Hmi).
    rewrite He in Hl, Hc, Hhi, Hmi. by split_and!.
Qed.

(** After a call that returned, the stored entry remembers the state and
    the result of that call. *)
Lemma factorySelector_memoized c f w m res f1 w1 :
  maxSize cfg = Some m → 1 ≤ m → StoreInv f →
  factorySelector toArgs selectorFn cfg c f w = (inr res, f1, w1) →
  ∃ e1, selectorCache f1 !! keyOf (params c) = Some e1
        ∧ memo (selector e1) = Some (state c, res).
Proof.
  intros Hm Hpos Hinv. unfold factorySelector.
  pose proof (getOrCreate_key (params c) (now c) f) as Hkey.
  pose proof (getOrCreate_stored (params c) (now c) f m Hm Hpos Hinv) as Hstored.
  destruct (lookupOrCreate (params c) (now c) f) as [[k e] f0]. simpl in *. subst k.
  unfold computeResult.
  destruct (callSelector selectorFn cfg (selector e) (state c) w)
    as [[[exn|result] sel'] w'] eqn:Hcall; [done|].
  intros [= <- <- <-]. simpl.
  eexists. rewrite lookup_writeBack, Hstored. simpl. split; [done|]. simpl.
  by destruct (callSelector_memo _ _ _ _ _ _ Hcall).
Qed.

(** A throwing computation after an insertion: the insertion stays. *)
Lemma factorySelector_throws_after_insert c f w exn w' :
  missing cfg f (keyOf (params c)) (now c) →
  selectorFn (state c) (params c) w = (inl exn, w') →
  factorySelector toArgs selectorFn cfg c f w
  = (inl exn, (lookupOrCreate (params c) (now c) f).2, w').
Proof.
  intros Hmiss Hthrow. unfold factorySelector.
  destruct (getOrCreate_miss (params c) (now c) f Hmiss) as (He & _).
  destruct (lookupOrCreate (params c) (now c) f) as [[k e] f0]. simpl in *. subst e.
  unfold computeResult. simpl.
  by rewrite (callSelector_fresh_throws _ _ _ exn w').
Qed.


(** *** The LRU list, call by call, without expiry *)

Lemma expired_never e t : expireAfter cfg = None → expired cfg e t = false.
Proof. intros Hnone. unfold expired. by rewrite Hnone. Qed.

Lemma evictOldest_usage (cache : gmap string Entry) l :
  (evictOldest cache l).2 = tail l.
Proof. by destruct l. Qed.

Lemma perform_Invoke fw c :
  (perform toArgs selectorFn cfg fw (Invoke c)).1
  = (factorySelector toArgs selectorFn cfg c fw.1 fw.2).1.2.
Proof.
  simpl. by destruct (factorySelector toArgs selectorFn cfg c fw.1 fw.2) as [[r f'] w'].
Qed.

Lemma lru_step c fw m :
  maxSize cfg = Some m → expireAfter cfg = None → StoreInv fw.1 →
  let k := keyOf (params c) in
  let fw' := perform toArgs selectorFn cfg fw (Invoke c) in
  StoreInv fw'.1
  ∧ (k ∈ keyUsage fw.1 →
     keyUsage fw'.1 = spliceKey k (keyUsage fw.1) ++ [k]
     ∧ totalHits fw'.1 = S (totalHits fw.1)
     ∧ totalMisses fw'.1 = totalMisses fw.1)
  ∧ (k ∉ keyUsage fw.1 →
     keyUsage fw'.1
     = (if m <? Z.of_nat (S (length (keyUsage fw.1)))
        then tail (keyUsage fw.1 ++ [k]) else keyUsage fw.1 ++ [k])
     ∧ totalMisses fw'.1 = S (totalMisses fw.1)
     ∧ totalHits fw'.1 = totalHits fw.1
     ∧ ∀ e, selectorCache fw'.1 !! k = Some e →
         hits e = 0%nat ∧ misses e = 1%nat ∧ created e = now c).
Proof.
  intros Hm Hnone Hinv k fw'. subst fw'. rewrite perform_Invoke.
  destruct (factorySelector_store c fw.1 fw.2) as (_ & Husage & _ & _ & Hinv').
  split; [by apply Hinv'|]. split.
  - intros Hin. destruct Hinv as (_ & Hkeys & _).
    apply Hkeys in Hin as [e He].
    pose proof (expired_never e (now c) Hnone) as Hfresh.
    destruct (factorySelector_hit c fw.1 fw.2 e He Hfresh) as (? & ? & _).
    destruct (getOrCreate_hit (params c) (now c) fw.1 e He Hfresh) as (_ & _ & Hu & _).
    split_and!; [|done..]. by rewrite Husage, Hu.
  - intros Hout.
    assert (selectorCache fw.1 !! k = None) as Habsent.
    { destruct Hinv as (_ & Hkeys & _).
      destruct (selectorCache fw.1 !! k) eqn:E; [|done].
      exfalso. apply Hout, Hkeys. eauto. }
    assert (missing cfg fw.1 k (now c)) as Hmiss by (unfold missing; by rewrite Habsent).
    destruct (factorySelector_miss c fw.1 fw.2 Hmiss) as (? & ? & Hentry).
    destruct (getOrCreate_miss (params c) (now c) fw.1 Hmiss) as (_ & _ & Hu & _).
    split_and!; [|done..|].
    + rewrite Husage, Hu, Hm. unfold greaterThan.
      rewrite map_size_insert_None by done.
      rewrite (consistent_size _ _ Hinv), spliceKey_absent by done.
      destruct (m <? Z.of_nat (S (length (keyUsage fw.1)))); [|done].
      apply evictOldest_usage.
    + intros e He. destruct (Hentry e He) as (? & ? & ? & ?). done.
Qed.

(** With tracking enabled, a call that returns leaves, as the entry's
    [executionTime], the reading of [performance.now()] itself. *)
Lemma computeResult_executionTime s k e perf f w res f' w' e' :
  trackPerformance cfg = Some true →
  computeResult selectorFn cfg s k e perf f w = (inr res, f', w') →
  selectorCache f !! k = Some e →
  selectorCache f' !! k = Some e' →
  executionTime e' = perf
  ∧ totalExecutionTime f' = totalExecutionTime f + (perf - executionTime e).
Proof.
  intros Htrack. unfold computeResult. rewrite Htrack. simpl.
  destruct (callSelector selectorFn cfg (selector e) s w) as [[[exn|result] sel'] w1];
    [done|].
  intros [= <- <- <-] Hk. simpl. rewrite lookup_writeBack, Hk. simpl.
  intros [= <-]. simpl. split; [lia|done].
Qed.




(** On a miss the wrapped selector runs on the state and the arguments of
    the call, and the call returns or throws what it does. *)
Lemma factorySelector_miss_runs c f w :
  missing cfg f (keyOf (params c)) (now c) →
  let r := factorySelector toArgs selectorFn cfg c f w in
  r.1.1 = (selectorFn (state c) (params c) w).1
  ∧ r.2 = (selectorFn (state c) (params c) w).2.
Proof.
  intros Hmiss. cbv zeta.
  destruct (getOrCreate_miss (params c) (now c) f Hmiss) as (He & _).
  unfold factorySelector.
  destruct (lookupOrCreate (params c) (now c) f) as [[k e] g]. simpl in He. subst e.
  unfold computeResult, callSelector. simpl.
  by destruct (selectorFn (state c) (params c) w) as [[exn|res] w'].
Qed.

End CacheProperties.

(** ** Invariants of the reachable states *)

Section Reachable.
Context {State Params Result Exn World : Type} `{!EqDecision State}.
Variable toArgs : Params → list Value.
Variable selectorFn : State → Params → World → (Exn + Result) * World.
Variable cfg : ParameterizedSelectorOptions Result.

Local Abbreviation Entry := (CacheEntry State Params Result).
Local Abbreviation Cache := (Factory State Params Result).
Local Abbreviation keyOf ps := (getCacheKeyForParams (toArgs ps)).
Local Abbreviation lookupOrCreate := (getOrCreateCacheEntry toArgs cfg).
Local Abbreviation run := (performAll toArgs selectorFn cfg).

Implicit Types (f : Cache) (e : Entry) (ps : Params) (t : Z) (k : string).

Lemma performAll_app ops1 ops2 fw :
  run (ops1 ++ ops2) fw = run ops2 (run ops1 fw).
Proof. unfold performAll. apply foldl_app. Qed.

Lemma performAll_snoc ops op fw :
  run (ops ++ [op]) fw = perform toArgs selectorFn cfg (run ops fw) op.
Proof. by rewrite performAll_app. Qed.

(** The consistency of mapping and LRU list needs no assumption on the
    options. *)
Lemma perform_StoreInv fw op :
  StoreInv fw.1 → StoreInv (perform toArgs selectorFn cfg fw op).1.
Proof.
  intros Hinv. destruct op as [c| |predicate].
  - rewrite perform_Invoke.
    destruct (factorySelector_store toArgs selectorFn cfg c fw.1 fw.2)
      as (_ & _ & _ & _ & Hkeep).
    by apply Hkeep.
  - apply clearCache_StoreInv.
  - by apply invalidateCache_StoreInv.
Qed.

Lemma performAll_StoreInv ops fw : StoreInv fw.1 → StoreInv (run ops fw).1.
Proof.
  revert fw. induction ops as [|op ops IH]; intros fw Hinv; [done|].
  apply IH. by apply perform_StoreInv.
Qed.

(** The counters change with the calls only: one more hit or one more
    miss for each. *)
Lemma factorySelector_counters c f w :
  let f' := (factorySelector toArgs selectorFn cfg c f w).1.2 in
  (totalHits f' + totalMisses f' = S (totalHits f + totalMisses f))%nat.
Proof.
  cbv zeta.
  destruct (hit_or_miss toArgs cfg (params c) (now c) f) as [(e & He & Hfresh)|Hmiss].
  - destruct (factorySelector_hit toArgs selectorFn cfg c f w e He Hfresh) as (-> & -> & _).
    lia.
  - destruct (factorySelector_miss toArgs selectorFn cfg c f w Hmiss) as (-> & -> & _).
    lia.
Qed.

Lemma invalidateCache_counters predicate f :
  let f' := (invalidateCache predicate f).2 in
  totalHits f' = totalHits f ∧ totalMisses f' = totalMisses f
  ∧ totalExecutionTime f' = totalExecutionTime f.
Proof.
  destruct predicate as [p|]; simpl; [|done].
  destruct (removeKeys_counters (keysToRemove p f) f) as (? & ? & ? & _). done.
Qed.

Lemma performAll_counters ops fw :
  let f' := (run ops fw).1 in
  (totalHits f' + totalMisses f'
   = totalHits fw.1 + totalMisses fw.1 + length (invocations ops))%nat.
Proof.
  cbv zeta. revert fw. induction ops as [|op ops IH]; intros fw; simpl.
  - unfold invocations. simpl. lia.
  - unfold performAll in IH |- *. simpl. rewrite IH.
    destruct op as [c| |predicate].
    + rewrite perform_Invoke.
      pose proof (factorySelector_counters c fw.1 fw.2) as Hc. cbv zeta in Hc.
      unfold invocations in *. simpl. lia.
    + unfold invocations. simpl. lia.
    + destruct (invalidateCache_counters predicate fw.1) as (Hh & Hm & _).
      unfold invocations. simpl in *. lia.
Qed.

(** Where the stored entries come from after a lookup. *)
Lemma getOrCreate_lookup ps t f k' e' :
  selectorCache (lookupOrCreate ps t f).2 !! k' = Some e' →
  (k' = keyOf ps ∧ e' = (lookupOrCreate ps t f).1.2)
  ∨ (k' ≠ keyOf ps ∧ selectorCache f !! k' = Some e').
Proof.
  intros He'. destruct (decide (k' = keyOf ps)) as [->|Hne].
  - left. split; [done|]. by apply getOrCreate_lookup_key.
  - right. split; [done|]. revert He'.
    destruct (hit_or_miss toArgs cfg ps t f) as [(e0 & Hfound & Hfresh)|Hmiss].
    + destruct (getOrCreate_hit toArgs cfg ps t f e0 Hfound Hfresh) as (_ & -> & _).
      by rewrite lookup_insert_ne.
    + destruct (getOrCreate_miss toArgs cfg ps t f Hmiss) as (_ & -> & _).
      destruct (greaterThan _ (maxSize cfg)); simpl.
      * destruct (spliceKey (keyOf ps) (keyUsage f) ++ [keyOf ps]) as [|oldest rest]; simpl.
        { by rewrite lookup_insert_ne. }
        destruct (decide (oldest = "")).
        { by rewrite lookup_insert_ne. }
        intros [_ Hl]%lookup_delete_Some. by rewrite lookup_insert_ne in Hl.
      * by rewrite lookup_insert_ne.
Qed.

Lemma getOrCreate_returned ps t f :
  let e := (lookupOrCreate ps t f).1.2 in
  (∃ e0, selectorCache f !! keyOf ps = Some e0 ∧ expired cfg e0 t = false
         ∧ e = hitEntry e0 t)
  ∨ (missing cfg f (keyOf ps) t ∧ e = newEntry ps t).
Proof.
  cbv zeta.
  destruct (hit_or_miss toArgs cfg ps t f) as [(e0 & Hfound & Hfresh)|Hmiss].
  - left. exists e0. split_and!; [done..|].
    by destruct (getOrCreate_hit toArgs cfg ps t f e0 Hfound Hfresh) as (-> & _).
  - right. split; [done|].
    by destruct (getOrCreate_miss toArgs cfg ps t f Hmiss) as (-> & _).
Qed.

Lemma callSelector_boundParams (m : MemoizedSelector State Params Result) s (w : World) :
  boundParams (callSelector selectorFn cfg m s w).1.2 = boundParams m.
Proof.
  unfold callSelector. destruct (memo m) as [[s0 r0]|].
  - destruct (decide (s0 = s)); [done|].
    by destruct (selectorFn s (boundParams m) w) as [[exn|r] w'].
  - by destruct (selectorFn s (boundParams m) w) as [[exn|r] w'].
Qed.

Lemma factorySelector_entriesKeyed c f w :
  entriesKeyed toArgs f →
  entriesKeyed toArgs (factorySelector toArgs selectorFn cfg c f w).1.2.
Proof.
  intros Hkeyed.
  pose proof (getOrCreate_returned (params c) (now c) f) as Hret. cbv zeta in Hret.
  pose proof (getOrCreate_lookup (params c) (now c) f) as Hlook.
  pose proof (getOrCreate_key toArgs cfg (params c) (now c) f) as Hk.
  assert (totalHits f ≤ totalHits (lookupOrCreate (params c) (now c) f).2)%nat as Hmono.
  { destruct (hit_or_miss toArgs cfg (params c) (now c) f) as [(e0 & Hfound & Hfresh)|Hmiss].
    - destruct (getOrCreate_hit toArgs cfg _ _ _ e0 Hfound Hfresh) as (_ & _ & _ & -> & _). lia.
    - destruct (getOrCreate_miss toArgs cfg _ _ _ Hmiss) as (_ & _ & _ & -> & _). lia. }
  assert (getCacheKeyForParams
      (toArgs (boundParams (selector (lookupOrCreate (params c) (now c) f).1.2)))
      = keyOf (params c)
    ∧ misses (lookupOrCreate (params c) (now c) f).1.2 = 1%nat
    ∧ (hits (lookupOrCreate (params c) (now c) f).1.2
       ≤ totalHits (lookupOrCreate (params c) (now c) f).2)%nat) as Hnew.
  { destruct Hret as [(e0 & Hfound & Hfresh & Hret)|[_ Hret]]; rewrite Hret; simpl.
    - destruct (Hkeyed _ _ Hfound) as (? & ? & ?).
      destruct (getOrCreate_hit toArgs cfg _ _ _ e0 Hfound Hfresh) as (_ & _ & _ & -> & _).
      split_and!; [done..|lia].
    - split_and!; [done..|lia]. }
  unfold factorySelector.
  destruct (lookupOrCreate (params c) (now c) f) as [[k e] f1]. simpl in *. subst k.
  unfold computeResult.
  pose proof (callSelector_boundParams (selector e) (state c) w) as Hbp.
  destruct (callSelector selectorFn cfg (selector e) (state c) w) as [[[exn|res] sel'] w'];
    simpl in Hbp; simpl.
  - intros k' e' He'. destruct (Hlook k' e' He') as [[-> ->]|[_ Hold]]; [done|].
    destruct (Hkeyed _ _ Hold) as (? & ? & ?). split_and!; [done..|lia].
  - intros k' e'. simpl. destruct (decide (keyOf (params c) = k')) as [<-|Hne].
    + rewrite lookup_writeBack.
      destruct (selectorCache f1 !! keyOf (params c)) as [e1|]; [|done].
      simpl. intros [= <-]. simpl. rewrite Hbp. done.
    + rewrite lookup_writeBack_ne by done. intros He'.
      destruct (Hlook k' e' He') as [[-> _]|[_ Hold]]; [done|].
      destruct (Hkeyed _ _ Hold) as (? & ? & ?). split_and!; [done..|lia].
Qed.

Lemma perform_entriesKeyed fw op :
  entriesKeyed toArgs fw.1 →
  entriesKeyed toArgs (perform toArgs selectorFn cfg fw op).1.
Proof.
  intros Hkeyed. destruct op as [c| |[p|]].
  - rewrite perform_Invoke. by apply factorySelector_entriesKeyed.
  - intros k e. simpl. by rewrite lookup_empty.
  - intros k e. simpl. rewrite removeKeys_lookup. case_decide; [done|].
    intros He. destruct (Hkeyed _ _ He) as (? & ? & ?).
    destruct (removeKeys_counters (keysToRemove p fw.1) fw.1) as (-> & _). done.
  - intros k e. simpl. by rewrite lookup_empty.
Qed.

Lemma performAll_entriesKeyed ops fw :
  entriesKeyed toArgs fw.1 → entriesKeyed toArgs (run ops fw).1.
Proof.
  unfold performAll. revert fw.
  induction ops as [|op ops IH]; intros fw Hkeyed; [done|].
  simpl. by apply IH, perform_entriesKeyed.
Qed.

End Reachable.

(** ** The cache is transparent for a pure selector *)

Section Transparency.
Context {State Params Result Exn World : Type} `{!EqDecision State}.
Variable toArgs : Params → list Value.
Variable sel : State → Params → Exn + Result.
Variable cfg : ParameterizedSelectorOptions Result.

(** The configured result equality accepts equal results only. *)
Hypothesis equalityCheck_sound :
  ∀ eq a b, equalityCheck cfg = Some eq → eq a b = true → a = b.

Local Abbreviation Entry := (CacheEntry State Params Result).
Local Abbreviation Cache := (Factory State Params Result).
Local Abbreviation keyOf ps := (getCacheKeyForParams (toArgs ps)).
Local Abbreviation lookupOrCreate := (getOrCreateCacheEntry toArgs cfg).
Local Abbreviation selectorFn := (@pureSelector State Params Result Exn World sel).

Implicit Types (f : Cache) (e : Entry) (ps : Params) (t : Z) (k : string).

Lemma callSelector_pure (m : MemoizedSelector State Params Result) s (w : World) :
  memoSound sel m →
  let r := callSelector selectorFn cfg m s w in
  r.1.1 = sel s (boundParams m) ∧ r.2 = w
  ∧ memoSound sel r.1.2 ∧ boundParams r.1.2 = boundParams m.
Proof.
  intros Hm. unfold callSelector, pureSelector.
  destruct (memo m) as [[s0 r0]|] eqn:Hmemo.
  - destruct (decide (s0 = s)) as [->|Hne]; simpl.
    + split_and!; [|done..]. symmetry. by apply Hm.
    + destruct (sel s (boundParams m)) as [exn|r] eqn:Hsel; simpl; [done|].
      assert ((match equalityCheck cfg with
               | Some eq => if eq r0 r then r0 else r
               | None => r
               end) = r) as ->.
      { destruct (equalityCheck cfg) as [eq|] eqn:Heq; [|done].
        destruct (eq r0 r) eqn:E; [|done]. by apply (equalityCheck_sound eq). }
      split_and!; [done..| |done].
      intros s1 r1. simpl. intros [= <- <-]. done.
  - destruct (sel s (boundParams m)) as [exn|r] eqn:Hsel; simpl; [done|].
    split_and!; [done..| |done].
    intros s1 r1. simpl. intros [= <- <-]. done.
Qed.

Lemma getOrCreate_entriesSound ps t f :
  entriesSound toArgs sel f →
  entriesSound toArgs sel (lookupOrCreate ps t f).2
  ∧ getCacheKeyForParams
      (toArgs (boundParams (selector (lookupOrCreate ps t f).1.2))) = keyOf ps
  ∧ misses (lookupOrCreate ps t f).1.2 = 1%nat
  ∧ memoSound sel (selector (lookupOrCreate ps t f).1.2).
Proof.
  intros Hsound.
  assert (getCacheKeyForParams
      (toArgs (boundParams (selector (lookupOrCreate ps t f).1.2))) = keyOf ps
    ∧ misses (lookupOrCreate ps t f).1.2 = 1%nat
    ∧ memoSound sel (selector (lookupOrCreate ps t f).1.2)) as Hret.
  { destruct (getOrCreate_returned toArgs cfg ps t f) as [(e0 & Hfound & _ & ->)|[_ ->]].
    - simpl. by apply Hsound.
    - simpl. split_and!; [done..|]. intros s r. simpl. done. }
  split; [|done].
  intros k' e' [[-> ->]|[_ Hold]]%(getOrCreate_lookup toArgs cfg); [done|].
  by apply Hsound.
Qed.

(** One call: the result is what the selector returns for the state of the
    call and the arguments the entry was created for. *)
Lemma factorySelector_pure c f (w : World) :
  entriesSound toArgs sel f →
  let r := factorySelector toArgs selectorFn cfg c f w in
  entriesSound toArgs sel r.1.2
  ∧ r.2 = w
  ∧ ∃ p0, keyOf p0 = keyOf (params c)
          ∧ r.1.1 = sel (state c) p0
          ∧ (missing cfg f (keyOf (params c)) (now c) → p0 = params c).
Proof.
  intros Hsound. cbv zeta. unfold factorySelector.
  destruct (getOrCreate_entriesSound (params c) (now c) f Hsound)
    as (Hsound1 & Hkey & Hmisses & Hmemo).
  pose proof (getOrCreate_returned toArgs cfg (params c) (now c) f) as Hret.
  cbv zeta in Hret.
  pose proof (getOrCreate_key toArgs cfg (params c) (now c) f) as Hk.
  destruct (lookupOrCreate (params c) (now c) f) as [[k e] f1]. simpl in *. subst k.
  unfold computeResult.
  destruct (callSelector_pure (selector e) (state c) w Hmemo) as (Hres & Hw & Hmemo' & Hbp).
  destruct (callSelector selectorFn cfg (selector e) (state c) w) as [[res sel'] w'].
  simpl in *. subst w'.
  assert (∃ p0, keyOf p0 = keyOf (params c) ∧ res = sel (state c) p0
            ∧ (missing cfg f (keyOf (params c)) (now c) → p0 = params c)) as Hp0.
  { exists (boundParams (selector e)). split_and!; [done..|].
    intros Hmiss. destruct Hret as [(e0 & Hfound & Hfresh & ->)|[_ ->]]; [|done].
    exfalso. unfold missing in Hmiss. rewrite Hfound in Hmiss. congruence. }
  destruct res as [exn|result]; simpl; [done|].
  split_and!; [|done..].
  intros k' e'. simpl. destruct (decide (keyOf (params c) = k')) as [<-|Hne].
  - rewrite lookup_writeBack.
    destruct (selectorCache f1 !! keyOf (params c)) as [e1|]; [|done].
    simpl. intros [= <-]. simpl. rewrite Hbp. done.
  - rewrite lookup_writeBack_ne by done. apply Hsound1.
Qed.

Lemma removeKeys_entriesSound ks f :
  entriesSound toArgs sel f →
  entriesSound toArgs sel (foldl (λ f key, removeKey key f) f ks).
Proof.
  intros Hsound k e. rewrite removeKeys_lookup. case_decide; [done|]. apply Hsound.
Qed.

Lemma perform_entriesSound (fw : Cache * World) op :
  entriesSound toArgs sel fw.1 →
  entriesSound toArgs sel (perform toArgs selectorFn cfg fw op).1.
Proof.
  intros Hsound. destruct op as [c| |[p|]].
  - rewrite perform_Invoke.
    by destruct (factorySelector_pure c fw.1 fw.2 Hsound) as (? & _).
  - intros k e. simpl. by rewrite lookup_empty.
  - simpl. by apply removeKeys_entriesSound.
  - intros k e. simpl. by rewrite lookup_empty.
Qed.

Lemma performAll_entriesSound ops (fw : Cache * World) :
  entriesSound toArgs sel fw.1 →
  entriesSound toArgs sel (performAll toArgs selectorFn cfg ops fw).1.
Proof.
  unfold performAll. revert fw.
  induction ops as [|op ops IH]; intros fw Hsound; [done|].
  simpl. by apply IH, perform_entriesSound.
Qed.

Lemma emptyFactory_entriesSound :
  entriesSound toArgs sel (@emptyFactory State Params Result).
Proof. intros k e. simpl. by rewrite lookup_empty. Qed.

End Transparency.

(** ** Logging does not interfere *)

Section Logging.
Context {State Params Result Exn World : Type} `{!EqDecision State}.
Variable toArgs : Params → list Value.
Variable selectorFn : State → Params → World → (Exn + Result) * World.
Variables cfg1 cfg2 : ParameterizedSelectorOptions Result.
Hypothesis Hcfg : sameBehaviour cfg1 cfg2.

Local Abbreviation Cache := (Factory State Params Result).

Lemma expired_sameBehaviour (e : CacheEntry State Params Result) t :
  expired cfg1 e t = expired cfg2 e t.
Proof. destruct Hcfg as (_ & _ & _ & Hexp). unfold expired. by rewrite Hexp. Qed.

Lemma callSelector_sameBehaviour (m : MemoizedSelector State Params Result) s w :
  callSelector selectorFn cfg1 m s w = callSelector selectorFn cfg2 m s w.
Proof. destruct Hcfg as (_ & Heq & _). unfold callSelector. by rewrite Heq. Qed.

Lemma getOrCreate_sameStore ps t (f1 f2 : Cache) :
  sameStore f1 f2 →
  let r1 := getOrCreateCacheEntry toArgs cfg1 ps t f1 in
  let r2 := getOrCreateCacheEntry toArgs cfg2 ps t f2 in
  r1.1 = r2.1 ∧ sameStore r1.2 r2.2.
Proof.
  intros (Hc & Hu & Hh & Hm & Ht). cbv zeta.
  destruct Hcfg as (Hmax & _).
  unfold getOrCreateCacheEntry. rewrite <- Hc, <- Hu, <- Hh, <- Hm, <- Ht, <- Hmax.
  destruct (selectorCache f1 !! getCacheKeyForParams (toArgs ps)) as [e|] eqn:Hfound.
  - rewrite <- expired_sameBehaviour.
    destruct (expired cfg1 e t).
    + destruct (greaterThan _ (maxSize cfg1));
        [destruct (evictOldest _ _)|]; done.
    + done.
  - destruct (greaterThan _ (maxSize cfg1));
      [destruct (evictOldest _ _)|]; done.
Qed.

Lemma computeResult_sameStore s k e perf (f1 f2 : Cache) w :
  sameStore f1 f2 →
  let r1 := computeResult selectorFn cfg1 s k e perf f1 w in
  let r2 := computeResult selectorFn cfg2 s k e perf f2 w in
  r1.1.1 = r2.1.1 ∧ r1.2 = r2.2 ∧ sameStore r1.1.2 r2.1.2.
Proof.
  intros (Hc & Hu & Hh & Hm & Ht). cbv zeta.
  destruct Hcfg as (_ & _ & Htrack & _).
  unfold computeResult. rewrite <- callSelector_sameBehaviour, <- Htrack.
  destruct (callSelector selectorFn cfg1 (selector e) s w) as [[[exn|res] sel'] w'].
  - done.
  - simpl. unfold sameStore. simpl. rewrite Hc, Hu, Hh, Hm, Ht. done.
Qed.

Lemma factorySelector_sameStore c (f1 f2 : Cache) w :
  sameStore f1 f2 →
  let r1 := factorySelector toArgs selectorFn cfg1 c f1 w in
  let r2 := factorySelector toArgs selectorFn cfg2 c f2 w in
  r1.1.1 = r2.1.1 ∧ r1.2 = r2.2 ∧ sameStore r1.1.2 r2.1.2.
Proof.
  intros Hsame. cbv zeta. unfold factorySelector.
  destruct (getOrCreate_sameStore (params c) (now c) f1 f2 Hsame) as [Hret Hstore].
  destruct (getOrCreateCacheEntry toArgs cfg1 (params c) (now c) f1) as [[k1 e1] g1].
  destruct (getOrCreateCacheEntry toArgs cfg2 (params c) (now c) f2) as [[k2 e2] g2].
  simpl in *. injection Hret as -> ->.
  by apply computeResult_sameStore.
Qed.

End Logging.

(** ** Round trip of the cache keys *)

Section Lexer.
Implicit Types (s acc rest : string) (c d : ascii) (st : LexState).

Lemma fmap_app_nil {A} (o : option (list A)) : app [] <$> o = o.
Proof. by destruct o. Qed.

Lemma fmap_app_cons {A} (x : A) (l : list A) (o : option (list A)) :
  app (x :: l) <$> o = cons x <$> (app l <$> o).
Proof. by destruct o. Qed.

Lemma lex_silent st c st' s :
  lexStep st c = Some (st', []) → lex st (String c s) = lex st' s.
Proof. intros Hstep. simpl. rewrite Hstep. apply fmap_app_nil. Qed.

Lemma lex_emit st c st' out s :
  lexStep st c = Some (st', out) → lex st (String c s) = app out <$> lex st' s.
Proof. intros Hstep. simpl. by rewrite Hstep. Qed.

Lemma append_assoc s1 s2 s3 : (s1 +:+ s2) +:+ s3 = s1 +:+ (s2 +:+ s3).
Proof. induction s1 as [|c s1 IH]; simpl; [done|]. by rewrite IH. Qed.

Lemma append_nil_r s : s +:+ "" = s.
Proof. induction s as [|c s IH]; simpl; [done|]. by rewrite IH. Qed.

(** One escaped code unit is read back as that code unit. *)
Lemma lex_escapeChar c acc rest :
  lex (LString acc) (escapeChar c +:+ rest) = lex (LString (snoc acc c)) rest.
Proof.
  destruct c as [[] [] [] [] [] [] [] []];
    match goal with
    | |- context [escapeChar ?a] =>
        let e := eval vm_compute in (escapeChar a) in
        change (escapeChar a) with e
    end;
    simpl String.append;
    repeat (erewrite lex_silent by reflexivity);
    reflexivity.
Qed.

Lemma lex_escapeString s acc rest :
  lex (LString acc) (escapeString s +:+ String dquote rest)
  = cons (TString (acc +:+ s)) <$> lex LIdle rest.
Proof.
  revert acc. induction s as [|c s IH]; intros acc.
  - simpl. by rewrite append_nil_r.
  - simpl escapeString. rewrite append_assoc, lex_escapeChar, IH.
    unfold snoc. by rewrite append_assoc.
Qed.

Lemma lex_QuoteJSONString s rest :
  lex LIdle (QuoteJSONString s +:+ rest) = cons (TString s) <$> lex LIdle rest.
Proof.
  unfold QuoteJSONString. simpl String.append.
  erewrite lex_silent by reflexivity.
  rewrite append_assoc.
  change (String dquote "" +:+ rest) with (String dquote rest).
  by rewrite lex_escapeString.
Qed.

Lemma pretty_N_go_append (x : N) s rest :
  pretty_N_go x s +:+ rest = pretty_N_go x (s +:+ rest).
Proof.
  revert s. induction (N.lt_wf_0 x) as [x _ IH]; intros s.
  assert (x = 0 ∨ 0 < x)%N as [->|Hx] by lia.
  - by rewrite !pretty_N_go_0.
  - rewrite (pretty_N_go_step x s), (pretty_N_go_step x (s +:+ rest)) by done.
    by rewrite IH by (by apply N.div_lt).
Qed.

Lemma digitValue_pretty_N_char (n : N) :
  (n < 10)%N → digitValue (pretty_N_char n) = Some n.
Proof.
  intros Hn.
  assert (n = 0 ∨ n = 1 ∨ n = 2 ∨ n = 3 ∨ n = 4 ∨ n = 5 ∨ n = 6 ∨ n = 7
          ∨ n = 8 ∨ n = 9)%N as Hcases by lia.
  repeat (destruct Hcases as [->|Hcases]; [reflexivity|]). by subst.
Qed.

Lemma lexStep_digit neg (n d : N) :
  (d < 10)%N →
  lexStep (LDigits neg n) (pretty_N_char d) = Some (LDigits neg (10 * n + d), []).
Proof. intros Hd. simpl. by rewrite digitValue_pretty_N_char. Qed.

Lemma lexStep_first_digit (d : N) :
  (0 < d < 10)%N →
  lexStep LIdle (pretty_N_char d) = Some (LDigits false d, [])
  ∧ lexStep LMinus (pretty_N_char d) = Some (LDigits true d, []).
Proof.
  intros Hd.
  assert (d = 1 ∨ d = 2 ∨ d = 3 ∨ d = 4 ∨ d = 5 ∨ d = 6 ∨ d = 7 ∨ d = 8 ∨ d = 9)%N
    as Hcases by lia.
  repeat (destruct Hcases as [->|Hcases]; [by split|]). by subst.
Qed.

Lemma lex_digits (x : N) s :
  (0 < x)%N →
  lex LIdle (pretty_N_go x s) = lex (LDigits false x) s
  ∧ lex LMinus (pretty_N_go x s) = lex (LDigits true x) s.
Proof.
  revert s. induction (N.lt_wf_0 x) as [x _ IH]; intros s Hx.
  rewrite pretty_N_go_step by done.
  assert (x < 10 ∨ 10 ≤ x)%N as [Hsmall|Hbig] by lia.
  - rewrite N.div_small, pretty_N_go_0, N.mod_small by done.
    destruct (lexStep_first_digit x) as [Hidle Hminus]; [lia|].
    split; by eapply lex_silent.
  - assert (0 < x `div` 10)%N as Hq by (apply N.div_str_pos; lia).
    destruct (IH (x `div` 10)%N (N.div_lt x 10 Hx eq_refl)
                (String (pretty_N_char (x `mod` 10)) s) Hq) as [-> ->].
    assert (x `mod` 10 < 10)%N as Hr by (by apply N.mod_lt).
    rewrite !(lex_silent _ _ _ _ (lexStep_digit _ _ _ Hr)).
    by rewrite <- (N.div_mod x 10).
Qed.

Lemma lexIdle_delimiter d :
  delimiter d →
  ∃ t, lexIdle d = Some (LIdle, [t]) ∧ digitValue d = None
       ∧ d ≠ "."%char ∧ d ≠ "e"%char ∧ d ≠ "E"%char.
Proof. intros [-> | ->]; eexists; split_and!; try reflexivity; done. Qed.

Lemma lex_number_end st tok d rest :
  delimiter d →
  lexStep st d = lexAfterNumber tok d →
  lex st (String d rest) = cons tok <$> lex LIdle (String d rest).
Proof.
  intros (t & Hidle & Hdigit & H1 & H2 & H3)%lexIdle_delimiter Hstep.
  assert (lexAfterNumber tok d = Some (LIdle, [tok; t])) as Hafter.
  { unfold lexAfterNumber. rewrite !decide_False, Hdigit, Hidle by done. done. }
  rewrite (lex_emit _ _ _ _ _ (eq_trans Hstep Hafter)).
  rewrite (lex_emit _ _ _ _ _ (Hidle : lexStep LIdle d = _)).
  by rewrite fmap_app_cons.
Qed.

Lemma lex_digits_end neg (n : N) d rest :
  delimiter d →
  lex (LDigits neg n) (String d rest)
  = cons (numberToken neg n) <$> lex LIdle (String d rest).
Proof.
  intros Hd. apply lex_number_end; [done|].
  destruct (lexIdle_delimiter d Hd) as (_ & _ & Hdigit & _).
  simpl. by rewrite Hdigit.
Qed.

Lemma lex_number (z : Z) d rest :
  delimiter d →
  lex LIdle (pretty z +:+ String d rest)
  = cons (TNumber (NumInt z)) <$> lex LIdle (String d rest).
Proof.
  intros Hd. destruct z as [|p|p].
  - change (pretty 0%Z +:+ String d rest) with (String "0" (String d rest)).
    erewrite lex_silent by reflexivity. by apply lex_number_end.
  - change (pretty (Z.pos p)) with (pretty_N_go (N.pos p) "").
    rewrite pretty_N_go_append. simpl String.append.
    destruct (lex_digits (N.pos p) (String d rest)) as [-> _]; [lia|].
    by rewrite lex_digits_end.
  - change (pretty (Z.neg p)) with ("-" +:+ pretty_N_go (N.pos p) "").
    rewrite append_assoc, pretty_N_go_append. simpl String.append.
    erewrite lex_silent by reflexivity.
    destruct (lex_digits (N.pos p) (String d rest)) as [_ ->]; [lia|].
    by rewrite lex_digits_end.
Qed.

End Lexer.

Section KeyRoundTrip.
Implicit Types (v : Value) (l : list Value) (d : ascii) (rest : string).

Lemma lex_literal_end t (o : option (list Token)) : app [t] <$> o = cons t <$> o.
Proof. by destruct o. Qed.

Lemma lex_element v d rest :
  exactPrimitive v = true → delimiter d →
  lex LIdle (elementText v +:+ String d rest)
  = cons (tokenOf v) <$> lex LIdle (String d rest).
Proof.
  intros Hv Hd. destruct v as [| |[]|[]|s| | | | | | | | | | | |]; try done.
  - change (elementText VNull) with "null". simpl String.append.
    do 3 (erewrite lex_silent by reflexivity).
    erewrite lex_emit by reflexivity. apply lex_literal_end.
  - change (elementText (VBool true)) with "true". simpl String.append.
    do 3 (erewrite lex_silent by reflexivity).
    erewrite lex_emit by reflexivity. apply lex_literal_end.
  - change (elementText (VBool false)) with "false". simpl String.append.
    do 4 (erewrite lex_silent by reflexivity).
    erewrite lex_emit by reflexivity. apply lex_literal_end.
  - change (elementText (VNum (NumInt z))) with (pretty z). by apply lex_number.
  - change (elementText (VStr s)) with (QuoteJSONString s).
    apply lex_QuoteJSONString.
Qed.

Lemma join_cons2 sep (s1 s2 : string) (ss : list string) :
  join sep (s1 :: s2 :: ss) = s1 +:+ sep +:+ join sep (s2 :: ss).
Proof. done. Qed.

Lemma lex_elements v l :
  Forall (λ v, exactPrimitive v = true) (v :: l) →
  lex LIdle (join "," (map elementText (v :: l)) +:+ "]")
  = Some (elementTokens (v :: l) ++ [TRBracket]).
Proof.
  revert v. induction l as [|v' l IH]; intros v Hall.
  - apply Forall_inv in Hall. simpl map. simpl join.
    rewrite lex_element by (done || by right). reflexivity.
  - pose proof (Forall_inv Hall) as Hv. apply Forall_inv_tail in Hall.
    set (J := join "," (map elementText (v' :: l))) in *.
    change (join "," (map elementText (v :: v' :: l)))
      with (elementText v +:+ "," +:+ J).
    rewrite !append_assoc.
    change ("," +:+ J +:+ "]") with (String "," (J +:+ "]")).
    rewrite lex_element by (done || by left).
    erewrite lex_emit by reflexivity.
    unfold J.
    rewrite IH by done. reflexivity.
Qed.

Lemma arrayElements_map l :
  Forall (λ v, SerializeJSONProperty v ≠ Throws) l →
  arrayElements (map SerializeJSONProperty l) = Some (map elementText l).
Proof.
  induction 1 as [|v l Hv _ IH]; [done|].
  simpl. unfold elementText.
  destruct (SerializeJSONProperty v); [done|by rewrite IH..].
Qed.

Lemma exactPrimitive_serializes v :
  exactPrimitive v = true → SerializeJSONProperty v ≠ Throws.
Proof. by destruct v as [| |[]|[]|s| | | | | | | | | | | |]. Qed.

Lemma getCacheKeyForParams_text l :
  Forall (λ v, SerializeJSONProperty v ≠ Throws) l →
  getCacheKeyForParams l = "[" +:+ join "," (map elementText l) +:+ "]".
Proof.
  intros Hall. unfold getCacheKeyForParams, JSON_stringify. simpl.
  unfold SerializeJSONArray. by rewrite arrayElements_map.
Qed.

Lemma parseStart_exact v stack :
  exactPrimitive v = true → parseStart stack (tokenOf v) = Some (complete v stack).
Proof. by destruct v as [| |[]|[]|s| | | | | | | | | | | |]. Qed.

Lemma parse_elements v l acc :
  Forall (λ v, exactPrimitive v = true) (v :: l) →
  parseTokens (PStart [FArray acc]) (elementTokens (v :: l) ++ [TRBracket])
  = Some (VArray (acc ++ v :: l)).
Proof.
  revert v acc. induction l as [|v' l IH]; intros v acc Hall.
  - apply Forall_inv in Hall. simpl.
    rewrite parseStart_exact by done. done.
  - pose proof (Forall_inv Hall) as Hv. apply Forall_inv_tail in Hall.
    change (elementTokens (v :: v' :: l))
      with (tokenOf v :: TComma :: elementTokens (v' :: l)).
    simpl app. simpl parseTokens at 1.
    rewrite parseStart_exact by done. simpl complete. cbn [parseTokens parseStep].
    change (parseTokens (PStart [FArray (acc ++ [v])])
              (elementTokens (v' :: l) ++ [TRBracket])
            = Some (VArray (acc ++ v :: v' :: l))).
    rewrite IH by done. by rewrite <- app_assoc.
Qed.

Lemma elementTokens_head v l :
  ∃ ts : list Token, elementTokens (v :: l) ++ [TRBracket] = tokenOf v :: ts.
Proof. destruct l; simpl; eauto. Qed.

Lemma parse_array_first v (ts : list Token) :
  exactPrimitive v = true →
  parseTokens (PArrayFirst []) (tokenOf v :: ts)
  = parseTokens (PStart [FArray []]) (tokenOf v :: ts).
Proof. by destruct v as [| |[]|[]|s| | | | | | | | | | | |]. Qed.

Lemma parse_array v l :
  Forall (λ v, exactPrimitive v = true) (v :: l) →
  parseTokens (PStart []) (TLBracket :: elementTokens (v :: l) ++ [TRBracket])
  = Some (VArray (v :: l)).
Proof.
  intros Hall. pose proof (parse_elements v l [] Hall) as Hparse.
  destruct (elementTokens_head v l) as [ts Hts].
  rewrite Hts in Hparse |- *.
  change (parseTokens (PArrayFirst []) (tokenOf v :: ts) = Some (VArray (v :: l))).
  rewrite parse_array_first by (by apply Forall_inv in Hall). done.
Qed.

Lemma JSON_parse_getCacheKeyForParams l :
  Forall (λ v, exactPrimitive v = true) l →
  JSON_parse (getCacheKeyForParams l) = Some (VArray l).
Proof.
  intros Hall.
  rewrite getCacheKeyForParams_text
    by (eapply Forall_impl; [done|apply exactPrimitive_serializes]).
  unfold JSON_parse. destruct l as [|v l].
  - reflexivity.
  - change ("[" +:+ join "," (map elementText (v :: l)) +:+ "]")
      with (String "[" (join "," (map elementText (v :: l)) +:+ "]")).
    erewrite lex_emit by reflexivity.
    rewrite lex_elements by done.
    by apply parse_array.
Qed.

End KeyRoundTrip.

Section Collapse.
Implicit Types (v : Value) (l : list Value).

Lemma elementText_asSerialized v : elementText (asSerialized v) = elementText v.
Proof. by destruct v as [| | |[]| | | | | | | | | | | | |]. Qed.

Lemma asSerialized_serializes v :
  SerializeJSONProperty v ≠ Throws → SerializeJSONProperty (asSerialized v) ≠ Throws.
Proof. by destruct v as [| | |[]| | | | | | | | | | | | |]. Qed.

Lemma asSerialized_exact v :
  plainPrimitive v = true → exactPrimitive (asSerialized v) = true.
Proof. by destruct v as [| | |[]| | | | | | | | | | | | |]. Qed.

Lemma plainPrimitive_serializes v :
  plainPrimitive v = true → SerializeJSONProperty v ≠ Throws.
Proof. by destruct v as [| | |[]| | | | | | | | | | | | |]. Qed.

Lemma getCacheKeyForParams_asSerialized l :
  Forall (λ v, SerializeJSONProperty v ≠ Throws) l →
  getCacheKeyForParams (map asSerialized l) = getCacheKeyForParams l.
Proof.
  intros Hall. rewrite !getCacheKeyForParams_text; [|done|].
  - rewrite map_map. do 3 f_equal. apply map_ext. apply elementText_asSerialized.
  - apply Forall_fmap. eapply Forall_impl; [done|]. apply asSerialized_serializes.
Qed.

End Collapse.

(** ** Pagination *)

Section Pagination.
Context {T : Type}.
Implicit Types (array : list T) (page size : Z).

Lemma Math_ceil_div_spec a b :
  0 < b → 0 ≤ a →
  ((Math_ceil_div a b - 1) * b < a ∧ a ≤ Math_ceil_div a b * b)
  ∨ (a = 0 ∧ Math_ceil_div a b = 0).
Proof.
  intros Hb Ha. unfold Math_ceil_div.
  pose proof (Z.div_mod (- a) b ltac:(lia)) as Hdiv.
  pose proof (Z.mod_pos_bound (- a) b Hb) as Hmod.
  destruct (decide (a = 0)) as [->|Hne].
  - right. split; [done|]. simpl. by rewrite Z.div_0_l by lia.
  - left. nia.
Qed.

Lemma Math_ceil_div_nonneg a b : 0 < b → 0 ≤ a → 0 ≤ Math_ceil_div a b.
Proof. intros Hb Ha. destruct (Math_ceil_div_spec a b Hb Ha); nia. Qed.

Lemma Math_ceil_div_pos a b : 0 < b → 0 < a → 0 < Math_ceil_div a b.
Proof. intros Hb Ha. destruct (Math_ceil_div_spec a b Hb ltac:(lia)); nia. Qed.

(** [slice] between two positions inside the array. *)
Lemma Array_slice_inside array first final :
  0 ≤ first → first ≤ final →
  Array_slice array first final
  = take (Z.to_nat (final - first)) (drop (Z.to_nat first) array).
Proof.
  intros Hf Hle. unfold Array_slice.
  assert ((first <? 0) = false) as -> by lia.
  assert ((final <? 0) = false) as -> by lia.
  set (len := Z.of_nat (length array)).
  destruct (decide (first ≤ len)) as [Hin|Hout].
  - rewrite (Z.min_l first) by done.
    destruct (decide (final ≤ len)) as [Hin'|Hout'].
    + by rewrite (Z.min_l final) by done.
    + rewrite (Z.min_r final) by lia.
      rewrite !take_ge; [done|rewrite length_drop; lia..].
  - rewrite (Z.min_r first), (Z.min_r final) by lia.
    rewrite !drop_ge by lia. by rewrite !take_nil.
Qed.

Lemma paginate_currentPage array page size :
  currentPage (pagination (paginate array page size))
  = Z.max 0 (Z.min page (totalPages (pagination (paginate array page size)) - 1)).
Proof. done. Qed.

Lemma paginate_items array page size :
  0 < size →
  let p := currentPage (pagination (paginate array page size)) in
  items (paginate array page size)
  = take (Z.to_nat size) (drop (Z.to_nat (p * size)) array).
Proof.
  intros Hs. cbv zeta. simpl.
  rewrite Array_slice_inside by nia. f_equal. f_equal. lia.
Qed.

Lemma take_drop_pages (s k : nat) array :
  concat (map (λ p : nat, take s (drop (p * s) array)) (seq 0 k)) = take (k * s) array.
Proof.
  induction k as [|k IH]; [done|].
  rewrite seq_S, map_app, concat_app, IH. simpl. rewrite app_nil_r.
  rewrite take_take_drop. f_equal. lia.
Qed.

Lemma paginate_in_range array page size :
  0 < size → 0 ≤ page → page < Math_ceil_div (Z.of_nat (length array)) size →
  currentPage (pagination (paginate array page size)) = page.
Proof. intros Hs Hp Hlt. simpl. lia. Qed.

Lemma paginate_pages_concat array size :
  0 < size →
  concat (map (λ p, items (paginate array p size))
              (seqZ 0 (Math_ceil_div (Z.of_nat (length array)) size)))
  = array.
Proof.
  intros Hs.
  set (pages := Math_ceil_div (Z.of_nat (length array)) size).
  assert (0 ≤ pages) as Hpages by (apply Math_ceil_div_nonneg; lia).
  unfold seqZ. rewrite <- list_fmap_compose.
  rewrite (list_fmap_ext _ (λ p : nat, take (Z.to_nat size)
             (drop (p * Z.to_nat size) array)) (seq 0 (Z.to_nat pages))).
  - change (fmap ?f ?l) with (map f l). rewrite take_drop_pages.
    apply take_ge.
    destruct (Math_ceil_div_spec (Z.of_nat (length array)) size Hs ltac:(lia))
      as [[_ Hle]|[Hz _]]; [fold pages in Hle|]; nia.
  - intros i p Hi. apply lookup_seq in Hi as [-> Hlt].
    cbv [compose]. change (0 + i)%nat with i. rewrite Z.add_0_r.
    pose proof (paginate_items array (Z.of_nat i) size Hs) as Hitems. cbv zeta in Hitems.
    rewrite Hitems, paginate_in_range by (fold pages; lia).
    f_equal. f_equal. lia.
Qed.

End Pagination.

Section PaginationKeys.




End PaginationKeys.

(** ** dateUtils *)

Section DateUtilsFacts.
Import DateUtils.

Lemma DateUtils_formatRelativeTime_unit (d value : Z) (label : string)
    (before after : list (Z * string)) :
  units = before ++ (value, label) :: after →
  Forall (λ u, d < u.1) before → value ≤ d →
  formatRelativeTime d
  = pretty (d / value) +:+ " " +:+ label
    +:+ (if d / value =? 1 then "" else "s") +:+ " ago".
Proof.
  unfold formatRelativeTime. intros -> Hbefore Hle.
  induction Hbefore as [|[v l] before Hv _ IH]; simpl.
  - by rewrite (proj2 (Z.leb_le value d)) by done.
  - simpl in Hv. by rewrite (proj2 (Z.leb_gt v d)) by done.
Qed.

Lemma DateUtils_formatRelativeTime_none (d : Z) :
  d < 1 → formatRelativeTime d = "just now".
Proof.
  intros Hd. unfold formatRelativeTime, units.
  unfold formatRelativeTime_from.
  rewrite !(proj2 (Z.leb_gt _ d)); [done|unfold SECOND, MINUTE, HOUR, DAY, MONTH, YEAR; lia..].
Qed.

End DateUtilsFacts.

(** ** The tracked selector *)

Section TrackedFacts.
Import TrackedSelector.
Context {State Dep Result Exn World : Type}.
Variable strictEquals : Dep → Dep → bool.
Variable undefined : Dep.
Variable dependencies : list (State → Dep).
Variable combiner : list Dep → World → (Exn + Result) * World.
Variable options : TrackedSelector.Options.

Local Abbreviation run :=
  (TrackedSelector.performAll strictEquals undefined dependencies combiner options).
Local Abbreviation step :=
  (TrackedSelector.perform strictEquals undefined dependencies combiner options).
Local Abbreviation depsAt s := ((λ dependency : State → Dep, dependency s) <$> dependencies).

(** The positions that [changedPositions] lists, without the sentinel. *)
Lemma changedPositions_from (pre deps last : list Dep) :
  filter (λ i, i ≠ -1)
    (imap (λ i dep,
             if strictEquals dep (nth (length pre + i) last undefined)
             then -1 else Z.of_nat (length pre + i)) deps)
  = Z.of_nat <$>
      filter (λ i, strictEquals (nth i (pre ++ deps) undefined) (nth i last undefined) = false)
        (seq (length pre) (length deps)).
Proof.
  revert pre. induction deps as [|dep deps IH]; intros pre; [done|].
  rewrite imap_cons. simpl length. simpl seq.
  assert (nth (length pre) (pre ++ dep :: deps) undefined = dep) as Hhere.
  { rewrite app_nth2 by lia. by rewrite Nat.sub_diag. }
  specialize (IH (pre ++ [dep])).
  rewrite length_app in IH. simpl in IH. rewrite <- app_assoc in IH. simpl in IH.
  rewrite Nat.add_1_r in IH.
  rewrite (imap_ext _ (λ i dep0,
             if strictEquals dep0 (nth (S (length pre) + i) last undefined)
             then -1 else Z.of_nat (S (length pre) + i))).
  2:{ intros i x _. simpl. by rewrite Nat.add_succ_r. }
  rewrite !filter_cons, Nat.add_0_r, Hhere.
  destruct (strictEquals dep (nth (length pre) last undefined)) eqn:Heq.
  - rewrite decide_False by lia. rewrite decide_False by done. apply IH.
  - rewrite decide_True by lia. rewrite decide_True by done.
    rewrite fmap_cons. f_equal. apply IH.
Qed.

Lemma changedPositions_spec (deps last : list Dep) :
  changedPositions strictEquals undefined deps last
  = Z.of_nat <$>
      filter (λ i, strictEquals (nth i deps undefined) (nth i last undefined) = false)
        (seq 0 (length deps)).
Proof. apply (changedPositions_from [] deps last). Qed.

Lemma positions_sorted (P : nat → Prop) `{!∀ i, Decision (P i)} (from n : nat) :
  StronglySorted Z.lt (Z.of_nat <$> filter P (seq from n)).
Proof.
  revert from. induction n as [|n IH]; intros from; simpl; [constructor|].
  rewrite filter_cons. destruct (decide (P from)); [|apply IH].
  rewrite fmap_cons. constructor; [apply IH|].
  apply Forall_forall. intros z (i & -> & Hi)%list_elem_of_fmap.
  apply list_elem_of_filter in Hi as [_ Hi]. apply elem_of_seq in Hi. lia.
Qed.

Lemma tracked_performAll_snoc ops op tw :
  run (ops ++ [op]) tw = step (run ops tw) op.
Proof. unfold TrackedSelector.performAll. by rewrite foldl_app. Qed.

Lemma sinceReset_snoc_Run (ops : list (@TrackedSelector.Operation State)) s a b :
  sinceReset (ops ++ [Run s a b]) = sinceReset ops ++ [(s, a, b)].
Proof. unfold sinceReset. by rewrite foldl_app. Qed.

Lemma sinceReset_snoc_ResetStats (ops : list (@TrackedSelector.Operation State)) :
  sinceReset (ops ++ [ResetStats]) = [].
Proof. unfold sinceReset. by rewrite foldl_app. Qed.

Lemma lastRun_snoc_Run (ops : list (@TrackedSelector.Operation State)) s a b :
  lastRun (ops ++ [Run s a b]) = Some s.
Proof. unfold lastRun. rewrite omap_app. simpl. by rewrite last_snoc. Qed.

Lemma lastRun_snoc_ResetStats (ops : list (@TrackedSelector.Operation State)) :
  lastRun (ops ++ [ResetStats]) = lastRun ops.
Proof. unfold lastRun. rewrite omap_app. simpl. by rewrite app_nil_r. Qed.

Lemma durations_snoc (runs : list (State * Z * Z)) s a b :
  durations (runs ++ [(s, a, b)]) = durations runs + (b - a).
Proof.
  unfold durations. induction runs as [|r runs IH]; simpl; [lia|].
  rewrite IH. lia.
Qed.

(** One run of the wrapper. *)
Lemma resultFunc_closure deps a b (t : Closure Dep) w :
  let r := resultFunc strictEquals undefined combiner options deps a b t w in
  lastDeps r.1.2 = Some deps
  ∧ executionCount r.1.2 = S (executionCount t)
  ∧ changedDeps r.1.2
    = match lastDeps t with
      | Some last =>
          if truthyFlag (TrackedSelector.trackDependencyChanges options)
          then changedPositions strictEquals undefined deps last else changedDeps t
      | None => changedDeps t
      end.
Proof.
  cbv zeta. unfold resultFunc.
  by destruct (combiner deps w) as [[exn|res] w'].
Qed.

Lemma resultFunc_time deps a b (t : Closure Dep) w :
  let r := resultFunc strictEquals undefined combiner options deps a b t w in
  totalExecutionTime r.1.2
  = match (combiner deps w).1, truthyFlag (TrackedSelector.trackPerformance options) with
    | inr _, true => totalExecutionTime t + (b - a)
    | _, _ => totalExecutionTime t
    end
  ∧ (truthyFlag (TrackedSelector.trackPerformance options) = false →
     warnings r.1.2 = warnings t).
Proof.
  cbv zeta. unfold resultFunc.
  destruct (combiner deps w) as [[exn|res] w']; simpl; [done|].
  destruct (truthyFlag (TrackedSelector.trackPerformance options)); simpl.
  - done.
  - split; [done|]. intros _.
    destruct (truthyString (TrackedSelector.debugLabel options)); by rewrite app_nil_r.
Qed.

(** After any sequence of runs and resets. *)
Lemma tracked_performAll_closure ops w :
  let t := (run ops (initial, w)).1 in
  lastDeps t = (λ s, depsAt s) <$> lastRun ops
  ∧ executionCount t = length (sinceReset ops)
  ∧ (truthyFlag (TrackedSelector.trackDependencyChanges options) = false →
     changedDeps t = [])
  ∧ (truthyFlag (TrackedSelector.trackPerformance options) = false →
     totalExecutionTime t = 0 ∧ warnings t = [])
  ∧ (truthyFlag (TrackedSelector.trackPerformance options) = true →
     (∀ deps w0, ∃ res w1, combiner deps w0 = (inr res, w1)) →
     totalExecutionTime t = durations (sinceReset ops)).
Proof.
  induction ops as [|op ops IH] using rev_ind; [by split_and!|].
  cbv zeta in *. rewrite tracked_performAll_snoc.
  destruct IH as (Hlast & Hcount & Hchanged & Hoff & Hon).
  destruct op as [s a b|]; simpl.
  - pose proof (resultFunc_closure (depsAt s) a b (run ops (initial, w)).1
                  (run ops (initial, w)).2) as Hc.
    pose proof (resultFunc_time (depsAt s) a b (run ops (initial, w)).1
                  (run ops (initial, w)).2) as Ht.
    cbv zeta in Hc, Ht.
    destruct (resultFunc strictEquals undefined combiner options (depsAt s) a b
                (run ops (initial, w)).1 (run ops (initial, w)).2) as [[res t'] w'].
    simpl in *. destruct Hc as (Hl & Hn & Hch). destruct Ht as (Htime & Hwarn).
    rewrite lastRun_snoc_Run, sinceReset_snoc_Run, length_app. simpl.
    split_and!.
    + done.
    + rewrite Hn, Hcount. lia.
    + intros Hflag. rewrite Hch, Hflag. destruct (lastDeps _); by apply Hchanged.
    + intros Hflag. rewrite Htime, Hflag. destruct (Hoff Hflag) as [-> Hw].
      split; [by destruct (combiner _ _).1|]. by rewrite Hwarn.
    + intros Hflag Hreturns. rewrite Htime, Hflag, durations_snoc.
      destruct (Hreturns (depsAt s) (run ops (initial, w)).2) as (res0 & w1 & ->).
      simpl. by rewrite Hon.
  - rewrite lastRun_snoc_ResetStats, sinceReset_snoc_ResetStats.
    split_and!; [done|done|done| |done].
    intros Hflag. split; [done|]. by apply Hoff.
Qed.

End TrackedFacts.

(** * The properties of the design document *)

(** C1. Capacity invariant. With [maxSize = m] (not negative), after any
    finite sequence of operations on a fresh factory - calls of the
    parameterized selector with any states, argument tuples and clock
    readings, with or without [expireAfter], whether or not the wrapped
    selector throws, and also [clearCache] and [invalidateCache] - the
    [cacheSize] that [getStats] reports is at most [m], and it still is after
    one more call. That call adds its key to the stored keys; when this
    makes the store overflow (the key is new and the store is full) exactly
    one key is evicted, the head of the LRU list. *)
Theorem capacity_invariant
    {State Params Result Exn World : Type} `{!EqDecision State}
    (toArgs : Params → list Value)
    (selectorFn : State → Params → World → (Exn + Result) * World)
    (cfg : ParameterizedSelectorOptions Result) (m : Z)
    (ops : list (@Operation State Params)) (w0 : World) (t : Z) :
  maxSize cfg = Some m → 0 ≤ m →
  let reached := performAll toArgs selectorFn cfg ops (emptyFactory, w0) in
  let f := reached.1 in
  Z.of_nat (cacheSize (getStats cfg t f)) ≤ m
  ∧ ∀ c : Invocation State Params,
      let k := getCacheKeyForParams (toArgs (params c)) in
      let f' := (factorySelector toArgs selectorFn cfg c f reached.2).1.2 in
      Z.of_nat (cacheSize (getStats cfg t f')) ≤ m
      ∧ (k ∈ dom (selectorCache f) ∨ Z.of_nat (size (selectorCache f)) < m →
         dom (selectorCache f') = {[k]} ∪ dom (selectorCache f))
      ∧ (k ∉ dom (selectorCache f) → Z.of_nat (size (selectorCache f)) = m →
         ∃ oldest,
           head (spliceKey k (keyUsage f) ++ [k]) = Some oldest
           ∧ oldest ∈ {[k]} ∪ dom (selectorCache f)
           ∧ dom (selectorCache f') = ({[k]} ∪ dom (selectorCache f)) ∖ {[oldest]}
           ∧ size (selectorCache f') = size (selectorCache f)).
Proof.
  intros Hm Hpos reached f.
  destruct (performAll_invariant toArgs selectorFn cfg ops (emptyFactory, w0)
              (emptyFactory_invariant cfg m Hm Hpos)) as [Hinv Hcap].
  fold reached in Hinv, Hcap. fold f in Hinv, Hcap.
  assert (Z.of_nat (size (selectorCache f)) ≤ m) as Hsize.
  { destruct Hcap as (m' & Hm' & Hsize). congruence. }
  split; [done|]. intros c k f'.
  destruct (factorySelector_store toArgs selectorFn cfg c f reached.2) as (Hdom & _).
  fold f' in Hdom.
  destruct (getOrCreate_dom toArgs cfg (params c) (now c) f m Hm Hinv Hsize)
    as [Hadd Hevict].
  split_and!.
  - destruct (factorySelector_capacity toArgs selectorFn cfg c f reached.2 Hinv Hcap)
      as (m' & Hm' & Hsize').
    replace m with m' by congruence. exact Hsize'.
  - intros Hroom. rewrite Hdom. by apply Hadd.
  - intros Hnew Hfull. destruct (Hevict Hnew Hfull) as (oldest & Hhead & Hin & Hd & Hs).
    exists oldest. split_and!; [done..| |].
    + by rewrite Hdom.
    + by rewrite <- !size_dom, Hdom.
Qed.

Lemma capacity_invariant_witness :
  let cfg := TestFixture.configure (TestFixture.withMaxSize 2) in
  let ops := [Invoke (TestFixture.select 1 10); Invoke (TestFixture.select 2 11);
              Invoke (TestFixture.select 3 12)] in
  maxSize cfg = Some 2 ∧ 0 ≤ 2
  ∧ Z.of_nat (cacheSize (getStats cfg 13
       (performAll id TestFixture.findItem cfg ops (emptyFactory, tt)).1)) ≤ 2.
Proof.
  intros cfg ops. split; [reflexivity|]. split; [lia|].
  exact (proj1 (capacity_invariant id TestFixture.findItem cfg 2 ops tt 13
                  eq_refl ltac:(lia))).
Defined.

(** C10. A wrapped selector that throws on the first call for an argument
    tuple: the exception reaches the caller, and the factory stays exactly
    as the lookup left it, with the miss counted and nothing rolled back.
    With room for at least one entry the new entry (no hit, one miss) is
    stored, and when the store was not full [cacheSize] has grown by one. *)
Theorem throwing_selector_keeps_insertion
    {State Params Result Exn World : Type} `{!EqDecision State}
    (toArgs : Params → list Value)
    (selectorFn : State → Params → World → (Exn + Result) * World)
    (cfg : ParameterizedSelectorOptions Result)
    (c : Invocation State Params) (f : Factory State Params Result)
    (w w' : World) (exn : Exn) (t : Z) :
  let k := getCacheKeyForParams (toArgs (params c)) in
  selectorCache f !! k = None →
  selectorFn (state c) (params c) w = (inl exn, w') →
  let r := factorySelector toArgs selectorFn cfg c f w in
  let f' := r.1.2 in
  r.1.1 = inl exn ∧ r.2 = w'
  ∧ f' = (getOrCreateCacheEntry toArgs cfg (params c) (now c) f).2
  ∧ totalMisses f' = S (totalMisses f)
  ∧ totalHits f' = totalHits f
  ∧ st_totalMisses (getStats cfg t f') = S (st_totalMisses (getStats cfg t f))
  ∧ ∀ m, maxSize cfg = Some m → 1 ≤ m → StoreInv f →
      (∃ e, selectorCache f' !! k = Some e
            ∧ hits e = 0%nat ∧ misses e = 1%nat ∧ created e = now c)
      ∧ (Z.of_nat (size (selectorCache f)) < m →
         cacheSize (getStats cfg t f') = S (cacheSize (getStats cfg t f))).
Proof.
  intros k Habsent Hthrow r f'.
  assert (missing cfg f k (now c)) as Hmiss by (unfold missing; by rewrite Habsent).
  pose proof (factorySelector_throws_after_insert toArgs selectorFn cfg c f w exn w'
                Hmiss Hthrow) as Hr.
  fold r in Hr.
  assert (f' = (getOrCreateCacheEntry toArgs cfg (params c) (now c) f).2) as Hf'
    by (unfold f'; by rewrite Hr).
  destruct (getOrCreate_miss toArgs cfg (params c) (now c) f Hmiss)
    as (He & _ & _ & Hh & Hm & _).
  split_and!; try (by rewrite Hr); try (by rewrite Hf').
  intros m Hmax Hpos Hinv. split.
  - exists (newEntry (params c) (now c)). split; [|done].
    rewrite Hf', <- He. by apply (getOrCreate_stored toArgs cfg _ _ _ m).
  - intros Hroom. simpl. rewrite Hf', <- !size_dom.
    destruct (getOrCreate_dom toArgs cfg (params c) (now c) f m Hmax Hinv) as [Hadd _];
      [lia|].
    rewrite Hadd by (by right).
    rewrite size_union, size_singleton; [done|].
    apply disjoint_singleton_l, not_elem_of_dom. done.
Qed.

Lemma throwing_selector_keeps_insertion_witness :
  let cfg := TestFixture.configure TestFixture.noOptions in
  let c := TestFixture.select 1 10 in
  let f' := (factorySelector id TestFixture.failing cfg c emptyFactory tt).1.2 in
  selectorCache (@emptyFactory TestFixture.TestState (list Value) (option TestFixture.Item))
    !! getCacheKeyForParams (params c) = None
  ∧ TestFixture.failing (state c) (params c) tt = (inl tt, tt)
  ∧ totalMisses f' = 1%nat.
Proof.
  intros cfg c f'. split; [reflexivity|]. split; [reflexivity|].
  apply (throwing_selector_keeps_insertion id TestFixture.failing cfg c emptyFactory
           tt tt tt 10); reflexivity.
Defined.

(** C4, as amended. With [expireAfter = T] and [T] not zero, a call whose
    key is stored with an entry [e] finds the entry expired exactly when
    [now - e.created > T], whatever [e.lastUsed] is. In that case the call
    counts as a miss and what is stored under the key afterwards is a new
    entry created at [now]; otherwise the call is a hit on [e]. So a call at
    [t0 + T + 1] is a miss and a call at [t0 + T - 1] is a hit, for an entry
    created at [t0]. *)
Theorem expiry_measured_from_created
    {State Params Result Exn World : Type} `{!EqDecision State}
    (toArgs : Params → list Value)
    (selectorFn : State → Params → World → (Exn + Result) * World)
    (cfg : ParameterizedSelectorOptions Result) (T : Z)
    (c : Invocation State Params) (f : Factory State Params Result)
    (w : World) (e : CacheEntry State Params Result) :
  let k := getCacheKeyForParams (toArgs (params c)) in
  expireAfter cfg = Some T → T ≠ 0 →
  selectorCache f !! k = Some e →
  let f' := (factorySelector toArgs selectorFn cfg c f w).1.2 in
  (expired cfg e (now c) = true ↔ now c - created e > T)
  ∧ (now c - created e > T →
     totalMisses f' = S (totalMisses f) ∧ totalHits f' = totalHits f
     ∧ ∀ e', selectorCache f' !! k = Some e' →
         created e' = now c ∧ hits e' = 0%nat ∧ misses e' = 1%nat)
  ∧ (now c - created e ≤ T →
     totalHits f' = S (totalHits f) ∧ totalMisses f' = totalMisses f
     ∧ ∃ e', selectorCache f' !! k = Some e'
         ∧ created e' = created e ∧ hits e' = S (hits e) ∧ lastUsed e' = now c)
  ∧ (now c = created e + T + 1 → totalMisses f' = S (totalMisses f))
  ∧ (now c = created e + T - 1 → totalHits f' = S (totalHits f)).
Proof.
  intros k HT Hnz Hfound f'.
  assert (expired cfg e (now c) = true ↔ now c - created e > T) as Hexp.
  { unfold expired, truthyNumber, greaterThan. rewrite HT.
    destruct (Z.eqb_spec T 0); [done|]. simpl. rewrite Z.ltb_lt. lia. }
  assert (now c - created e > T →
     totalMisses f' = S (totalMisses f) ∧ totalHits f' = totalHits f
     ∧ ∀ e', selectorCache f' !! k = Some e' →
         created e' = now c ∧ hits e' = 0%nat ∧ misses e' = 1%nat) as Hmiss.
  { intros Hlate%Hexp.
    assert (missing cfg f k (now c)) as Hm by (unfold missing; by rewrite Hfound).
    destruct (factorySelector_miss toArgs selectorFn cfg c f w Hm) as (? & ? & He').
    split_and!; [done..|]. intros e' Hl. destruct (He' e' Hl) as (? & ? & ? & ?). done. }
  assert (now c - created e ≤ T →
     totalHits f' = S (totalHits f) ∧ totalMisses f' = totalMisses f
     ∧ ∃ e', selectorCache f' !! k = Some e'
         ∧ created e' = created e ∧ hits e' = S (hits e) ∧ lastUsed e' = now c) as Hhit.
  { intros Hearly.
    assert (expired cfg e (now c) = false) as Hfresh.
    { apply not_true_is_false. intros E%Hexp. lia. }
    destruct (factorySelector_hit toArgs selectorFn cfg c f w e Hfound Hfresh)
      as (? & ? & (e' & ? & ? & ? & ? & ?) & _).
    split_and!; [done..|]. exists e'. done. }
  split_and!; [done..| |].
  - intros Hnow. apply Hmiss. lia.
  - intros Hnow. apply Hhit. lia.
Qed.

Lemma expiry_measured_from_created_witness :
  let cfg := TestFixture.configure (TestFixture.withExpireAfter 50) in
  let f := (factorySelector id TestFixture.findItem cfg (TestFixture.select 1 100)
              emptyFactory tt).1.2 in
  let c := TestFixture.select 1 151 in
  let f' := (factorySelector id TestFixture.findItem cfg c f tt).1.2 in
  expireAfter cfg = Some 50 ∧ 50 ≠ 0
  ∧ (selectorCache f !! getCacheKeyForParams (params c)
     = Some {| selector := {| boundParams := [VNum (NumInt 1)];
                              memo := Some (TestFixture.mockState, Some (1, "one")) |};
               lastUsed := 100; created := 100; hits := 0; misses := 1;
               executionTime := 0 |})
  ∧ totalMisses f' = 2%nat.
Proof.
  intros cfg f c f'. split; [reflexivity|]. split; [lia|]. split; [reflexivity|].
  refine (proj1 (proj2 (proj2 (proj2 (expiry_measured_from_created
    id TestFixture.findItem cfg 50 c f tt _ _ _ _))))  _);
    [reflexivity|lia|reflexivity|reflexivity].
Defined.

(** C4, counterexample. With [expireAfter = 0] the guard
    [expireAfter && ...] reads the option as not set: an entry created at
    100 and looked up at 101 is not deleted, and the call is a hit. *)
Lemma expiry_zero_never_expires :
  let cfg := TestFixture.configure (TestFixture.withExpireAfter 0) in
  let f := (factorySelector id TestFixture.findItem cfg (TestFixture.select 1 100)
              emptyFactory tt).1.2 in
  let f' := (factorySelector id TestFixture.findItem cfg (TestFixture.select 1 (100 + 0 + 1))
               f tt).1.2 in
  expireAfter cfg = Some 0
  ∧ totalMisses f = 1%nat ∧ totalHits f = 0%nat
  ∧ totalMisses f' ≠ S (totalMisses f)
  ∧ totalHits f' = S (totalHits f)
  ∧ created <$> selectorCache f' !! "[1]" = Some 100.
Proof. vm_compute. split_and!; try reflexivity. discriminate. Qed.

(** C2, as amended. In any state that a sequence of operations reaches, with
    room for at least one entry: when a call [f(S, ...A)] returned a result,
    and the entry of [A] has not expired at the time of the next call
    [f(S, ...A)] with the same state, that call returns the same result
    from the memoizer, without running the wrapped selector again (the
    world is untouched), and it counts as a hit: [totalHits] and the hits of
    the entry grow by one, [totalMisses] and the misses of the entry stay. *)
Theorem repeated_call_is_memoized_hit
    {State Params Result Exn World : Type} `{!EqDecision State}
    (toArgs : Params → list Value)
    (selectorFn : State → Params → World → (Exn + Result) * World)
    (cfg : ParameterizedSelectorOptions Result) (m : Z)
    (ops : list (@Operation State Params)) (w0 : World)
    (c1 c2 : Invocation State Params)
    (res : Result) (f1 : Factory State Params Result) (w1 : World) :
  let reached := performAll toArgs selectorFn cfg ops (emptyFactory, w0) in
  let k := getCacheKeyForParams (toArgs (params c1)) in
  maxSize cfg = Some m → 1 ≤ m →
  state c2 = state c1 → params c2 = params c1 →
  factorySelector toArgs selectorFn cfg c1 reached.1 reached.2 = (inr res, f1, w1) →
  (∀ e, selectorCache f1 !! k = Some e → expired cfg e (now c2) = false) →
  let r2 := factorySelector toArgs selectorFn cfg c2 f1 w1 in
  r2.1.1 = inr res ∧ r2.2 = w1
  ∧ totalHits r2.1.2 = S (totalHits f1)
  ∧ totalMisses r2.1.2 = totalMisses f1
  ∧ ∃ e1 e2, selectorCache f1 !! k = Some e1
             ∧ selectorCache r2.1.2 !! k = Some e2
             ∧ hits e2 = S (hits e1) ∧ misses e2 = misses e1.
Proof.
  intros reached k Hm Hpos Hstate Hparams Hfirst Hfresh r2.
  destruct (performAll_invariant toArgs selectorFn cfg ops (emptyFactory, w0)
              (emptyFactory_invariant cfg m Hm ltac:(lia))) as [Hinv _].
  fold reached in Hinv.
  destruct (factorySelector_memoized toArgs selectorFn cfg c1 reached.1 reached.2 m
              res f1 w1 Hm Hpos Hinv Hfirst) as (e1 & He1 & Hmemo).
  fold k in He1.
  assert (getCacheKeyForParams (toArgs (params c2)) = k) as Hk by (by rewrite Hparams).
  rewrite <- Hk in He1. rewrite <- Hstate in Hmemo.
  destruct (factorySelector_hit toArgs selectorFn cfg c2 f1 w1 e1 He1)
    as (Hh & Hmi & (e2 & He2 & Hh2 & Hm2 & _) & Hres).
  { apply Hfresh. by rewrite <- Hk. }
  fold r2 in Hh, Hmi, He2, Hres. destruct (Hres res Hmemo) as [? ?].
  split_and!; [done..|]. exists e1, e2. rewrite <- Hk. done.
Qed.

Lemma repeated_call_is_memoized_hit_witness :
  let cfg := TestFixture.configure TestFixture.noOptions in
  let c1 := TestFixture.select 1 10 in
  let c2 := TestFixture.select 1 11 in
  let r1 := factorySelector id TestFixture.findItem cfg c1 emptyFactory tt in
  let r2 := factorySelector id TestFixture.findItem cfg c2 r1.1.2 r1.2 in
  maxSize cfg = Some 10 ∧ 1 ≤ 10 ∧ state c2 = state c1 ∧ params c2 = params c1
  ∧ r1 = (inr (Some (1, "one")), r1.1.2, r1.2)
  ∧ r2.1.1 = inr (Some (1, "one")) ∧ totalHits r2.1.2 = S (totalHits r1.1.2).
Proof.
  intros cfg c1 c2 r1 r2. split; [reflexivity|]. split; [lia|].
  split; [reflexivity|]. split; [reflexivity|]. split; [reflexivity|].
  destruct (repeated_call_is_memoized_hit id TestFixture.findItem cfg 10 [] tt c1 c2
              (Some (1, "one")) r1.1.2 r1.2) as (H1 & _ & H2 & _);
    [reflexivity|lia|reflexivity|reflexivity|reflexivity|intros e _; reflexivity|].
  split; [exact H1|exact H2].
Defined.

(** C2, counterexample. With [expireAfter = 1], two consecutive calls with
    the same state and the same argument, at clock readings 0 and 2: the
    second call is a miss. *)
Lemma repeated_call_after_expiry_is_miss :
  let cfg := TestFixture.configure (TestFixture.withExpireAfter 1) in
  let f1 := (factorySelector id TestFixture.findItem cfg (TestFixture.select 1 0)
               emptyFactory tt).1.2 in
  let f2 := (factorySelector id TestFixture.findItem cfg (TestFixture.select 1 2)
               f1 tt).1.2 in
  totalHits f1 = 0%nat ∧ totalMisses f1 = 1%nat
  ∧ totalHits f2 ≠ S (totalHits f1)
  ∧ totalMisses f2 = S (totalMisses f1)
  ∧ hits <$> selectorCache f2 !! "[1]" = Some 0%nat.
Proof. vm_compute. split_and!; try reflexivity. discriminate. Qed.

(** C3. LRU eviction order. With [maxSize = 2] and no [expireAfter], on a
    fresh factory, for arguments [a], [b], [c] with three different keys:
    after the calls with [a], [b], [c] the store holds exactly the entries
    of [b] and [c] (the entry of [a], the head of the LRU list, was evicted);
    the following calls with [b] and with [c] are hits; the call with [a]
    after them is a miss that creates a new entry. *)
Theorem lru_eviction_order
    {State Params Result Exn World : Type} `{!EqDecision State}
    (toArgs : Params → list Value)
    (selectorFn : State → Params → World → (Exn + Result) * World)
    (cfg : ParameterizedSelectorOptions Result)
    (ca cb cc cb' cc' ca' : Invocation State Params) (w0 : World) :
  let ka := getCacheKeyForParams (toArgs (params ca)) in
  let kb := getCacheKeyForParams (toArgs (params cb)) in
  let kc := getCacheKeyForParams (toArgs (params cc)) in
  maxSize cfg = Some 2 → expireAfter cfg = None →
  ka ≠ kb → ka ≠ kc → kb ≠ kc →
  params cb' = params cb → params cc' = params cc → params ca' = params ca →
  let run := performAll toArgs selectorFn cfg in
  let s3 := run [Invoke ca; Invoke cb; Invoke cc] (emptyFactory, w0) in
  let s5 := run [Invoke cb'; Invoke cc'] s3 in
  let s6 := run [Invoke ca'] s5 in
  (dom (selectorCache s3.1) = {[kb; kc]} ∧ keyUsage s3.1 = [kb; kc]
   ∧ selectorCache s3.1 !! ka = None
   ∧ totalMisses s3.1 = 3%nat ∧ totalHits s3.1 = 0%nat)
  ∧ (totalHits s5.1 = 2%nat ∧ totalMisses s5.1 = 3%nat
     ∧ selectorCache s5.1 !! ka = None)
  ∧ (totalMisses s6.1 = 4%nat ∧ totalHits s6.1 = 2%nat
     ∧ ∃ e, selectorCache s6.1 !! ka = Some e
            ∧ hits e = 0%nat ∧ misses e = 1%nat ∧ created e = now ca').
Proof.
  intros ka kb kc Hm Hnone Hab Hac Hbc Hpb Hpc Hpa run s3 s5 s6.
  assert (getCacheKeyForParams (toArgs (params cb')) = kb) as Hkb' by (by rewrite Hpb).
  assert (getCacheKeyForParams (toArgs (params cc')) = kc) as Hkc' by (by rewrite Hpc).
  assert (getCacheKeyForParams (toArgs (params ca')) = ka) as Hka' by (by rewrite Hpa).
  pose proof (lru_step toArgs selectorFn cfg) as step. cbv zeta in step.
  set (s0 := (emptyFactory, w0) : Factory State Params Result * World).
  assert (StoreInv s0.1) as I0 by apply consistent_empty.
  set (s1 := perform toArgs selectorFn cfg s0 (Invoke ca)).
  set (s2 := perform toArgs selectorFn cfg s1 (Invoke cb)).
  assert (s3 = perform toArgs selectorFn cfg s2 (Invoke cc)) as E3 by reflexivity.
  set (s4 := perform toArgs selectorFn cfg s3 (Invoke cb')).
  assert (s5 = perform toArgs selectorFn cfg s4 (Invoke cc')) as E5 by reflexivity.
  assert (s6 = perform toArgs selectorFn cfg s5 (Invoke ca')) as E6 by reflexivity.
  pose proof (step ca s0 2 Hm Hnone I0) as (I1 & _ & M1). fold s1 ka in I1, M1.
  pose proof (step cb s1 2 Hm Hnone I1) as (I2 & _ & M2). fold s2 kb in I2, M2.
  pose proof (step cc s2 2 Hm Hnone I2) as (I3 & _ & M3).
  rewrite <- E3 in I3, M3. fold kc in M3.
  pose proof (step cb' s3 2 Hm Hnone I3) as (I4 & H4 & _).
  fold s4 in I4, H4. rewrite Hkb' in H4.
  pose proof (step cc' s4 2 Hm Hnone I4) as (I5 & H5 & _).
  rewrite <- E5 in I5, H5. rewrite Hkc' in H5.
  pose proof (step ca' s5 2 Hm Hnone I5) as (I6 & _ & M6).
  rewrite <- E6 in I6, M6. rewrite Hka' in M6.
  clear step Hkb' Hkc' Hka' E3 E5 E6 Hpa Hpb Hpc.
  clearbody s1 s2 s3 s4 s5 s6 ka kb kc. clear run.
  assert (∀ s : Factory State Params Result * World, StoreInv s.1 →
            ka ∉ keyUsage s.1 → selectorCache s.1 !! ka = None) as Hgone.
  { intros s (_ & Hkeys & _) Hout. destruct (selectorCache s.1 !! ka) eqn:E; [|done].
    exfalso. apply Hout, Hkeys. eauto. }
  destruct M1 as (U1 & Mi1 & Hi1 & _); [apply not_elem_of_nil|].
  simpl in U1, Mi1, Hi1.
  destruct M2 as (U2 & Mi2 & Hi2 & _).
  { rewrite U1, list_elem_of_singleton. congruence. }
  rewrite U1 in U2. simpl in U2. rewrite Mi1 in Mi2. rewrite Hi1 in Hi2.
  destruct M3 as (U3 & Mi3 & Hi3 & _).
  { rewrite U2, !elem_of_cons, elem_of_nil. intros [?|[?|[]]]; congruence. }
  rewrite U2 in U3. simpl in U3. rewrite Mi2 in Mi3. rewrite Hi2 in Hi3.
  destruct H4 as (U4 & Hi4 & Mi4); [rewrite U3; left|].
  rewrite U3, spliceKey_cons, decide_True in U4 by done. simpl in U4.
  rewrite Hi3 in Hi4. rewrite Mi3 in Mi4.
  destruct H5 as (U5 & Hi5 & Mi5); [rewrite U4; left|].
  rewrite U4, spliceKey_cons, decide_True in U5 by done. simpl in U5.
  rewrite Hi4 in Hi5. rewrite Mi4 in Mi5.
  destruct M6 as (U6 & Mi6 & Hi6 & He6).
  { rewrite U5, !elem_of_cons, elem_of_nil. intros [?|[?|[]]]; congruence. }
  rewrite U5 in U6. simpl in U6. rewrite Mi5 in Mi6. rewrite Hi5 in Hi6.
  split_and!; try done.
  - apply set_eq. intros k. destruct I3 as (_ & Hkeys & _).
    rewrite elem_of_dom, <- Hkeys, U3, !elem_of_cons, elem_of_nil.
    rewrite elem_of_union, !elem_of_singleton. tauto.
  - apply Hgone; [done|].
    rewrite U3, !elem_of_cons, elem_of_nil. intros [?|[?|[]]]; congruence.
  - apply Hgone; [done|].
    rewrite U5, !elem_of_cons, elem_of_nil. intros [?|[?|[]]]; congruence.
  - assert (ka ∈ keyUsage s6.1) as Hin by (rewrite U6; right; left).
    destruct I6 as (_ & Hkeys & _). apply Hkeys in Hin as [e He].
    exists e. split; [done|]. by apply He6.
Qed.

Lemma lru_eviction_order_witness :
  let cfg := TestFixture.configure (TestFixture.withMaxSize 2) in
  let ca := TestFixture.select 1 10 in
  let cb := TestFixture.select 2 11 in
  let cc := TestFixture.select 3 12 in
  let run := performAll id TestFixture.findItem cfg in
  let s3 := run [Invoke ca; Invoke cb; Invoke cc] (emptyFactory, tt) in
  maxSize cfg = Some 2 ∧ expireAfter cfg = None
  ∧ getCacheKeyForParams (params ca) ≠ getCacheKeyForParams (params cb)
  ∧ getCacheKeyForParams (params ca) ≠ getCacheKeyForParams (params cc)
  ∧ getCacheKeyForParams (params cb) ≠ getCacheKeyForParams (params cc)
  ∧ keyUsage s3.1 = ["[2]"; "[3]"]
  ∧ totalMisses (run [Invoke ca] (run [Invoke cb; Invoke cc] s3)).1 = 4%nat.
Proof.
  intros cfg ca cb cc run s3.
  split; [reflexivity|]. split; [reflexivity|].
  split; [vm_compute; discriminate|]. split; [vm_compute; discriminate|].
  split; [vm_compute; discriminate|].
  destruct (lru_eviction_order id TestFixture.findItem cfg ca cb cc cb cc ca tt)
    as ((_ & H3 & _) & _ & (H6 & _));
    [reflexivity|reflexivity|vm_compute; discriminate|vm_compute; discriminate
    |vm_compute; discriminate|reflexivity..|].
  split; [exact H3|exact H6].
Defined.

(** C9, what the code does. With [trackPerformance] on, two calls of the
    test selector with argument 1: the first computation runs from clock
    reading 1000 to 1005, the second from 2000 to 2001. The durations are 5
    and 1. The entry and the factory-wide total hold 1005 after the first
    call and 2001 after the second: [computeResult] subtracts the
    accumulated [executionTime] from [performance.now()], so what accumulates
    is the last clock reading, not the sum of the durations. *)
Theorem executionTime_is_last_clock_reading :
  let cfg := TestFixture.configure TestFixture.withPerformance in
  let c1 := {| state := TestFixture.mockState; params := [VNum (NumInt 1)];
               now := 10; perfStart := 1000; perfNow := 1005 |} in
  let c2 := {| state := TestFixture.mockState; params := [VNum (NumInt 1)];
               now := 20; perfStart := 2000; perfNow := 2001 |} in
  let f1 := (factorySelector id TestFixture.findItem cfg c1 emptyFactory tt).1.2 in
  let f2 := (factorySelector id TestFixture.findItem cfg c2 f1 tt).1.2 in
  let durations := (perfNow c1 - perfStart c1) + (perfNow c2 - perfStart c2) in
  trackPerformance cfg = Some true
  ∧ totalExecutionTime f1 = 1005
  ∧ executionTime <$> selectorCache f1 !! "[1]" = Some 1005
  ∧ totalExecutionTime f2 = 2001
  ∧ executionTime <$> selectorCache f2 !! "[1]" = Some 2001
  ∧ durations = 6
  ∧ totalExecutionTime f2 ≠ durations.
Proof. vm_compute. split_and!; try reflexivity. discriminate. Qed.

(** * Further properties of the code *)

(** ** The entry store *)

(** X1. In every state that a sequence of calls, [clearCache] and
    [invalidateCache] reaches from a fresh factory, whatever the options:
    the LRU list has no duplicate, it lists exactly the keys of the
    mapping, and [getStats] reports as [cacheSize] the length of that list
    and as many [entries]. *)
Theorem store_stays_consistent
    {State Params Result Exn World : Type} `{!EqDecision State}
    (toArgs : Params → list Value)
    (selectorFn : State → Params → World → (Exn + Result) * World)
    (cfg : ParameterizedSelectorOptions Result)
    (ops : list (@Operation State Params)) (w0 : World) (t : Z) :
  let f := (performAll toArgs selectorFn cfg ops (emptyFactory, w0)).1 in
  NoDup (keyUsage f)
  ∧ (∀ k, k ∈ keyUsage f ↔ is_Some (selectorCache f !! k))
  ∧ cacheSize (getStats cfg t f) = length (keyUsage f)
  ∧ length (entries (getStats cfg t f)) = cacheSize (getStats cfg t f).
Proof.
  intros f.
  assert (StoreInv f) as Hinv.
  { apply performAll_StoreInv. apply consistent_empty. }
  pose proof (consistent_size _ _ Hinv) as Hsize.
  destruct Hinv as (Hnd & Hkeys & _).
  split_and!; [done..|].
  simpl. by rewrite length_map, length_map_to_list.
Qed.

(** X2. The two counters count the calls: after any sequence of operations
    on a fresh factory [totalHits + totalMisses] is the number of calls of
    the selector in it, including the calls in which the wrapped selector
    threw; [clearCache] and [invalidateCache] leave the counters alone. So
    the hit rate of [getStats] is [totalHits] over the number of calls (over
    1 before the first call), and it is at most 1. *)
Theorem counters_count_calls
    {State Params Result Exn World : Type} `{!EqDecision State}
    (toArgs : Params → list Value)
    (selectorFn : State → Params → World → (Exn + Result) * World)
    (cfg : ParameterizedSelectorOptions Result)
    (ops : list (@Operation State Params)) (w0 : World) (t : Z) :
  let stats := getStats cfg t (performAll toArgs selectorFn cfg ops (emptyFactory, w0)).1 in
  let calls := length (invocations ops) in
  (st_totalHits stats + st_totalMisses stats = calls)%nat
  ∧ hitRate stats = (st_totalHits stats, Nat.max 1 calls)
  ∧ ((hitRate stats).1 ≤ (hitRate stats).2)%nat.
Proof.
  intros stats calls.
  pose proof (performAll_counters toArgs selectorFn cfg ops (emptyFactory, w0)) as Hc.
  cbv zeta in Hc. simpl in Hc.
  assert (st_totalHits stats + st_totalMisses stats = calls)%nat as Hsum by done.
  split; [done|]. unfold stats in *. simpl in *. rewrite Hsum.
  split; [done|]. lia.
Qed.

(** X3. Every entry that is stored, in any reachable state, was created
    for an argument tuple whose key is the key it is stored under; its
    [misses] field is 1 (it is set at creation and never changed); and its
    hits do not exceed [totalHits]. *)
Theorem stored_entries_keyed
    {State Params Result Exn World : Type} `{!EqDecision State}
    (toArgs : Params → list Value)
    (selectorFn : State → Params → World → (Exn + Result) * World)
    (cfg : ParameterizedSelectorOptions Result)
    (ops : list (@Operation State Params)) (w0 : World)
    (k : string) (e : CacheEntry State Params Result) :
  let f := (performAll toArgs selectorFn cfg ops (emptyFactory, w0)).1 in
  selectorCache f !! k = Some e →
  getCacheKeyForParams (toArgs (boundParams (selector e))) = k
  ∧ misses e = 1%nat
  ∧ (hits e ≤ totalHits f)%nat.
Proof.
  intros f. apply (performAll_entriesKeyed toArgs selectorFn cfg ops (emptyFactory, w0)).
  intros k' e'. simpl. by rewrite lookup_empty.
Qed.

Lemma stored_entries_keyed_witness :
  let cfg := TestFixture.configure TestFixture.noOptions in
  let f := (performAll id TestFixture.findItem cfg
              [Invoke (TestFixture.select 1 10); Invoke (TestFixture.select 1 11)]
              (emptyFactory, tt)).1 in
  let e := {| selector := {| boundParams := [VNum (NumInt 1)];
                             memo := Some (TestFixture.mockState, Some (1, "one")) |};
              lastUsed := 11; created := 10; hits := 1; misses := 1;
              executionTime := 0 |} in
  selectorCache f !! "[1]" = Some e
  ∧ getCacheKeyForParams (boundParams (selector e)) = "[1]"
  ∧ misses e = 1%nat.
Proof.
  intros cfg f e.
  assert (selectorCache f !! "[1]" = Some e) as Hstored by reflexivity.
  split; [exact Hstored|].
  destruct (stored_entries_keyed id TestFixture.findItem cfg
              [Invoke (TestFixture.select 1 10); Invoke (TestFixture.select 1 11)]
              tt "[1]" e Hstored) as (H1 & H2 & _).
  split; [exact H1|exact H2].
Defined.

(** X4. The cache is transparent for a pure selector. When the wrapped
    selector is a function of the state and of the arguments (it returns or
    throws, and does not depend on anything else) and the configured
    [equalityCheck] accepts equal results only, then in every reachable
    state every call returns (or throws) what the selector itself gives for
    the state of the call and for an argument tuple with the same key as
    the arguments of the call; when no other tuple has that key, the call
    returns exactly [selector(state, ...params)]. *)
Theorem cache_transparent
    {State Params Result Exn World : Type} `{!EqDecision State}
    (toArgs : Params → list Value)
    (sel : State → Params → Exn + Result)
    (cfg : ParameterizedSelectorOptions Result)
    (ops : list (@Operation State Params)) (w0 : World)
    (c : Invocation State Params) :
  (∀ eq a b, equalityCheck cfg = Some eq → eq a b = true → a = b) →
  let reached := performAll toArgs (pureSelector sel) cfg ops (emptyFactory, w0) in
  let r := factorySelector toArgs (pureSelector sel) cfg c reached.1 reached.2 in
  let k := getCacheKeyForParams (toArgs (params c)) in
  (∃ p0, getCacheKeyForParams (toArgs p0) = k ∧ r.1.1 = sel (state c) p0)
  ∧ ((∀ p, getCacheKeyForParams (toArgs p) = k → p = params c) →
     r.1.1 = sel (state c) (params c)).
Proof.
  intros Heq reached r k.
  assert (entriesSound toArgs sel reached.1) as Hsound.
  { apply (performAll_entriesSound toArgs sel cfg Heq ops (emptyFactory, w0)).
    apply emptyFactory_entriesSound. }
  destruct (factorySelector_pure toArgs sel cfg Heq c reached.1 reached.2 Hsound)
    as (_ & _ & p0 & Hk & Hres & _).
  fold r in Hres. split; [by exists p0|].
  intros Hinj. by rewrite Hres, (Hinj p0 Hk).
Qed.

Lemma cache_transparent_witness :
  let cfg := TestFixture.configure TestFixture.noOptions in
  let ops := [Invoke (TestFixture.select 1 10); Invoke (TestFixture.select 2 11)] in
  let c := TestFixture.select 2 12 in
  let reached := performAll (World := unit) id (pureSelector TestFixture.findItemPure)
                   cfg ops (emptyFactory, tt) in
  (∀ eq a b, equalityCheck cfg = Some eq → eq a b = true → a = b)
  ∧ ∃ p0, getCacheKeyForParams p0 = "[2]"
          ∧ (factorySelector id (pureSelector TestFixture.findItemPure) cfg c
               reached.1 reached.2).1.1
            = TestFixture.findItemPure TestFixture.mockState p0.
Proof.
  intros cfg ops c reached.
  assert (∀ eq a b, equalityCheck cfg = Some eq → eq a b = true → a = b) as Heq.
  { intros eq a b [= <-] Hab. exact (bool_decide_eq_true_1 _ Hab). }
  split; [exact Heq|].
  exact (proj1 (cache_transparent id TestFixture.findItemPure cfg ops tt c Heq)).
Defined.

(** X5. Arguments that encode to the same key share one entry. In a
    reachable state with room for at least one entry, after a call that
    returned a result, a call with the same state and with other arguments
    that have the same cache key (and whose entry has not expired) is a hit
    and returns the result computed for the first arguments; the wrapped
    selector is not run for the new arguments. *)
Theorem colliding_arguments_share_entry
    {State Params Result Exn World : Type} `{!EqDecision State}
    (toArgs : Params → list Value)
    (selectorFn : State → Params → World → (Exn + Result) * World)
    (cfg : ParameterizedSelectorOptions Result) (m : Z)
    (ops : list (@Operation State Params)) (w0 : World)
    (c1 c2 : Invocation State Params)
    (res : Result) (f1 : Factory State Params Result) (w1 : World) :
  let reached := performAll toArgs selectorFn cfg ops (emptyFactory, w0) in
  let k := getCacheKeyForParams (toArgs (params c1)) in
  maxSize cfg = Some m → 1 ≤ m →
  getCacheKeyForParams (toArgs (params c2)) = k →
  state c2 = state c1 →
  factorySelector toArgs selectorFn cfg c1 reached.1 reached.2 = (inr res, f1, w1) →
  (∀ e, selectorCache f1 !! k = Some e → expired cfg e (now c2) = false) →
  let r2 := factorySelector toArgs selectorFn cfg c2 f1 w1 in
  r2.1.1 = inr res ∧ r2.2 = w1
  ∧ totalHits r2.1.2 = S (totalHits f1)
  ∧ totalMisses r2.1.2 = totalMisses f1.
Proof.
  intros reached k Hm Hpos Hk Hstate Hfirst Hfresh r2.
  assert (StoreInv reached.1) as Hinv.
  { apply performAll_StoreInv. apply consistent_empty. }
  destruct (factorySelector_memoized toArgs selectorFn cfg c1 reached.1 reached.2 m
              res f1 w1 Hm Hpos Hinv Hfirst) as (e1 & He1 & Hmemo).
  fold k in He1. rewrite <- Hk in He1. rewrite <- Hstate in Hmemo.
  destruct (factorySelector_hit toArgs selectorFn cfg c2 f1 w1 e1 He1)
    as (Hh & Hmi & _ & Hres).
  { apply Hfresh. by rewrite <- Hk. }
  fold r2 in Hh, Hmi, Hres. destruct (Hres res Hmemo) as [? ?]. done.
Qed.

Lemma colliding_arguments_share_entry_witness :
  let cfg := TestFixture.configure TestFixture.noOptions in
  let c1 := {| state := TestFixture.mockState; params := [VNull]; now := 10;
               perfStart := 0; perfNow := 0 |} in
  let c2 := {| state := TestFixture.mockState; params := [VUndefined]; now := 11;
               perfStart := 0; perfNow := 0 |} in
  let r1 := factorySelector id TestFixture.findItem cfg c1 emptyFactory tt in
  let r2 := factorySelector id TestFixture.findItem cfg c2 r1.1.2 r1.2 in
  maxSize cfg = Some 10 ∧ 1 ≤ 10
  ∧ getCacheKeyForParams (params c2) = getCacheKeyForParams (params c1)
  ∧ state c2 = state c1
  ∧ r1 = (inr None, r1.1.2, r1.2)
  ∧ totalHits r2.1.2 = S (totalHits r1.1.2).
Proof.
  intros cfg c1 c2 r1 r2. split; [reflexivity|]. split; [lia|].
  split; [reflexivity|]. split; [reflexivity|]. split; [reflexivity|].
  refine (proj1 (proj2 (proj2 (colliding_arguments_share_entry id TestFixture.findItem
            cfg 10 [] tt c1 c2 None r1.1.2 r1.2 _ _ _ _ _ _))));
    [reflexivity|lia|reflexivity|reflexivity|reflexivity|intros e _; reflexivity].
Defined.

(** ** The cache keys *)

(** X6. The key of an argument tuple is never the empty string, whether it
    comes from [JSON.stringify] or from the fallback of the [catch] branch.
    So the test [if (oldestKey)] of the eviction never skips the deletion of
    a key that [getCacheKeyForParams] produced. *)
Theorem cache_key_never_empty
    {E : Type} (args : list Value) (cache : gmap string E) (rest : list string) :
  getCacheKeyForParams args ≠ ""
  ∧ (if decide (getCacheKeyForParams args = "") then cache
     else delete (getCacheKeyForParams args) cache)
    = delete (getCacheKeyForParams args) cache.
Proof.
  pose proof (getCacheKeyForParams_nonempty args) as Hne.
  split; [done|]. by rewrite decide_False.
Qed.

(** X7. Round trip. For a tuple of [null], booleans, strings and integer
    numbers, [JSON.parse] of the cache key gives back the tuple: this is
    what the predicate of [invalidateCache] receives. *)
Theorem key_round_trip (args : list Value) :
  Forall (λ v, exactPrimitive v = true) args →
  JSON_parse (getCacheKeyForParams args) = Some (VArray args).
Proof. apply JSON_parse_getCacheKeyForParams. Qed.

Lemma key_round_trip_witness :
  let args := [VNum (NumInt (-12)); VStr "a,b]"; VNull; VBool true] in
  Forall (λ v, exactPrimitive v = true) args
  ∧ JSON_parse (getCacheKeyForParams args) = Some (VArray args).
Proof.
  intros args.
  assert (Forall (λ v, exactPrimitive v = true) args) as Hall
    by (repeat constructor).
  split; [exact Hall|]. exact (key_round_trip args Hall).
Defined.

(** X8. Distinct tuples of [null], booleans, strings and integer numbers
    have distinct keys: on such tuples the structural key is injective
    (commas, quotes and brackets inside strings cannot forge a key). *)
Theorem key_injective_on_exact_primitives (args1 args2 : list Value) :
  Forall (λ v, exactPrimitive v = true) args1 →
  Forall (λ v, exactPrimitive v = true) args2 →
  getCacheKeyForParams args1 = getCacheKeyForParams args2 →
  args1 = args2.
Proof.
  intros H1 H2 Hkey.
  pose proof (JSON_parse_getCacheKeyForParams args1 H1) as R1.
  pose proof (JSON_parse_getCacheKeyForParams args2 H2) as R2.
  rewrite Hkey in R1. congruence.
Qed.

Lemma key_injective_on_exact_primitives_witness :
  let args1 := [VStr "a"; VStr "b"] in
  let args2 := [VStr "a"; VStr "b"] in
  Forall (λ v, exactPrimitive v = true) args1
  ∧ Forall (λ v, exactPrimitive v = true) args2
  ∧ getCacheKeyForParams args1 = getCacheKeyForParams args2
  ∧ args1 = args2.
Proof.
  intros args1 args2.
  assert (Forall (λ v, exactPrimitive v = true) args1) as H1 by (repeat constructor).
  assert (Forall (λ v, exactPrimitive v = true) args2) as H2 by (repeat constructor).
  split; [exact H1|]. split; [exact H2|]. split; [reflexivity|].
  exact (key_injective_on_exact_primitives args1 args2 H1 H2 eq_refl).
Defined.

(** X9. What [JSON.stringify] cannot represent collides. When the
    structural encoding does not throw, replacing among the arguments
    [undefined], a symbol, [NaN] or an infinity by [null], and [-0] by [0],
    does not change the key: such tuples share one cache entry. *)
Theorem unrepresentable_arguments_collide (args : list Value) :
  Forall (λ v, SerializeJSONProperty v ≠ Throws) args →
  getCacheKeyForParams (map asSerialized args) = getCacheKeyForParams args.
Proof. apply getCacheKeyForParams_asSerialized. Qed.

Lemma unrepresentable_arguments_collide_witness :
  let args := [VUndefined; VNum NumNaN; VNum NumNegZero; VStr "x"] in
  Forall (λ v, SerializeJSONProperty v ≠ Throws) args
  ∧ getCacheKeyForParams [VNull; VNull; VNum (NumInt 0); VStr "x"]
    = getCacheKeyForParams args.
Proof.
  intros args.
  assert (Forall (λ v, SerializeJSONProperty v ≠ Throws) args) as Hall.
  { repeat constructor; discriminate. }
  split; [exact Hall|]. exact (unrepresentable_arguments_collide args Hall).
Defined.

(** X10. What the predicate of [invalidateCache] sees. For a tuple of
    primitive arguments (no BigInt), decoding the key succeeds and gives
    the tuple as serialized: with [null] in place of [undefined], of a
    symbol, of [NaN] and of the infinities, and with [0] in place of [-0]. *)
Theorem decoded_key_is_serialized_view (args : list Value) :
  Forall (λ v, plainPrimitive v = true) args →
  JSON_parse (getCacheKeyForParams args) = Some (VArray (map asSerialized args)).
Proof.
  intros Hall.
  rewrite <- getCacheKeyForParams_asSerialized
    by (eapply Forall_impl; [done|apply plainPrimitive_serializes]).
  apply JSON_parse_getCacheKeyForParams, Forall_fmap.
  eapply Forall_impl; [done|]. apply asSerialized_exact.
Qed.

Lemma decoded_key_is_serialized_view_witness :
  let args := [VUndefined; VNum NumPosInf; VNum (NumInt 2)] in
  Forall (λ v, plainPrimitive v = true) args
  ∧ JSON_parse (getCacheKeyForParams args)
    = Some (VArray [VNull; VNull; VNum (NumInt 2)]).
Proof.
  intros args.
  assert (Forall (λ v, plainPrimitive v = true) args) as Hall by (repeat constructor).
  split; [exact Hall|]. exact (decoded_key_is_serialized_view args Hall).
Defined.

(** ** Pagination *)

(** X11. The pages partition the array. For a positive page size, the
    items of the pages [0 .. totalPages - 1], one after the other, are the
    source array: no item is lost and none is repeated. *)
Theorem pages_partition_array {T : Type} (array : list T) (size : Z) :
  0 < size →
  concat (map (λ p, items (paginate array p size))
              (seqZ 0 (totalPages (pagination (paginate array 0 size)))))
  = array.
Proof. apply paginate_pages_concat. Qed.

Lemma pages_partition_array_witness :
  0 < 2
  ∧ concat (map (λ p, items (paginate TestFixture.mockState p 2))
                (seqZ 0 (totalPages (pagination (paginate TestFixture.mockState 0 2)))))
    = TestFixture.mockState.
Proof. split; [lia|]. apply (pages_partition_array TestFixture.mockState 2). lia. Defined.

(** X12. What a page holds. For a positive page size and any requested
    page, with [p] the [currentPage] of the result: the items are the [size]
    items from position [p * size] on (fewer at the end of the array), at
    most [size] of them; [hasNextPage] says that items remain after this
    page and [hasPreviousPage] that [p] is not the first page. *)
Theorem page_contents {T : Type} (array : list T) (page size : Z) :
  0 < size →
  let r := paginate array page size in
  let p := currentPage (pagination r) in
  let n := Z.of_nat (length array) in
  items r = take (Z.to_nat size) (drop (Z.to_nat (p * size)) array)
  ∧ Z.of_nat (length (items r)) = Z.min size (Z.max 0 (n - p * size))
  ∧ (hasNextPage (pagination r) = true ↔ (p + 1) * size < n)
  ∧ (hasPreviousPage (pagination r) = true ↔ 0 < p)
  ∧ totalItems (pagination r) = n
  ∧ pageSize (pagination r) = size.
Proof.
  intros Hs r p n.
  pose proof (paginate_items array page size Hs) as Hitems. cbv zeta in Hitems.
  fold r p in Hitems.
  assert (0 ≤ p) as Hp by (unfold p, r; simpl; lia).
  split_and!; [done| | | |done..].
  - rewrite Hitems, length_take, length_drop. fold n. lia.
  - unfold r, p, n. simpl. rewrite Z.ltb_lt.
    pose proof (Math_ceil_div_spec (Z.of_nat (length array)) size Hs ltac:(lia)) as Hspec.
    revert Hspec. generalize (Math_ceil_div (Z.of_nat (length array)) size).
    intros pages [[Hlo Hhi]|[Hz Hpz]]; split; intros H; nia.
  - unfold r, p. simpl. by rewrite Z.ltb_lt.
Qed.

Lemma page_contents_witness :
  0 < 2
  ∧ items (paginate TestFixture.mockState 1 2)
    = take (Z.to_nat 2)
        (drop (Z.to_nat (currentPage (pagination (paginate TestFixture.mockState 1 2)) * 2))
           TestFixture.mockState).
Proof.
  split; [lia|].
  exact (proj1 (page_contents TestFixture.mockState 1 2 ltac:(lia))).
Defined.





(** ** dateUtils *)

(** X15. [formatRelativeTime] picks the largest unit that fits and counts
    whole units of it. Below one second the text is "just now" (also for a
    negative difference); then seconds up to 59, minutes up to 59, hours up
    to 23, days up to 29, months (of 30 days) up to 12, and years. The
    label takes an "s" unless the count is 1. *)
Theorem relative_time_units (d : Z) :
  let text (count : Z) (label : string) :=
    pretty count +:+ " " +:+ label +:+ (if count =? 1 then "" else "s") +:+ " ago" in
  (d < 1 → DateUtils.formatRelativeTime d = "just now")
  ∧ (1 ≤ d < 60 → DateUtils.formatRelativeTime d = text d "second")
  ∧ (60 ≤ d < 3600 →
     DateUtils.formatRelativeTime d = text (d / 60) "minute" ∧ 1 ≤ d / 60 ≤ 59)
  ∧ (3600 ≤ d < 86400 →
     DateUtils.formatRelativeTime d = text (d / 3600) "hour" ∧ 1 ≤ d / 3600 ≤ 23)
  ∧ (86400 ≤ d < 2592000 →
     DateUtils.formatRelativeTime d = text (d / 86400) "day" ∧ 1 ≤ d / 86400 ≤ 29)
  ∧ (2592000 ≤ d < 31536000 →
     DateUtils.formatRelativeTime d = text (d / 2592000) "month"
     ∧ 1 ≤ d / 2592000 ≤ 12)
  ∧ (31536000 ≤ d →
     DateUtils.formatRelativeTime d = text (d / 31536000) "year"
     ∧ 1 ≤ d / 31536000).
Proof.
  intros text. unfold text.
  assert (∀ b lo hi, 0 < b → lo * b ≤ d → d < (hi + 1) * b → lo ≤ d / b ≤ hi) as Hbound.
  { intros b lo hi Hb Hlo Hhi. split.
    - apply Z.div_le_lower_bound; lia.
    - apply Z.lt_succ_r, Z.div_lt_upper_bound; lia. }
  split_and!.
  - apply DateUtils_formatRelativeTime_none.
  - intros [Hlo Hhi]. rewrite <- (Z.div_1_r d) at 2 3.
    apply (DateUtils_formatRelativeTime_unit d 1 "second"
             [(DateUtils.YEAR, "year"); (DateUtils.MONTH, "month");
              (DateUtils.DAY, "day"); (DateUtils.HOUR, "hour");
              (DateUtils.MINUTE, "minute")] []); [done| |done].
    repeat constructor; cbn [fst];
      unfold DateUtils.MINUTE, DateUtils.HOUR, DateUtils.DAY, DateUtils.MONTH,
        DateUtils.YEAR; lia.
  - intros [Hlo Hhi]. split; [|apply Hbound; lia].
    apply (DateUtils_formatRelativeTime_unit d 60 "minute"
             [(DateUtils.YEAR, "year"); (DateUtils.MONTH, "month");
              (DateUtils.DAY, "day"); (DateUtils.HOUR, "hour")]
             [(DateUtils.SECOND, "second")]); [done| |done].
    repeat constructor; cbn [fst];
      unfold DateUtils.MINUTE, DateUtils.HOUR, DateUtils.DAY, DateUtils.MONTH,
        DateUtils.YEAR; lia.
  - intros [Hlo Hhi]. split; [|apply Hbound; lia].
    apply (DateUtils_formatRelativeTime_unit d 3600 "hour"
             [(DateUtils.YEAR, "year"); (DateUtils.MONTH, "month");
              (DateUtils.DAY, "day")]
             [(DateUtils.MINUTE, "minute"); (DateUtils.SECOND, "second")]);
      [done| |done].
    repeat constructor; cbn [fst];
      unfold DateUtils.MINUTE, DateUtils.HOUR, DateUtils.DAY, DateUtils.MONTH,
        DateUtils.YEAR; lia.
  - intros [Hlo Hhi]. split; [|apply Hbound; lia].
    apply (DateUtils_formatRelativeTime_unit d 86400 "day"
             [(DateUtils.YEAR, "year"); (DateUtils.MONTH, "month")]
             [(DateUtils.HOUR, "hour"); (DateUtils.MINUTE, "minute");
              (DateUtils.SECOND, "second")]); [done| |done].
    repeat constructor; cbn [fst];
      unfold DateUtils.MINUTE, DateUtils.HOUR, DateUtils.DAY, DateUtils.MONTH,
        DateUtils.YEAR; lia.
  - intros [Hlo Hhi]. split; [|apply Hbound; lia].
    apply (DateUtils_formatRelativeTime_unit d 2592000 "month"
             [(DateUtils.YEAR, "year")]
             [(DateUtils.DAY, "day"); (DateUtils.HOUR, "hour");
              (DateUtils.MINUTE, "minute"); (DateUtils.SECOND, "second")]);
      [done| |done].
    repeat constructor; cbn [fst];
      unfold DateUtils.MINUTE, DateUtils.HOUR, DateUtils.DAY, DateUtils.MONTH,
        DateUtils.YEAR; lia.
  - intros Hlo. split; [|apply Z.div_le_lower_bound; lia].
    apply (DateUtils_formatRelativeTime_unit d 31536000 "year" []
             [(DateUtils.MONTH, "month"); (DateUtils.DAY, "day");
              (DateUtils.HOUR, "hour"); (DateUtils.MINUTE, "minute");
              (DateUtils.SECOND, "second")]); [done|constructor|done].
Qed.

Lemma relative_time_units_witness :
  60 ≤ 125 < 3600
  ∧ DateUtils.formatRelativeTime 125 = "2 minutes ago" ∧ 1 ≤ 125 / 60 ≤ 59.
Proof.
  split; [lia|].
  exact (proj1 (proj2 (proj2 (relative_time_units 125))) ltac:(lia)).
Defined.

(** X16. [relativeTime] never fails. For a timestamp outside the range of
    [Date] the text is the message of the error that was thrown inside,
    "Invalid timestamp" (the fallback "Invalid Time" handed to
    [withErrorHandling] is not what comes back); for a valid timestamp less
    than a second old, or in the future, the text is "just now"; otherwise
    it is [formatRelativeTime] of the whole seconds elapsed. *)
Theorem relativeTime_cases (now timestamp : Z) :
  (DateUtils.validateTimestamp timestamp = false →
   DateUtils.relativeTime now timestamp = "Invalid timestamp")
  ∧ (DateUtils.validateTimestamp timestamp = true → now - timestamp < 1000 →
     DateUtils.relativeTime now timestamp = "just now")
  ∧ (DateUtils.validateTimestamp timestamp = true → 1000 ≤ now - timestamp →
     DateUtils.relativeTime now timestamp
     = DateUtils.formatRelativeTime ((now - timestamp) / 1000)
     ∧ 1 ≤ (now - timestamp) / 1000).
Proof.
  unfold DateUtils.relativeTime, DateUtils.withErrorHandling. split_and!.
  - by intros ->.
  - intros -> Hrecent. cbn [negb]. apply DateUtils_formatRelativeTime_none.
    apply Z.div_lt_upper_bound; lia.
  - intros -> Hold. cbn [negb]. split; [done|]. apply Z.div_le_lower_bound; lia.
Qed.

Lemma relativeTime_cases_witness :
  DateUtils.validateTimestamp 1000 = true ∧ 1000 ≤ 126000 - 1000
  ∧ DateUtils.relativeTime 126000 1000 = DateUtils.formatRelativeTime 125
  ∧ 1 ≤ (126000 - 1000) / 1000.
Proof.
  assert (DateUtils.validateTimestamp 1000 = true) as Hvalid by reflexivity.
  split; [exact Hvalid|]. split; [lia|].
  exact (proj2 (proj2 (relativeTime_cases 126000 1000)) Hvalid ltac:(lia)).
Defined.




(** ** Clearing and invalidating *)

(** X19. [clearCache] empties the store and the LRU list and keeps the
    counters; the next call, for any arguments, is a miss (also for
    arguments that had an entry), whose key is then the only one listed
    unless [maxSize] leaves no room for it. *)
Theorem clearCache_then_miss
    {State Params Result Exn World : Type} `{!EqDecision State}
    (toArgs : Params → list Value)
    (selectorFn : State → Params → World → (Exn + Result) * World)
    (cfg : ParameterizedSelectorOptions Result)
    (f : Factory State Params Result) (c : Invocation State Params) (w : World) (t : Z) :
  let cleared := clearCache f in
  let f' := (factorySelector toArgs selectorFn cfg c cleared w).1.2 in
  cacheSize (getStats cfg t cleared) = 0%nat
  ∧ keyUsage cleared = []
  ∧ totalHits cleared = totalHits f ∧ totalMisses cleared = totalMisses f
  ∧ totalMisses f' = S (totalMisses f) ∧ totalHits f' = totalHits f
  ∧ dom (selectorCache f') ⊆ {[getCacheKeyForParams (toArgs (params c))]}.
Proof.
  intros cleared f'.
  assert (missing cfg cleared (getCacheKeyForParams (toArgs (params c))) (now c)) as Hmiss.
  { unfold missing. simpl. by rewrite lookup_empty. }
  destruct (factorySelector_miss toArgs selectorFn cfg c cleared w Hmiss) as (Hm & Hh & _).
  destruct (factorySelector_store toArgs selectorFn cfg c cleared w) as (Hdom & _).
  destruct (getOrCreate_miss toArgs cfg (params c) (now c) cleared Hmiss)
    as (_ & Hcache & _).
  split_and!; [done..|].
  fold f' in Hdom. rewrite Hdom, Hcache. simpl.
  destruct (greaterThan _ (maxSize cfg)); simpl.
  - rewrite decide_False by apply getCacheKeyForParams_nonempty.
    rewrite dom_delete_L, dom_insert_L. set_solver.
  - rewrite dom_insert_L. set_solver.
Qed.


(** ** Order of use, capacity zero, and what a call leaves alone *)

(** X21. With room for at least one entry, a call makes its key the most
    recently used one and keeps the order of the others: the LRU list after
    the call is the list before without the key, followed by the key, or
    that list without its first element when the call had to evict. A call
    for a key that is listed, fresh or expired, never evicts. The key of
    the call always has an entry afterwards. *)
Theorem called_key_becomes_most_recent
    {State Params Result Exn World : Type} `{!EqDecision State}
    (toArgs : Params → list Value)
    (selectorFn : State → Params → World → (Exn + Result) * World)
    (cfg : ParameterizedSelectorOptions Result) (m : Z)
    (ops : list (@Operation State Params)) (w0 : World)
    (c : Invocation State Params) :
  maxSize cfg = Some m → 1 ≤ m →
  let fw := performAll toArgs selectorFn cfg ops (emptyFactory, w0) in
  let k := getCacheKeyForParams (toArgs (params c)) in
  let others := filter (λ x, x ≠ k) (keyUsage fw.1) in
  let f' := (factorySelector toArgs selectorFn cfg c fw.1 fw.2).1.2 in
  is_Some (selectorCache f' !! k)
  ∧ (keyUsage f' = others ++ [k] ∨ keyUsage f' = tail others ++ [k])
  ∧ (k ∈ keyUsage fw.1 → keyUsage f' = others ++ [k]).
Proof.
  intros Hmax Hm fw k others f'.
  destruct (performAll_invariant toArgs selectorFn cfg ops (emptyFactory, w0))
    as [Hinv Hcap].
  { apply (emptyFactory_invariant cfg m); [done|lia]. }
  fold fw in Hinv, Hcap.
  destruct (factorySelector_store toArgs selectorFn cfg c fw.1 fw.2)
    as (_ & Husage & _ & _ & Hinv').
  specialize (Hinv' Hinv). fold f' in Husage, Hinv'.
  pose proof (getCacheKeyForParams_nonempty (toArgs (params c))) as Hkey. fold k in Hkey.
  assert (spliceKey k (keyUsage fw.1) = others) as Hsplice.
  { apply spliceKey_filter. apply Hinv. }
  assert (keyUsage f' = others ++ [k]
          ∨ ((k ∉ keyUsage fw.1) ∧ keyUsage f' = tail others ++ [k])) as Hcases.
  { rewrite Husage.
    destruct (hit_or_miss toArgs cfg (params c) (now c) fw.1)
      as [(e & Hfound & Hfresh)|Hmiss].
    - destruct (getOrCreate_hit toArgs cfg (params c) (now c) fw.1 e Hfound Hfresh)
        as (_ & _ & -> & _).
      fold k. rewrite Hsplice. by left.
    - destruct (getOrCreate_miss toArgs cfg (params c) (now c) fw.1 Hmiss)
        as (_ & _ & -> & _).
      fold k. rewrite Hsplice, Hmax. unfold greaterThan.
      pose proof (consistent_touch _ _ k (newEntry (params c) (now c)) Hinv Hkey)
        as Htouch.
      apply consistent_size in Htouch. rewrite Hsplice in Htouch.
      destruct (Z.ltb_spec m (Z.of_nat (size (<[k:=newEntry (params c) (now c)]>
                                                (selectorCache fw.1))))) as [Hfull|Hroom];
        [|by left].
      rewrite evictOldest_usage. simpl.
      destruct (decide (k ∈ keyUsage fw.1)) as [Hin|Hout].
      + exfalso. destruct Hcap as (m' & Hm' & Hle).
        assert (m' = m) as -> by congruence.
        apply Hinv in Hin. destruct Hin as [e He].
        rewrite map_size_insert_Some in Hfull by done. lia.
      + right. split; [done|].
        rewrite Htouch, length_app in Hfull. simpl in Hfull.
        destruct others as [|oldest rest]; simpl in *; [lia|done]. }
  split_and!.
  - apply Hinv'. destruct Hcases as [->|[_ ->]]; rewrite elem_of_app, list_elem_of_singleton;
      by right.
  - destruct Hcases as [?|[_ ?]]; [by left|by right].
  - intros Hin. by destruct Hcases as [?|[? _]].
Qed.

Lemma called_key_becomes_most_recent_witness :
  let cfg := TestFixture.configure (TestFixture.withMaxSize 2) in
  let ops := [Invoke (TestFixture.select 1 10); Invoke (TestFixture.select 2 11)] in
  let fw := performAll id TestFixture.findItem cfg ops (emptyFactory, ()) in
  let k := getCacheKeyForParams [VNum (NumInt 1)] in
  let others := filter (λ x, x ≠ k) (keyUsage fw.1) in
  let f' := (factorySelector id TestFixture.findItem cfg (TestFixture.select 1 12)
               fw.1 fw.2).1.2 in
  is_Some (selectorCache f' !! k)
  ∧ (keyUsage f' = others ++ [k] ∨ keyUsage f' = tail others ++ [k])
  ∧ (k ∈ keyUsage fw.1 → keyUsage f' = others ++ [k]).
Proof.
  assert (maxSize (TestFixture.configure (TestFixture.withMaxSize 2)) = Some 2) as Hmax
    by reflexivity.
  exact (called_key_becomes_most_recent id TestFixture.findItem
           (TestFixture.configure (TestFixture.withMaxSize 2)) 2
           [Invoke (TestFixture.select 1 10); Invoke (TestFixture.select 2 11)] ()
           (TestFixture.select 1 12) Hmax ltac:(lia)).
Defined.

(** X22. With [maxSize] 0 nothing is ever kept: in every reachable state
    the store and the LRU list are empty and [totalHits] is 0, and every
    call is a miss that runs the wrapped selector on the state and the
    arguments of the call and returns or throws what it does. *)
Theorem zero_capacity_never_hits
    {State Params Result Exn World : Type} `{!EqDecision State}
    (toArgs : Params → list Value)
    (selectorFn : State → Params → World → (Exn + Result) * World)
    (cfg : ParameterizedSelectorOptions Result)
    (ops : list (@Operation State Params)) (w0 : World)
    (c : Invocation State Params) :
  maxSize cfg = Some 0 →
  let fw := performAll toArgs selectorFn cfg ops (emptyFactory, w0) in
  let r := factorySelector toArgs selectorFn cfg c fw.1 fw.2 in
  selectorCache fw.1 = ∅ ∧ keyUsage fw.1 = []
  ∧ totalHits fw.1 = 0%nat
  ∧ totalMisses fw.1 = length (invocations ops)
  ∧ r.1.1 = (selectorFn (state c) (params c) fw.2).1
  ∧ r.2 = (selectorFn (state c) (params c) fw.2).2.
Proof.
  intros Hmax.
  assert (∀ ops', selectorCache (performAll toArgs selectorFn cfg ops' (emptyFactory, w0)).1 = ∅
                  ∧ keyUsage (performAll toArgs selectorFn cfg ops' (emptyFactory, w0)).1 = [])
    as Hempty.
  { intros ops'.
    destruct (performAll_invariant toArgs selectorFn cfg ops' (emptyFactory, w0))
      as [Hinv (m & Hm & Hle)].
    { apply (emptyFactory_invariant cfg 0); [done|lia]. }
    assert (m = 0) as -> by congruence.
    pose proof (consistent_size _ _ Hinv) as Hsize.
    split.
    - apply map_size_empty_inv. lia.
    - apply length_zero_iff_nil. lia. }
  assert (∀ ops', totalHits (performAll toArgs selectorFn cfg ops' (emptyFactory, w0)).1
                  = 0%nat) as Hhits.
  { induction ops' as [|op ops' IH] using rev_ind; [done|].
    rewrite performAll_snoc. destruct op as [c'| |predicate].
    - rewrite perform_Invoke.
      destruct (factorySelector_miss toArgs selectorFn cfg c'
                  (performAll toArgs selectorFn cfg ops' (emptyFactory, w0)).1
                  (performAll toArgs selectorFn cfg ops' (emptyFactory, w0)).2)
        as (_ & -> & _); [|done].
      unfold missing. destruct (Hempty ops') as [-> _]. by rewrite lookup_empty.
    - done.
    - simpl.
      by destruct (invalidateCache_counters predicate
                     (performAll toArgs selectorFn cfg ops' (emptyFactory, w0)).1)
        as (-> & _). }
  intros fw r.
  pose proof (performAll_counters toArgs selectorFn cfg ops (emptyFactory, w0)) as Hc.
  cbv zeta in Hc. simpl in Hc. fold fw in Hc.
  destruct (Hempty ops) as [Hcache Husage]. fold fw in Hcache, Husage.
  pose proof (Hhits ops) as Hh. fold fw in Hh.
  split_and!; [done|done|done|lia|..];
    apply factorySelector_miss_runs; unfold missing; by rewrite Hcache, lookup_empty.
Qed.

Lemma zero_capacity_never_hits_witness :
  let cfg := TestFixture.configure (TestFixture.withMaxSize 0) in
  let ops := [Invoke (TestFixture.select 1 10); Invoke (TestFixture.select 1 11)] in
  let c := TestFixture.select 1 12 in
  let fw := performAll id TestFixture.findItem cfg ops (emptyFactory, ()) in
  let r := factorySelector id TestFixture.findItem cfg c fw.1 fw.2 in
  selectorCache fw.1 = ∅ ∧ keyUsage fw.1 = []
  ∧ totalHits fw.1 = 0%nat
  ∧ totalMisses fw.1 = length (invocations ops)
  ∧ r.1.1 = (TestFixture.findItem (state c) (params c) fw.2).1
  ∧ r.2 = (TestFixture.findItem (state c) (params c) fw.2).2.
Proof.
  assert (maxSize (TestFixture.configure (TestFixture.withMaxSize 0)) = Some 0) as Hmax
    by reflexivity.
  exact (zero_capacity_never_hits id TestFixture.findItem
           (TestFixture.configure (TestFixture.withMaxSize 0))
           [Invoke (TestFixture.select 1 10); Invoke (TestFixture.select 1 11)] ()
           (TestFixture.select 1 12) Hmax).
Defined.

(** X23. A call leaves the entries of the other keys alone: an entry found
    under another key after the call is the entry that was there before,
    unchanged. With a [maxSize] of at least 0, in a reachable state, a call
    whose key is stored (fresh or expired) leaves the set of stored keys as
    it is, and a call whose key is not stored, below capacity, adds its key
    and removes none. *)
Theorem call_leaves_other_entries
    {State Params Result Exn World : Type} `{!EqDecision State}
    (toArgs : Params → list Value)
    (selectorFn : State → Params → World → (Exn + Result) * World)
    (cfg : ParameterizedSelectorOptions Result) (m : Z)
    (ops : list (@Operation State Params)) (w0 : World)
    (c : Invocation State Params) :
  maxSize cfg = Some m → 0 ≤ m →
  let fw := performAll toArgs selectorFn cfg ops (emptyFactory, w0) in
  let k := getCacheKeyForParams (toArgs (params c)) in
  let f' := (factorySelector toArgs selectorFn cfg c fw.1 fw.2).1.2 in
  (∀ k' e', k' ≠ k → selectorCache f' !! k' = Some e' →
            selectorCache fw.1 !! k' = Some e')
  ∧ (k ∈ dom (selectorCache fw.1) → dom (selectorCache f') = dom (selectorCache fw.1))
  ∧ (Z.of_nat (size (selectorCache fw.1)) < m →
     dom (selectorCache f') = {[k]} ∪ dom (selectorCache fw.1)).
Proof.
  intros Hmax Hm fw k f'.
  destruct (performAll_invariant toArgs selectorFn cfg ops (emptyFactory, w0))
    as [Hinv (m' & Hm' & Hle)].
  { apply (emptyFactory_invariant cfg m); [done|lia]. }
  assert (m' = m) as -> by congruence. fold fw in Hinv, Hle.
  destruct (factorySelector_store toArgs selectorFn cfg c fw.1 fw.2) as (Hdom & _).
  fold f' in Hdom.
  destruct (getOrCreate_dom toArgs cfg (params c) (now c) fw.1 m Hmax Hinv Hle)
    as [Hsame _]. fold k in Hsame.
  split_and!.
  - intros k' e' Hne. unfold f', factorySelector.
    pose proof (getOrCreate_key toArgs cfg (params c) (now c) fw.1) as Hkey.
    pose proof (getOrCreate_lookup toArgs cfg (params c) (now c) fw.1 k' e') as Hold.
    destruct (getOrCreateCacheEntry toArgs cfg (params c) (now c) fw.1) as [[k0 e0] g].
    simpl in Hkey, Hold. subst k0. fold k in Hold |- *.
    rewrite computeResult_lookup_ne by done.
    intros Hfound. by destruct (Hold Hfound) as [[? _]|[_ ?]].
  - intros Hin. rewrite Hdom, Hsame by (by left). set_solver.
  - intros Hroom. rewrite Hdom, Hsame by (by right). done.
Qed.

Lemma call_leaves_other_entries_witness :
  let cfg := TestFixture.configure (TestFixture.withMaxSize 2) in
  let ops := [Invoke (TestFixture.select 1 10)] in
  let c := TestFixture.select 2 11 in
  let fw := performAll id TestFixture.findItem cfg ops (emptyFactory, ()) in
  let k := getCacheKeyForParams (params c) in
  let f' := (factorySelector id TestFixture.findItem cfg c fw.1 fw.2).1.2 in
  (∀ k' e', k' ≠ k → selectorCache f' !! k' = Some e' →
            selectorCache fw.1 !! k' = Some e')
  ∧ (k ∈ dom (selectorCache fw.1) → dom (selectorCache f') = dom (selectorCache fw.1))
  ∧ (Z.of_nat (size (selectorCache fw.1)) < 2 →
     dom (selectorCache f') = {[k]} ∪ dom (selectorCache fw.1)).
Proof.
  assert (maxSize (TestFixture.configure (TestFixture.withMaxSize 2)) = Some 2) as Hmax
    by reflexivity.
  exact (call_leaves_other_entries id TestFixture.findItem
           (TestFixture.configure (TestFixture.withMaxSize 2)) 2
           [Invoke (TestFixture.select 1 10)] ()
           (TestFixture.select 2 11) Hmax ltac:(lia)).
Defined.

(** X24. Logging and labelling are observation only. Two factories that
    hold the same store and counters, under options that differ at most in
    [debugLabel], [logMisses] and [logHits], answer a call with the same
    result or exception, leave the same world, and hold the same store and
    counters afterwards. *)
Theorem logging_does_not_interfere
    {State Params Result Exn World : Type} `{!EqDecision State}
    (toArgs : Params → list Value)
    (selectorFn : State → Params → World → (Exn + Result) * World)
    (cfg1 cfg2 : ParameterizedSelectorOptions Result)
    (f1 f2 : Factory State Params Result)
    (c : Invocation State Params) (w : World) :
  sameBehaviour cfg1 cfg2 → sameStore f1 f2 →
  let r1 := factorySelector toArgs selectorFn cfg1 c f1 w in
  let r2 := factorySelector toArgs selectorFn cfg2 c f2 w in
  r1.1.1 = r2.1.1 ∧ r1.2 = r2.2 ∧ sameStore r1.1.2 r2.1.2.
Proof.
  intros Hcfg Hsame. by apply factorySelector_sameStore.
Qed.

Lemma logging_does_not_interfere_witness :
  let cfg1 := TestFixture.configure TestFixture.noOptions in
  let cfg2 := TestFixture.configure
                {| maxSize := None; equalityCheck := None; debugLabel := Some "items";
                   trackPerformance := None; logMisses := Some true;
                   logHits := Some true; expireAfter := None |} in
  let c := TestFixture.select 1 10 in
  let r1 := factorySelector id TestFixture.findItem cfg1 c emptyFactory () in
  let r2 := factorySelector id TestFixture.findItem cfg2 c emptyFactory () in
  r1.1.1 = r2.1.1 ∧ r1.2 = r2.2 ∧ sameStore r1.1.2 r2.1.2.
Proof.
  assert (sameBehaviour (TestFixture.configure TestFixture.noOptions)
            (TestFixture.configure
               {| maxSize := None; equalityCheck := None; debugLabel := Some "items";
                  trackPerformance := None; logMisses := Some true;
                  logHits := Some true; expireAfter := None |})) as Hcfg
    by (unfold sameBehaviour; split_and!; reflexivity).
  assert (sameStore (@emptyFactory TestFixture.TestState (list Value) (option TestFixture.Item))
            emptyFactory) as Hsame
    by (unfold sameStore; split_and!; reflexivity).
  exact (logging_does_not_interfere id TestFixture.findItem _ _ _ _
           (TestFixture.select 1 10) () Hcfg Hsame).
Defined.

(** ** The tracked selector *)

(** X25. What [lastChangedDependencies] lists. With
    [trackDependencyChanges] on, after a run of the wrapper for a state
    that follows an earlier run, the list holds exactly the positions of
    the dependencies whose value for the new state is not [===] to their
    value for the state of the run before, each once and in increasing
    order. The run before counts whether or not its combiner threw and
    whether or not [resetStats] was called in between. *)
Theorem changed_dependencies_listed
    {State Dep Result Exn World : Type}
    (strictEquals : Dep → Dep → bool) (undefined : Dep)
    (dependencies : list (State → Dep))
    (combiner : list Dep → World → (Exn + Result) * World)
    (options : TrackedSelector.Options)
    (ops : list (@TrackedSelector.Operation State))
    (previous s : State) (startReading endReading : Z) (w : World) :
  truthyFlag (TrackedSelector.trackDependencyChanges options) = true →
  TrackedSelector.lastRun ops = Some previous →
  let t :=
    (TrackedSelector.performAll strictEquals undefined dependencies combiner options
       (ops ++ [TrackedSelector.Run s startReading endReading])
       (TrackedSelector.initial, w)).1 in
  let changed :=
    TrackedSelector.lastChangedDependencies (TrackedSelector.getStats dependencies t) in
  (∀ i : Z, i ∈ changed ↔
     ∃ (n : nat) (dependency : State → Dep),
       i = Z.of_nat n ∧ dependencies !! n = Some dependency
       ∧ strictEquals (dependency s) (dependency previous) = false)
  ∧ StronglySorted Z.lt changed.
Proof.
  intros Hflag Hprevious t changed.
  assert (changed
          = Z.of_nat <$>
              filter (λ i, strictEquals
                             (nth i ((λ d : State → Dep, d s) <$> dependencies) undefined)
                             (nth i ((λ d : State → Dep, d previous) <$> dependencies)
                                undefined) = false)
                (seq 0 (length dependencies))) as ->.
  { unfold changed, t. simpl. rewrite tracked_performAll_snoc.
    destruct (tracked_performAll_closure strictEquals undefined dependencies combiner
                options ops w) as (Hlast & _).
    rewrite Hprevious in Hlast. simpl in Hlast. simpl.
    pose proof (resultFunc_closure strictEquals undefined combiner options
                  ((λ d : State → Dep, d s) <$> dependencies) startReading endReading
                  (TrackedSelector.performAll strictEquals undefined dependencies combiner
                     options ops (TrackedSelector.initial, w)).1
                  (TrackedSelector.performAll strictEquals undefined dependencies combiner
                     options ops (TrackedSelector.initial, w)).2) as Hc.
    cbv zeta in Hc. destruct Hc as (_ & _ & Hch).
    destruct (TrackedSelector.resultFunc _ _ _ _ _ _ _ _ _) as [[res t'] w'].
    simpl in *. rewrite Hch, Hlast, Hflag, changedPositions_spec.
    by rewrite length_fmap. }
  split; [|apply positions_sorted].
  intros i. rewrite list_elem_of_fmap. split.
  - intros (n & -> & Hn). apply list_elem_of_filter in Hn as [Hdiff Hn].
    apply elem_of_seq in Hn.
    destruct (lookup_lt_is_Some_2 dependencies n ltac:(lia)) as [dependency Hd].
    exists n, dependency. split_and!; [done..|].
    rewrite !nth_lookup, !list_lookup_fmap, Hd in Hdiff. done.
  - intros (n & dependency & -> & Hd & Hdiff). exists n. split; [done|].
    apply list_elem_of_filter. split.
    + by rewrite !nth_lookup, !list_lookup_fmap, Hd.
    + apply elem_of_seq. apply lookup_lt_Some in Hd. lia.
Qed.

Lemma changed_dependencies_listed_witness :
  let strictEquals := λ a b : option Z, bool_decide (a = b) in
  let dependencies := [λ s : Z * Z, Some s.1; λ s : Z * Z, Some s.2] in
  let combiner := λ (deps : list (option Z)) (w : unit),
                    (inr (length deps) : unit + nat, w) in
  let options := {| TrackedSelector.debugLabel := None;
                    TrackedSelector.trackPerformance := None;
                    TrackedSelector.trackDependencyChanges := Some true |} in
  let t :=
    (TrackedSelector.performAll strictEquals None dependencies combiner options
       ([TrackedSelector.Run (3, 42) 0 0] ++ [TrackedSelector.Run (3, 43) 0 0])
       (TrackedSelector.initial, ())).1 in
  let changed :=
    TrackedSelector.lastChangedDependencies (TrackedSelector.getStats dependencies t) in
  (∀ i : Z, i ∈ changed ↔
     ∃ (n : nat) (dependency : Z * Z → option Z),
       i = Z.of_nat n ∧ dependencies !! n = Some dependency
       ∧ strictEquals (dependency (3, 43)) (dependency (3, 42)) = false)
  ∧ StronglySorted Z.lt changed.
Proof.
  intros strictEquals dependencies combiner options.
  assert (truthyFlag (TrackedSelector.trackDependencyChanges options) = true) as Hflag
    by reflexivity.
  assert (TrackedSelector.lastRun [TrackedSelector.Run (3, 42) 0 0] = Some (3, 42))
    as Hprevious by reflexivity.
  exact (changed_dependencies_listed strictEquals None dependencies combiner options
           [TrackedSelector.Run (3, 42) 0 0] (3, 42) (3, 43) 0 0 () Hflag Hprevious).
Defined.

(** X26. The statistics of the tracked selector. After any sequence of
    runs and [resetStats]: [executionCount] is the number of runs since the
    last reset, whether the combiner returned or threw, and
    [averageExecutionTime] divides by that number (by 1 when it is 0); with
    [trackPerformance] off the total stays 0 and nothing is warned about;
    with [trackDependencyChanges] off [lastChangedDependencies] stays
    empty; with [trackPerformance] on and a combiner that does not throw,
    [totalExecutionTime] is the sum, over the runs since the last reset, of
    the time between the two clock readings of the run. *)
Theorem tracked_statistics
    {State Dep Result Exn World : Type}
    (strictEquals : Dep → Dep → bool) (undefined : Dep)
    (dependencies : list (State → Dep))
    (combiner : list Dep → World → (Exn + Result) * World)
    (options : TrackedSelector.Options)
    (ops : list (@TrackedSelector.Operation State)) (w : World) :
  let t :=
    (TrackedSelector.performAll strictEquals undefined dependencies combiner options
       ops (TrackedSelector.initial, w)).1 in
  let stats := TrackedSelector.getStats dependencies t in
  let runs := TrackedSelector.sinceReset ops in
  TrackedSelector.st_executionCount stats = length runs
  ∧ TrackedSelector.averageExecutionTime stats
    = (TrackedSelector.st_totalExecutionTime stats, Nat.max 1 (length runs))
  ∧ (truthyFlag (TrackedSelector.trackPerformance options) = false →
     TrackedSelector.st_totalExecutionTime stats = 0
     ∧ TrackedSelector.warnings t = [])
  ∧ (truthyFlag (TrackedSelector.trackDependencyChanges options) = false →
     TrackedSelector.lastChangedDependencies stats = [])
  ∧ (truthyFlag (TrackedSelector.trackPerformance options) = true →
     (∀ deps w0, ∃ res w1, combiner deps w0 = (inr res, w1)) →
     TrackedSelector.st_totalExecutionTime stats = TrackedSelector.durations runs).
Proof.
  intros t stats runs.
  destruct (tracked_performAll_closure strictEquals undefined dependencies combiner
              options ops w) as (_ & Hcount & Hchanged & Hoff & Hon).
  fold t in Hcount, Hchanged, Hoff, Hon.
  split_and!; [done| |done..].
  unfold stats. simpl. by rewrite Hcount.
Qed.

Lemma tracked_statistics_witness :
  let strictEquals := λ a b : option Z, bool_decide (a = b) in
  let dependencies := [λ s : Z * Z, Some s.1; λ s : Z * Z, Some s.2] in
  let combiner := λ (deps : list (option Z)) (w : unit),
                    (inr (length deps) : unit + nat, w) in
  let options := {| TrackedSelector.debugLabel := Some "total";
                    TrackedSelector.trackPerformance := Some true;
                    TrackedSelector.trackDependencyChanges := None |} in
  let ops := [TrackedSelector.Run (3, 42) 100 107; TrackedSelector.ResetStats;
              TrackedSelector.Run (3, 43) 200 202; TrackedSelector.Run (4, 43) 300 309] in
  let t :=
    (TrackedSelector.performAll strictEquals None dependencies combiner options
       ops (TrackedSelector.initial, ())).1 in
  TrackedSelector.st_totalExecutionTime (TrackedSelector.getStats dependencies t)
  = TrackedSelector.durations (TrackedSelector.sinceReset ops).
Proof.
  intros strictEquals dependencies combiner options ops.
  assert (truthyFlag (TrackedSelector.trackPerformance options) = true) as Hflag
    by reflexivity.
  assert (∀ deps w0, ∃ res w1, combiner deps w0 = (inr res, w1)) as Hreturns
    by (intros deps w0; exists (length deps), w0; reflexivity).
  exact (proj2 (proj2 (proj2 (proj2
           (tracked_statistics strictEquals None dependencies combiner options ops ()))))
           Hflag Hreturns).
Defined.
